(** * claygl [src/application.js]: frame-driven resource tracker and asset loading

    A shallow embedding of [clay.application.App3D]:

    - [Tracker]: the per-frame handler registered by the constructor
      ([markUsed], [_collectResources] with [updateUsed], [checkAndDispose]);
    - [Loader]: [loadTextureSync], [loadTexture], [createMaterial] and
      [loadModel], run on a small model of promises, microtasks and the
      callback lists of textures and of the glTF loader.
    - [Sweeps] and [Traces]: what the frames and the host's events make
      of the tracker and of the loading functions;
    - [Shell]: the constructor with [resize], the procedural meshes of
      [makeProceduralMeshCreator] and [createCamera].

    JavaScript objects are heap cells named by a number; object identity
    is equality of these names. *)

From stdpp Require Import gmap strings list.
From Stdlib Require Import Lia.

(** Load state of a texture (or of a model load task). *)
Inductive LoadState := Pending | Ready | Failed.

Global Instance LoadState_eq_dec : EqDecision LoadState.
Proof. solve_decision. Defined.

(** Number of occurrences of [r] in [l]. *)
Fixpoint occurrences (r : nat) (l : list nat) : nat :=
  match l with
  | [] => 0
  | x :: l' => (if decide (x = r) then 1 else 0) + occurrences r l'
  end.

Module Tracker.

(** ** Scene as the tracker reads it *)

(** An element of an array-valued uniform: [val[k] instanceof Texture] or not. *)
Inductive ArrayElem :=
  | ETexture (t : nat)
  | EOther.

(** [material.uniforms[name].value]. *)
Inductive UniformValue :=
  | UTexture (t : nat)                 (* val instanceof Texture *)
  | UArray (elems : list ArrayElem)    (* val instanceof Array *)
  | UOther.                            (* numbers, vectors, null, ... *)

Record Uniform := { utype : string; value : UniformValue }.

(** Uniforms in [for (var name in material.uniforms)] order. *)
Record Material := { uniforms : list (string * Uniform) }.

Record Renderable := { geometry : nat; material : Material }.

(** [light.cubemap] is set on ambient cubemap lights only. *)
Record Light := { cubemap : option nat }.

Record Scene := {
  opaqueList : list Renderable;
  transparentList : list Renderable;
  lights : list Light
}.

(** ** Resource objects

    Textures and geometries are different classes, so each has its own
    name space.  [__used__] is a property the tracker adds to the object:
    a missing key is [undefined].  The load state of a texture belongs to
    the texture and is never read by the tracker. *)

Inductive ResourceRef :=
  | Tex (t : nat)
  | Geo (g : nat).

Global Instance ResourceRef_eq_dec : EqDecision ResourceRef.
Proof. solve_decision. Defined.

(** [resource.__used__ || 0] *)
Definition usedOr0 (u : gmap nat nat) (r : nat) : nat := default 0 (u !! r).

(** [markUsed]: [resourceList[i].__used__ = 0] for every entry. *)
Fixpoint markUsed (resourceList : list nat) (u : gmap nat nat) : gmap nat nat :=
  match resourceList with
  | [] => u
  | r :: rest => markUsed rest (<[r := 0]> u)
  end.

(** [checkAndDispose]: the [dispose(renderer)] calls it makes, in order. *)
Fixpoint checkAndDispose (u : gmap nat nat) (resourceList : list nat) : list nat :=
  match resourceList with
  | [] => []
  | r :: rest =>
      if decide (usedOr0 u r = 0)             (* !resourceList[i].__used__ *)
      then r :: checkAndDispose u rest
      else checkAndDispose u rest
  end.

(** [updateUsed]: push first, then default the counter to 0 and increment. *)
Definition updateUsed (r : nat) (lu : list nat * gmap nat nat) : list nat * gmap nat nat :=
  (lu.1 ++ [r], <[r := S (usedOr0 lu.2 r)]> lu.2).

(** The two lists being filled and the [__used__] properties. *)
Record Collect := {
  textureResourceList : list nat;
  geometryResourceList : list nat;
  texUsed : gmap nat nat;
  geoUsed : gmap nat nat
}.

Definition useTexture (t : nat) (c : Collect) : Collect :=
  let lu := updateUsed t (textureResourceList c, texUsed c) in
  {| textureResourceList := lu.1; geometryResourceList := geometryResourceList c;
     texUsed := lu.2; geoUsed := geoUsed c |}.

Definition useGeometry (g : nat) (c : Collect) : Collect :=
  let lu := updateUsed g (geometryResourceList c, geoUsed c) in
  {| textureResourceList := textureResourceList c; geometryResourceList := lu.1;
     texUsed := texUsed c; geoUsed := lu.2 |}.

(** [for (var k = 0; k < val.length; k++)] over an array uniform. *)
Fixpoint trackArray (elems : list ArrayElem) (c : Collect) : Collect :=
  match elems with
  | [] => c
  | ETexture t :: rest => trackArray rest (useTexture t c)
  | EOther :: rest => trackArray rest c
  end.

Definition trackValue (v : UniformValue) (c : Collect) : Collect :=
  match v with
  | UTexture t => useTexture t c
  | UArray elems => trackArray elems c
  | UOther => c
  end.

(** [for (var name in material.uniforms)] *)
Fixpoint trackUniforms (us : list (string * Uniform)) (c : Collect) : Collect :=
  match us with
  | [] => c
  | (_, u) :: rest => trackUniforms rest (trackValue (value u) c)
  end.

(** [trackQueue] *)
Fixpoint trackQueue (queue : list Renderable) (c : Collect) : Collect :=
  match queue with
  | [] => c
  | renderable :: rest =>
      trackQueue rest
        (trackUniforms (uniforms (material renderable))
           (useGeometry (geometry renderable) c))
  end.

(** The loop over [scene.lights]. *)
Fixpoint trackLights (ls : list Light) (c : Collect) : Collect :=
  match ls with
  | [] => c
  | l :: rest =>
      trackLights rest
        (match cubemap l with Some t => useTexture t c | None => c end)
  end.

(** [App3D.prototype._collectResources] *)
Definition _collectResources (scene : Scene) (c : Collect) : Collect :=
  trackLights (lights scene)
    (trackQueue (transparentList scene)
       (trackQueue (opaqueList scene) c)).

(** ** The application and its frame handler *)

(** Closure state of one [App3D]: [gTexturesList], [gGeometriesList], the
    [__used__] property and load state of the resource objects, and the
    [dispose] calls made so far, one entry per sweep. *)
Record AppState := {
  gTexturesList : list nat;
  gGeometriesList : list nat;
  texUsedOf : gmap nat nat;
  geoUsedOf : gmap nat nat;
  texLoadState : gmap nat LoadState;
  disposeLog : list (list ResourceRef)
}.

(** The handler passed to [gTimeline.on('frame', ...)].  [scene] is the
    scene as it stands once [appNS.loop] and [_doRender] have run. *)
Definition frameHandler (scene : Scene) (st : AppState) : AppState :=
  let tu := markUsed (gTexturesList st) (texUsedOf st) in
  let gu := markUsed (gGeometriesList st) (geoUsedOf st) in
  let c := _collectResources scene
             {| textureResourceList := []; geometryResourceList := [];
                texUsed := tu; geoUsed := gu |} in
  let dt := checkAndDispose (texUsed c) (gTexturesList st) in
  let dg := checkAndDispose (geoUsed c) (gGeometriesList st) in
  {| gTexturesList := textureResourceList c;
     gGeometriesList := geometryResourceList c;
     texUsedOf := texUsed c;
     geoUsedOf := geoUsed c;
     texLoadState := texLoadState st;
     disposeLog := disposeLog st ++ [(Tex <$> dt) ++ (Geo <$> dg)] |}.

(** Listeners of the timeline's ['frame'] event. *)
Inductive FrameListener := TrackerHandler.

(** The part of [appNS] the constructor branches on. *)
Record AppNS := { loop : bool }.

Record App := {
  frameListeners : list FrameListener;
  appState : AppState
}.

(** The constructor: [gTexturesList = {}], [gGeometriesList = {}] (no
    [length], so the first loops run zero times), and the handler is
    registered only under [if (appNS.loop)].  The resource objects are
    not the constructor's: [loads] are their load states and [tu], [gu]
    the [__used__] properties they carry when it runs (another
    application may have tracked them), none of which it touches. *)
Definition App3D (appNS : AppNS) (loads : gmap nat LoadState)
    (tu gu : gmap nat nat) : App :=
  {| frameListeners := if loop appNS then [TrackerHandler] else [];
     appState := {| gTexturesList := []; gGeometriesList := [];
                    texUsedOf := tu; geoUsedOf := gu;
                    texLoadState := loads; disposeLog := [] |} |}.

Definition runListener (scene : Scene) (st : AppState) (h : FrameListener) : AppState :=
  match h with TrackerHandler => frameHandler scene st end.

(** One ['frame'] event of the timeline. *)
Definition tick (scene : Scene) (app : App) : App :=
  {| frameListeners := frameListeners app;
     appState := foldl (runListener scene) (appState app) (frameListeners app) |}.

(** A sequence of frame ticks, given by the scene seen at each. *)
Definition ticks (scenes : list Scene) (app : App) : App :=
  foldl (λ a s, tick s a) app scenes.

(** ** References made by a scene, in traversal order *)

Fixpoint arrayTextures (elems : list ArrayElem) : list nat :=
  match elems with
  | [] => []
  | ETexture t :: rest => t :: arrayTextures rest
  | EOther :: rest => arrayTextures rest
  end.

Definition valueTextures (v : UniformValue) : list nat :=
  match v with
  | UTexture t => [t]
  | UArray elems => arrayTextures elems
  | UOther => []
  end.

Definition materialTextures (m : Material) : list nat :=
  concat (map (λ nu, valueTextures (value nu.2)) (uniforms m)).

Definition queueTextures (q : list Renderable) : list nat :=
  concat (map (λ r, materialTextures (material r)) q).

Definition lightTextures (ls : list Light) : list nat :=
  concat (map (λ l, match cubemap l with Some t => [t] | None => [] end) ls).

Definition sceneTextures (s : Scene) : list nat :=
  queueTextures (opaqueList s) ++ queueTextures (transparentList s)
  ++ lightTextures (lights s).

Definition sceneGeometries (s : Scene) : list nat :=
  (geometry <$> opaqueList s) ++ (geometry <$> transparentList s).

(** Number of references to a resource in a scene, and reachability. *)
Definition refCount (R : ResourceRef) (s : Scene) : nat :=
  match R with
  | Tex t => occurrences t (sceneTextures s)
  | Geo g => occurrences g (sceneGeometries s)
  end.

Definition reachable (R : ResourceRef) (s : Scene) : Prop := 0 < refCount R s.

(** Number of [dispose] calls on [R] in one sweep. *)
Fixpoint disposeCalls (R : ResourceRef) (sweep : list ResourceRef) : nat :=
  match sweep with
  | [] => 0
  | x :: rest => (if decide (x = R) then 1 else 0) + disposeCalls R rest
  end.

(** The resources the claims call live, by the route that reaches them. *)
Inductive liveIn (s : Scene) : ResourceRef → Prop :=
  | live_geometry r :
      r ∈ opaqueList s ++ transparentList s →
      liveIn s (Geo (geometry r))
  | live_uniform r name u t :
      r ∈ opaqueList s ++ transparentList s →
      (name, u) ∈ uniforms (material r) →
      value u = UTexture t →
      liveIn s (Tex t)
  | live_array_uniform r name u elems t :
      r ∈ opaqueList s ++ transparentList s →
      (name, u) ∈ uniforms (material r) →
      value u = UArray elems →
      ETexture t ∈ elems →
      liveIn s (Tex t)
  | live_cubemap l t :
      l ∈ lights s →
      cubemap l = Some t →
      liveIn s (Tex t).

(** Occurrences of [R] in the snapshot kept for the next frame. *)
Definition snapshotCount (R : ResourceRef) (st : AppState) : nat :=
  match R with
  | Tex t => occurrences t (gTexturesList st)
  | Geo g => occurrences g (gGeometriesList st)
  end.

(** [dispose] calls on [R] over all sweeps of a log. *)
Definition totalDisposeCalls (R : ResourceRef) (log : list (list ResourceRef)) : nat :=
  sum_list_with (disposeCalls R) log.

(** [updateUsed] over a list of encounters: the counters only. *)
Definition bump (l : list nat) (u : gmap nat nat) : gmap nat nat :=
  foldl (λ u r, <[r := S (usedOr0 u r)]> u) u l.

(** The same application state with other load states for the textures. *)
Definition withLoadStates (loads : gmap nat LoadState) (st : AppState) : AppState :=
  {| gTexturesList := gTexturesList st; gGeometriesList := gGeometriesList st;
     texUsedOf := texUsedOf st; geoUsedOf := geoUsedOf st;
     texLoadState := loads; disposeLog := disposeLog st |}.

(** The scene of frame [b] is the last in which [R] is referenced, the
    one of frame [a] the first: [R] is reachable exactly in frames [a..b]. *)
Definition liveExactlyDuring (scenes : list Scene) (R : ResourceRef) (a b : nat) : Prop :=
  ∀ i s, scenes !! i = Some s → (reachable R s ↔ a ≤ i ≤ b).

(** Loads settle between frames: each frame comes with the load states
    the textures have when it runs. *)
Definition tickLoading (f : gmap nat LoadState * Scene) (app : App) : App :=
  tick f.2 {| frameListeners := frameListeners app;
              appState := withLoadStates f.1 (appState app) |}.

Definition ticksLoading (frames : list (gmap nat LoadState * Scene)) (app : App) : App :=
  foldl (λ a f, tickLoading f a) app frames.

(** Scenes used as concrete inputs below. *)
Definition plainMaterial : Material := {| uniforms := [] |}.

Definition emptyScene : Scene :=
  {| opaqueList := []; transparentList := []; lights := [] |}.

(** Two meshes sharing geometry 0. *)
Definition sharedScene : Scene :=
  {| opaqueList := [ {| geometry := 0; material := plainMaterial |};
                     {| geometry := 0; material := plainMaterial |} ];
     transparentList := []; lights := [] |}.

(** One mesh whose material has texture 5 in a uniform. *)
Definition texturedScene : Scene :=
  {| opaqueList :=
       [ {| geometry := 1;
            material := {| uniforms :=
              [("diffuseMap"%string, {| utype := "t"; value := UTexture 5 |})] |} |} ];
     transparentList := []; lights := [] |}.

(** [c'] is [c] after the encounters [tl] (textures) and [gl] (geometries). *)
Definition extends (c : Collect) (tl gl : list nat) (c' : Collect) : Prop :=
  textureResourceList c' = textureResourceList c ++ tl
  ∧ geometryResourceList c' = geometryResourceList c ++ gl
  ∧ texUsed c' = bump tl (texUsed c)
  ∧ geoUsed c' = bump gl (geoUsed c).

(** The sweep of one frame, as a list of [dispose] calls. *)
Definition sweepOf (s : Scene) (st : AppState) : list ResourceRef :=
  (Tex <$> checkAndDispose (texUsedOf (frameHandler s st)) (gTexturesList st))
  ++ (Geo <$> checkAndDispose (geoUsedOf (frameHandler s st)) (gGeometriesList st)).

(** Between frames every counter equals the number of entries the
    resource has in the kept snapshot. *)
Definition countersMatch (st : AppState) : Prop :=
  (∀ t, usedOr0 (texUsedOf st) t = occurrences t (gTexturesList st))
  ∧ (∀ g, usedOr0 (geoUsedOf st) g = occurrences g (gGeometriesList st)).

(** References to [R] in the frame before frame [i]. *)
Definition refsBefore (R : ResourceRef) (scenes : list Scene) (i : nat) : nat :=
  match i with
  | 0 => 0
  | S j => from_option (refCount R) 0 (scenes !! j)
  end.

End Tracker.

Module Loader.

(** ** Values *)

(** What the glTF loader hands to its [success] listeners. *)
Record GLTFResult := {
  rootNode : nat;
  clips : list nat;
  textures : list nat
}.

(** JavaScript values that reach this file: config entries, texture
    sources, uniform values, and what promises settle with. *)
#[warnings="-register-all"] Inductive Value :=
  | VUndefined
  | VNull
  | VBool (b : bool)
  | VNumber (n : Z)
  | VString (s : string)
  | VImage (e : nat)                 (* instanceof Image *)
  | VCanvas (e : nat)                (* instanceof HTMLCanvasElement *)
  | VVideo (e : nat)                 (* instanceof HTMLVideoElement *)
  | VTexture (t : nat)               (* a Texture2D object *)
  | VResult (r : GLTFResult)
  | VArray (vs : list Value).

(** [isImageLikeElement] *)
Definition isImageLikeElement (val : Value) : bool :=
  match val with
  | VImage _ | VCanvas _ | VVideo _ => true
  | _ => false
  end.

(** JavaScript truthiness, for [a || b] and [if (a)]. *)
Definition truthy (v : Value) : bool :=
  match v with
  | VUndefined | VNull => false
  | VBool b => b
  | VNumber n => negb (n =? 0)%Z
  | VString s => negb (String.eqb s "")
  | _ => true
  end.

(** Options of [loadModel] that this file reads. *)
Record ModelOpts := {
  shader : option string;
  waitTextureLoaded : bool;
  autoPlayAnimation : bool;
  textureRootPath : option string;
  textureFlipY : bool
}.

(** [opts = opts || {}] *)
Definition noModelOpts : ModelOpts :=
  {| shader := None; waitTextureLoaded := false; autoPlayAnimation := false;
     textureRootPath := None; textureFlipY := false |}.

(** ** Closures

    Every function value the file creates, with what it captures. *)
Inductive Callback :=
  | ResolveFn (p : nat)            (* the [resolve] of promise [p], passed as is *)
  | RejectFn (p : nat)             (* the [reject] of promise [p], passed as is *)
  | ResolveTexture (p t : nat)     (* function () { resolve(texture); } *)
  | RejectPlain (p : nat)          (* function () { reject(); } *)
  | TextureSetter (m : nat) (key : string)          (* makeTextureSetter(key) *)
  | LoaderSuccess (opts : ModelOpts) (p : nat)      (* function (result) { ... } *)
  | AfterLoad (opts : ModelOpts) (p : nat) (r : GLTFResult)
                                   (* function () { afterLoad(result); } *)
  | AllResolveElement (a i : nat). (* Promise.all's resolve function of element i *)

(** ** Promises *)

Inductive PromiseState :=
  | PPending
  | PFulfilled (v : Value)
  | PRejected (v : Value).

(** One [then] registration: the two handlers and the promise [then] returned. *)
Record Reaction := {
  onFulfilled : option Callback;
  onRejected : option Callback;
  derived : nat
}.

Record Promise := {
  pstate : PromiseState;
  reactions : list Reaction
}.

(** A microtask: run the handler on the settled value, then settle the
    derived promise. *)
Record Job := {
  jobHandler : option Callback;
  jobFulfilled : bool;
  jobArg : Value;
  jobDerived : nat
}.

(** Bookkeeping of one [Promise.all]. *)
Record AllState := {
  remaining : nat;
  total : nat;
  values : gmap nat Value
}.

(** ** Objects of the library *)

(** Modelled from the spec: [Texture2D] is not in this file.  A texture
    has a load state (pending, ready, error) and is pending only while
    it is backed by a load that is still outstanding; [isRenderable()]
    is true exactly when it is ready, and [success(cb)] and [error(cb)]
    register [cb] for the one transition out of pending. *)
Record Texture := {
  status : LoadState;
  image : option Value;
  dynamic : bool;
  texOpts : Value;
  successListeners : list Callback;
  errorListeners : list Callback
}.

(** Modelled from the spec: [GLTFLoader] is not in this file.  A load
    task with [success(cb)], [error(cb)] and [load(url)]. *)
Record GLTFLoader := {
  loaderRootNode : nat;                     (* loaderOpts.rootNode *)
  loaderShaderName : string;                (* loaderOpts.shaderName *)
  loaderTextureRootPath : option string;    (* loaderOpts.textureRootPath *)
  loaderCrossOrigin : string;               (* loaderOpts.crossOrigin *)
  loaderTextureFlipY : bool;                (* loaderOpts.textureFlipY *)
  loaderUrl : option string;                (* the argument of [load] *)
  loaderStatus : LoadState;
  loaderSuccess : list Callback;
  loaderError : list Callback
}.

Record Uniform := { utype : string; uvalue : Value }.

(** Modelled from the spec: [Material] is not in this file.  A mapping
    from uniform name to [{ type, value }], and the render state the
    constructor sets when the options give none. *)
Record Material := {
  uniforms : gmap string Uniform;
  transparent : bool;
  depthMask : bool
}.

(** ** The world: heaps, the microtask queue, scene and timeline *)

Record World := mkWorld {
  promises : list Promise;
  alls : gmap nat AllState;
  jobs : list Job;
  textureObjs : list Texture;
  loaders : list GLTFLoader;
  materials : list Material;
  sceneNodes : list nat;             (* arguments of [scene.add], in order *)
  timelineClips : list nat;          (* arguments of [timeline.addClip] *)
  nodeCount : nat;                   (* [new Node()] made so far *)
  shaderLibrary : Value → gmap string Uniform
                                     (* the uniforms of [shaderLibrary.get(name)] *)
}.

Definition withPromises (ps : list Promise) (w : World) : World :=
  mkWorld ps (alls w) (jobs w) (textureObjs w) (loaders w) (materials w)
    (sceneNodes w) (timelineClips w) (nodeCount w) (shaderLibrary w).

Definition withAlls (als : gmap nat AllState) (w : World) : World :=
  mkWorld (promises w) als (jobs w) (textureObjs w) (loaders w) (materials w)
    (sceneNodes w) (timelineClips w) (nodeCount w) (shaderLibrary w).

Definition withJobs (js : list Job) (w : World) : World :=
  mkWorld (promises w) (alls w) js (textureObjs w) (loaders w) (materials w)
    (sceneNodes w) (timelineClips w) (nodeCount w) (shaderLibrary w).

Definition withTextures (ts : list Texture) (w : World) : World :=
  mkWorld (promises w) (alls w) (jobs w) ts (loaders w) (materials w)
    (sceneNodes w) (timelineClips w) (nodeCount w) (shaderLibrary w).

Definition withLoaders (ls : list GLTFLoader) (w : World) : World :=
  mkWorld (promises w) (alls w) (jobs w) (textureObjs w) ls (materials w)
    (sceneNodes w) (timelineClips w) (nodeCount w) (shaderLibrary w).

Definition withMaterials (ms : list Material) (w : World) : World :=
  mkWorld (promises w) (alls w) (jobs w) (textureObjs w) (loaders w) ms
    (sceneNodes w) (timelineClips w) (nodeCount w) (shaderLibrary w).

Definition withSceneNodes (ns : list nat) (w : World) : World :=
  mkWorld (promises w) (alls w) (jobs w) (textureObjs w) (loaders w) (materials w)
    ns (timelineClips w) (nodeCount w) (shaderLibrary w).

Definition withTimelineClips (cs : list nat) (w : World) : World :=
  mkWorld (promises w) (alls w) (jobs w) (textureObjs w) (loaders w) (materials w)
    (sceneNodes w) cs (nodeCount w) (shaderLibrary w).

Definition withNodeCount (n : nat) (w : World) : World :=
  mkWorld (promises w) (alls w) (jobs w) (textureObjs w) (loaders w) (materials w)
    (sceneNodes w) (timelineClips w) n (shaderLibrary w).

(** A fresh application: nothing allocated yet. *)
Definition emptyWorld (lib : Value → gmap string Uniform) : World :=
  mkWorld [] ∅ [] [] [] [] [] [] 0 lib.

(** ** Promise operations *)

Definition pendingPromise : Promise := {| pstate := PPending; reactions := [] |}.

(** [new Promise(...)]: the fresh promise, before its executor runs. *)
Definition newPromise (w : World) : nat * World :=
  (length (promises w), withPromises (promises w ++ [pendingPromise]) w).

Definition reactionJob (ok : bool) (v : Value) (r : Reaction) : Job :=
  {| jobHandler := if ok then onFulfilled r else onRejected r;
     jobFulfilled := ok; jobArg := v; jobDerived := derived r |}.

(** [resolve(v)] ([ok]) or [reject(v)] of promise [p]: only a pending
    promise changes, and its reactions become microtasks.  No value of
    this file is a thenable. *)
Definition settle (p : nat) (ok : bool) (v : Value) (w : World) : World :=
  match promises w !! p with
  | Some {| pstate := PPending; reactions := rs |} =>
      withJobs (jobs w ++ (reactionJob ok v <$> rs))
        (withPromises
           (<[p := {| pstate := if ok then PFulfilled v else PRejected v;
                      reactions := [] |}]> (promises w)) w)
  | _ => w
  end.

(** [Promise.resolve(v)] on a value that is not a promise. *)
Definition promiseResolve (v : Value) (w : World) : nat * World :=
  (length (promises w),
   withPromises (promises w ++ [{| pstate := PFulfilled v; reactions := [] |}]) w).

(** [p.then(onF, onR)]; [p.catch(onR)] is [p.then(undefined, onR)]. *)
Definition then_ (p : nat) (onF onR : option Callback) (w : World) : nat * World :=
  let d := length (promises w) in
  let w1 := withPromises (promises w ++ [pendingPromise]) w in
  let r := {| onFulfilled := onF; onRejected := onR; derived := d |} in
  match promises w !! p with
  | Some {| pstate := PPending; reactions := rs |} =>
      (d, withPromises
            (<[p := {| pstate := PPending; reactions := rs ++ [r] |}]> (promises w1)) w1)
  | Some {| pstate := PFulfilled v; reactions := _ |} =>
      (d, withJobs (jobs w1 ++ [reactionJob true v r]) w1)
  | Some {| pstate := PRejected v; reactions := _ |} =>
      (d, withJobs (jobs w1 ++ [reactionJob false v r]) w1)
  | None => (d, w1)
  end.

(** The elements of [Promise.all], one [then] each. *)
Fixpoint allElements (a : nat) (i : nat) (ps : list nat) (w : World) : World :=
  match ps with
  | [] => w
  | p :: rest =>
      allElements a (S i) rest
        (then_ p (Some (AllResolveElement a i)) (Some (RejectFn a)) w).2
  end.

Definition allValues (st : AllState) : Value :=
  VArray ((λ i, default VUndefined (values st !! i)) <$> seq 0 (total st)).

(** [Promise.all(ps)] on a list of promises. *)
Definition promiseAll (ps : list nat) (w : World) : nat * World :=
  let (a, w1) := newPromise w in
  let st := {| remaining := length ps; total := length ps; values := ∅ |} in
  let w2 := allElements a 0 ps (withAlls (<[a := st]> (alls w1)) w1) in
  (a, if decide (length ps = 0) then settle a true (allValues st) w2 else w2).

(** Promise.all's resolve function of element [i]. *)
Definition allResolveElement (a i : nat) (v : Value) (w : World) : World :=
  match alls w !! a with
  | Some st =>
      let st' := {| remaining := remaining st - 1; total := total st;
                    values := <[i := v]> (values st) |} in
      let w1 := withAlls (<[a := st']> (alls w)) w in
      if decide (remaining st' = 0) then settle a true (allValues st') w1 else w1
  | None => w
  end.

(** ** Textures *)

(** [texture.isRenderable()] *)
Definition isRenderable (t : nat) (w : World) : bool :=
  match textureObjs w !! t with
  | Some tex => bool_decide (status tex = Ready)
  | None => false
  end.

Definition alterTexture (f : Texture → Texture) (t : nat) (w : World) : World :=
  withTextures (alter f t (textureObjs w)) w.

(** [texture.success(cb)] *)
Definition textureOnSuccess (t : nat) (cb : Callback) (w : World) : World :=
  alterTexture (λ tex,
    {| status := status tex; image := image tex; dynamic := dynamic tex;
       texOpts := texOpts tex;
       successListeners := successListeners tex ++ [cb];
       errorListeners := errorListeners tex |}) t w.

(** [texture.error(cb)] *)
Definition textureOnError (t : nat) (cb : Callback) (w : World) : World :=
  alterTexture (λ tex,
    {| status := status tex; image := image tex; dynamic := dynamic tex;
       texOpts := texOpts tex;
       successListeners := successListeners tex;
       errorListeners := errorListeners tex ++ [cb] |}) t w.

(** [typeof v === 'string'] *)
Definition typeofString (v : Value) : bool :=
  match v with
  | VString _ => true
  | _ => false
  end.

(** [App3D.prototype.loadTextureSync]: [new Texture2D(opts)], then
    [texture.load(url)] for a string, or the image attached for an
    image-like element, or nothing at all for any other value.  Only
    [load] starts a load, and a texture is pending only while a load is
    outstanding: the texture of a string is pending, and every other
    one, with an image or with nothing, has nothing to wait for and is
    ready. *)
Definition loadTextureSync (urlOrImg opts : Value) (w : World) : nat * World :=
  let t := length (textureObjs w) in
  let texture :=
    match urlOrImg with
    | VString url =>
        {| status := Pending; image := None; dynamic := false; texOpts := opts;
           successListeners := []; errorListeners := [] |}
    | _ =>
        if isImageLikeElement urlOrImg
        then {| status := Ready; image := Some urlOrImg;
                dynamic := match urlOrImg with VVideo _ => true | _ => false end;
                texOpts := opts; successListeners := []; errorListeners := [] |}
        else {| status := Ready; image := None; dynamic := false; texOpts := opts;
                successListeners := []; errorListeners := [] |}
    end in
  (t, withTextures (textureObjs w ++ [texture]) w).

(** [App3D.prototype.loadTexture] *)
Definition loadTexture (urlOrImg opts : Value) (w : World) : nat * World :=
  let (p, w1) := newPromise w in
  let (texture, w2) := loadTextureSync urlOrImg opts w1 in
  if negb (isRenderable texture w2)
  then (p, textureOnError texture (RejectPlain p)
             (textureOnSuccess texture (ResolveTexture p texture) w2))
  else (p, settle p true (VTexture texture) w2).

(** ** Materials *)

(** Modelled from the spec: [new Material({ shader: ... })] with the
    uniforms of the shader, not transparent ([transparent=false] in the
    JSDoc of [createMaterial]) and with depth-mask writes on. *)
Definition newMaterial (us : gmap string Uniform) : Material :=
  {| uniforms := us; transparent := false; depthMask := true |}.

(** Modelled from the spec: [material.setUniform(key, val)] assigns the
    value of a declared uniform and does nothing for another key. *)
Definition setUniform (m : nat) (key : string) (val : Value) (w : World) : World :=
  withMaterials
    (alter (λ mat,
       {| uniforms := alter (λ u, {| utype := utype u; uvalue := val |}) key (uniforms mat);
          transparent := transparent mat; depthMask := depthMask mat |}) m (materials w)) w.

(** A config object: its own keys in insertion order. *)
Fixpoint cfgGet (key : string) (cfg : list (string * Value)) : Value :=
  match cfg with
  | [] => VUndefined
  | (k, x) :: rest => if decide (k = key) then x else cfgGet key rest
  end.

Fixpoint cfgSet (key : string) (v : Value) (cfg : list (string * Value)) :
    list (string * Value) :=
  match cfg with
  | [] => [(key, v)]
  | (k, x) :: rest =>
      if decide (k = key) then (k, v) :: rest else (k, x) :: cfgSet key v rest
  end.

(** The body of [for (var key in matConfig)] in [createMaterial];
    [material.uniforms[key]] is the lookup in the mapping of the
    material, which holds the declared uniforms of its shader. *)
Definition configureUniform (m : nat) (w : World) (kv : string * Value) : World :=
  match (uniforms <$> materials w !! m) ≫= (λ us, us !! kv.1) with
  | Some u =>
      if String.eqb (utype u) "t" || isImageLikeElement kv.2
      then (then_ (loadTexture kv.2 VUndefined w).1
              (Some (TextureSetter m kv.1)) None
              (loadTexture kv.2 VUndefined w).2).2
      else setUniform m kv.1 kv.2 w
  | None => w
  end.

(** [App3D.prototype.createMaterial]: the material, the config object as
    the call leaves it, and the world. *)
Definition createMaterial (matConfig : option (list (string * Value))) (w : World) :
    nat * list (string * Value) * World :=
  let cfg0 := default [] matConfig in
  let shaderName :=
    if truthy (cfgGet "shader" cfg0) then cfgGet "shader" cfg0
    else VString "clay.standard" in
  let cfg1 := cfgSet "shader" shaderName cfg0 in
  let material := length (materials w) in
  let w1 := withMaterials (materials w ++ [newMaterial (shaderLibrary w shaderName)]) w in
  let w2 := foldl (configureUniform material) w1 cfg1 in
  let cfg2 :=
    if truthy (cfgGet "transparent" cfg1)
    then cfgSet "transparent" (VBool true) (cfgSet "depthMask" (VBool false) cfg1)
    else cfg1 in
  (material, cfg2, w2).

(** ** Models *)

(** [afterLoad(result)] inside [loadModel]. *)
Definition afterLoad (opts : ModelOpts) (p : nat) (result : GLTFResult) (w : World) : World :=
  let w1 := withSceneNodes (sceneNodes w ++ [rootNode result]) w in
  let w2 := if autoPlayAnimation opts
            then withTimelineClips (timelineClips w1 ++ clips result) w1
            else w1 in
  settle p true (VResult result) w2.

(** The function mapped over [result.textures]. *)
Definition textureSettled (texture : nat) (w : World) : nat * World :=
  if isRenderable texture w
  then promiseResolve (VTexture texture) w
  else
    let (q, w1) := newPromise w in
    (q, textureOnError texture (ResolveFn q)
          (textureOnSuccess texture (ResolveFn q) w1)).

Fixpoint mapTextures (ts : list nat) (w : World) : list nat * World :=
  match ts with
  | [] => ([], w)
  | t :: rest =>
      let (q, w1) := textureSettled t w in
      let (qs, w2) := mapTextures rest w1 in
      (q :: qs, w2)
  end.

(** The listener passed to [loader.success]. *)
Definition onLoaderSuccess (opts : ModelOpts) (p : nat) (result : GLTFResult)
    (w : World) : World :=
  if negb (waitTextureLoaded opts)
  then afterLoad opts p result w
  else
    let (qs, w1) := mapTextures (textures result) w in
    let (a, w2) := promiseAll qs w1 in
    let (d1, w3) := then_ a (Some (AfterLoad opts p result)) None w2 in
    (then_ d1 None (Some (AfterLoad opts p result)) w3).2.

(** Calling a closure with one argument. *)
Definition call (cb : Callback) (arg : Value) (w : World) : World :=
  match cb with
  | ResolveFn p => settle p true arg w
  | RejectFn p => settle p false arg w
  | ResolveTexture p t => settle p true (VTexture t) w
  | RejectPlain p => settle p false VUndefined w
  | TextureSetter m key => setUniform m key arg w
  | LoaderSuccess opts p =>
      match arg with
      | VResult result => onLoaderSuccess opts p result w
      | _ => w
      end
  | AfterLoad opts p result => afterLoad opts p result w
  | AllResolveElement a i => allResolveElement a i arg w
  end.

Definition callAll (cbs : list Callback) (arg : Value) (w : World) : World :=
  foldl (λ w cb, call cb arg w) w cbs.

(** What a call returns or throws. *)
Inductive Outcome (A : Type) :=
  | Returned (a : A)
  | Thrown (message : string).
Arguments Returned {A} a.
Arguments Thrown {A} message.

(** [App3D.prototype.loadModel] *)
Definition loadModel (url : Value) (opts : option ModelOpts) (w : World) :
    Outcome (nat * World) :=
  match url with
  | VString u =>
      let opts := default noModelOpts opts in
      let shaderName :=
        match shader opts with
        | Some s => if String.eqb s "" then "standard"%string else s
        | None => "standard"%string
        end in
      let node := nodeCount w in
      let w1 := withNodeCount (S node) w in
      let loader := length (loaders w1) in
      let (p, w2) := newPromise w1 in
      let w3 := withLoaders
                  (loaders w2 ++
                   [{| loaderRootNode := node;
                       loaderShaderName := "clay." ++ shaderName;
                       loaderTextureRootPath := textureRootPath opts;
                       loaderCrossOrigin := "Anonymous";
                       loaderTextureFlipY := textureFlipY opts;
                       loaderUrl := Some u;
                       loaderStatus := Pending;
                       loaderSuccess := [LoaderSuccess opts p];
                       loaderError := [RejectPlain p] |}]) w2 in
      Returned (p, w3)
  | _ => Thrown "Invalid URL."
  end.

(** ** The event loop *)

(** Modelled from the spec: what the host delivers between turns.  A
    texture load task goes from pending to ready or to error, once; so
    does a model load task, and one that succeeds hands over the textures
    it made, each in the load state it has by then: ready, still
    pending, or already in error. *)
Inductive Event :=
  | TextureLoaded (t : nat)
  | TextureFailed (t : nat)
  | ModelLoaded (l : nat) (cs : list nat) (made : list LoadState)
  | ModelFailed (l : nat).

Definition madeTexture (s : LoadState) : Texture :=
  {| status := s;
     image := None; dynamic := false; texOpts := VUndefined;
     successListeners := []; errorListeners := [] |}.

(** [texture.isRenderable()] of a texture in the load state [s]. *)
Definition renderable (s : LoadState) : bool := bool_decide (s = Ready).

(** The textures of [made] that were in error when handed over: their
    one event is past, so no listener registered later hears of them. *)
Definition stuckCount (made : list LoadState) : nat :=
  length (filter (λ s, s = Failed) made).

(** One turn of the host: the listeners of the event run. *)
Definition deliver (ev : Event) (w : World) : World :=
  match ev with
  | TextureLoaded t =>
      match textureObjs w !! t with
      | Some tex =>
          if decide (status tex = Pending)
          then callAll (successListeners tex) (VTexture t)
                 (alterTexture (λ tex,
                    {| status := Ready; image := image tex; dynamic := dynamic tex;
                       texOpts := texOpts tex; successListeners := [];
                       errorListeners := errorListeners tex |}) t w)
          else w
      | None => w
      end
  | TextureFailed t =>
      match textureObjs w !! t with
      | Some tex =>
          if decide (status tex = Pending)
          then callAll (errorListeners tex) (VTexture t)
                 (alterTexture (λ tex,
                    {| status := Failed; image := image tex; dynamic := dynamic tex;
                       texOpts := texOpts tex;
                       successListeners := successListeners tex;
                       errorListeners := [] |}) t w)
          else w
      | None => w
      end
  | ModelLoaded l cs made =>
      match loaders w !! l with
      | Some ld =>
          if decide (loaderStatus ld = Pending)
          then
            let first := length (textureObjs w) in
            let result := {| rootNode := loaderRootNode ld; clips := cs;
                             textures := seq first (length made) |} in
            callAll (loaderSuccess ld) (VResult result)
              (withTextures (textureObjs w ++ (madeTexture <$> made))
                 (withLoaders
                    (<[l := {| loaderRootNode := loaderRootNode ld;
                               loaderShaderName := loaderShaderName ld;
                               loaderTextureRootPath := loaderTextureRootPath ld;
                               loaderCrossOrigin := loaderCrossOrigin ld;
                               loaderTextureFlipY := loaderTextureFlipY ld;
                               loaderUrl := loaderUrl ld;
                               loaderStatus := Ready;
                               loaderSuccess := [];
                               loaderError := loaderError ld |}]> (loaders w)) w))
          else w
      | None => w
      end
  | ModelFailed l =>
      match loaders w !! l with
      | Some ld =>
          if decide (loaderStatus ld = Pending)
          then
            callAll (loaderError ld) VUndefined
              (withLoaders
                 (<[l := {| loaderRootNode := loaderRootNode ld;
                            loaderShaderName := loaderShaderName ld;
                            loaderTextureRootPath := loaderTextureRootPath ld;
                            loaderCrossOrigin := loaderCrossOrigin ld;
                            loaderTextureFlipY := loaderTextureFlipY ld;
                            loaderUrl := loaderUrl ld;
                            loaderStatus := Failed;
                            loaderSuccess := loaderSuccess ld;
                            loaderError := [] |}]> (loaders w)) w)
          else w
      | None => w
      end
  end.

(** One microtask. *)
Definition runJob (j : Job) (w : World) : World :=
  match jobHandler j with
  | Some cb => settle (jobDerived j) true VUndefined (call cb (jobArg j) w)
  | None => settle (jobDerived j) (jobFulfilled j) (jobArg j) w
  end.

(** The microtask queue is emptied after each turn. *)
Fixpoint drain (fuel : nat) (w : World) : World :=
  match fuel with
  | 0 => w
  | S fuel' =>
      match jobs w with
      | [] => w
      | j :: rest => drain fuel' (runJob j (withJobs rest w))
      end
  end.

Definition turn (fuel : nat) (w : World) (ev : Event) : World :=
  drain fuel (deliver ev w).

Definition turns (fuel : nat) (evs : list Event) (w : World) : World :=
  foldl (turn fuel) w evs.

(** ** Observations *)

Definition stateOf (p : nat) (w : World) : option PromiseState :=
  pstate <$> promises w !! p.

Definition statusOf (t : nat) (w : World) : option LoadState :=
  status <$> textureObjs w !! t.

Definition uniformOf (m : nat) (key : string) (w : World) : option Value :=
  (materials w !! m) ≫= (λ mat, uvalue <$> uniforms mat !! key).

(** No texture load is outstanding. *)
Definition allSettled (w : World) : bool :=
  forallb (λ tex, negb (bool_decide (status tex = Pending))) (textureObjs w).

(** None of the [n] textures from [first] on has its load outstanding. *)
Definition settledIn (first n : nat) (w : World) : bool :=
  forallb (λ t, negb (bool_decide (statusOf t w = Some Pending))) (seq first n).

(** [transparent] and [depthMask] of material [m]. *)
Definition renderState (m : nat) (w : World) : option (bool * bool) :=
  (λ mat, (transparent mat, depthMask mat)) <$> materials w !! m.

(** ** One material on a fresh application

    [createMaterial(config)] is the first call on a fresh application:
    the material is material 0; the [j]-th config entry that loads a
    texture gets texture [j], the promise [2 * j] of [loadTexture] and
    the promise [2 * j + 1] of its [then]. *)

(** The uniform object [material.uniforms[key]]. *)
Definition uniformCell (m : nat) (key : string) (w : World) : option Uniform :=
  materials w !! m ≫= (λ mat, uniforms mat !! key).

(** The test of [createMaterial]'s loop on a declared uniform. *)
Definition isTextureEntry (U : gmap string Uniform) (kv : string * Value) : bool :=
  match U !! kv.1 with
  | Some u => String.eqb (utype u) "t" || isImageLikeElement kv.2
  | None => false
  end.

Definition textureEntries (U : gmap string Uniform) (cfg : list (string * Value)) :
    list (string * Value) :=
  filter (λ kv, isTextureEntry U kv = true) cfg.

(** The shader name and the keys [createMaterial] iterates over. *)
Definition shaderOf (cfg : list (string * Value)) : Value :=
  if truthy (cfgGet "shader" cfg) then cfgGet "shader" cfg else VString "clay.standard".

Definition configKeys (cfg : list (string * Value)) : list (string * Value) :=
  cfgSet "shader" (shaderOf cfg) cfg.

Definition setterReaction (key : string) (j : nat) : Reaction :=
  {| onFulfilled := Some (TextureSetter 0 key); onRejected := None;
     derived := 2 * j + 1 |}.

Definition setterJob (jk : nat * string) : Job :=
  reactionJob true (VTexture jk.1) (setterReaction jk.2 jk.1).

(** The material while its textures load: [entries] are the config
    entries processed so far, [queued] the textures whose setter is in
    the microtask queue. *)
Record MatInv (U : gmap string Uniform) (entries : list (string * Value))
    (queued : list (nat * string)) (w : World) : Prop := {
  mt_jobs : jobs w = setterJob <$> queued;
  mt_nodup : NoDup queued.*1;
  mt_queued : ∀ j key, (j, key) ∈ queued →
      ∃ val, textureEntries U entries !! j = Some (key, val);
  mt_ntex : length (textureObjs w) = length (textureEntries U entries);
  mt_nprom : length (promises w) = 2 * length (textureEntries U entries);
  mt_texture : ∀ j key val, textureEntries U entries !! j = Some (key, val) →
      ∃ tex u, textureObjs w !! j = Some tex ∧ U !! key = Some u
        ∧ uniformCell 0 key w
          = Some {| utype := utype u;
                    uvalue := if decide (status tex = Ready ∧ j ∉ queued.*1)
                              then VTexture j else uvalue u |}
        ∧ (status tex = Pending →
             successListeners tex = [ResolveTexture (2 * j) j]
             ∧ errorListeners tex = [RejectPlain (2 * j)]
             ∧ promises w !! (2 * j)
               = Some {| pstate := PPending; reactions := [setterReaction key j] |})
        ∧ (j ∈ queued.*1 → status tex = Ready);
  mt_derived : ∀ j, j < length (textureEntries U entries) →
      ∃ pr, promises w !! (2 * j + 1) = Some pr ∧ reactions pr = [];
  mt_plain : ∀ key val u, (key, val) ∈ entries → U !! key = Some u →
      isTextureEntry U (key, val) = false →
      uniformCell 0 key w = Some {| utype := utype u; uvalue := val |};
  mt_rest : ∀ key, key ∉ entries.*1 → uniformCell 0 key w = U !! key;
  mt_loaders : loaders w = []
}.

(** Right after [createMaterial]: every ready texture still has its
    setter in the queue. *)
Definition readyQueued (queued : list (nat * string)) (w : World) : Prop :=
  ∀ j tex, textureObjs w !! j = Some tex → status tex = Ready → j ∈ queued.*1.

(** ** One model load on a fresh application

    [loadModel(url, opts)] is the first call on a fresh application: the
    returned promise is cell 0, the loader is loader 0 and its root node
    is node 0. *)

Definition modelWorld (lib : Value → gmap string Uniform) (url : string)
    (opts : option ModelOpts) : World :=
  match loadModel (VString url) opts (emptyWorld lib) with
  | Returned (_, w) => w
  | Thrown _ => emptyWorld lib
  end.

(** How the load of loader [l] ends, from the events: its first event. *)
Fixpoint loaderOutcome (l : nat) (evs : list Event) : LoadState :=
  match evs with
  | [] => Pending
  | ModelLoaded l' _ _ :: rest => if decide (l' = l) then Ready else loaderOutcome l rest
  | ModelFailed l' :: rest => if decide (l' = l) then Failed else loaderOutcome l rest
  | _ :: rest => loaderOutcome l rest
  end.

(** Microtask steps that are enough after each of the events. *)
Fixpoint fuelFor (evs : list Event) : nat :=
  match evs with
  | [] => 3
  | ModelLoaded _ _ made :: rest => max (length made + 3) (fuelFor rest)
  | _ :: rest => fuelFor rest
  end.

Definition isRejected (s : option PromiseState) : bool :=
  match s with
  | Some (PRejected _) => true
  | _ => false
  end.

(** Textures whose load is outstanding. *)
Definition pendingCount (w : World) : nat :=
  length (filter (λ tex, status tex = Pending) (textureObjs w)).

(** No loader is still loading. *)
Definition quietLoaders (w : World) : Prop :=
  ∀ l ld, loaders w !! l = Some ld → loaderStatus ld ≠ Pending.

(** The cells of the wait-for-textures join of a model with [N]
    textures: element promise [1 + i] for texture [i], the [Promise.all]
    promise [1 + N], the promise [2 + N + i] of its [then] on element
    [i], then the promises of [.then] and [.catch]. *)
Definition joinResult (cs : list nat) (N : nat) : GLTFResult :=
  {| rootNode := 0; clips := cs; textures := seq 0 N |}.

Definition elemReaction (N i : nat) : Reaction :=
  {| onFulfilled := Some (AllResolveElement (1 + N) i);
     onRejected := Some (RejectFn (1 + N));
     derived := 2 + N + i |}.

Definition elemJob (N i : nat) : Job := reactionJob true (VTexture i) (elemReaction N i).

Definition joinReaction (opts : ModelOpts) (cs : list nat) (N : nat) : Reaction :=
  {| onFulfilled := Some (AfterLoad opts 0 (joinResult cs N)); onRejected := None;
     derived := 2 + 2 * N |}.

Definition catchReaction (opts : ModelOpts) (cs : list nat) (N : nat) : Reaction :=
  {| onFulfilled := None; onRejected := Some (AfterLoad opts 0 (joinResult cs N));
     derived := 3 + 2 * N |}.

Definition afterLoadJob (opts : ModelOpts) (cs : list nat) (N : nat) (v : Value) : Job :=
  reactionJob true v (joinReaction opts cs N).

(** The join while it waits: [queued] are the elements whose microtask
    is in the queue, [stuck] the number of textures that were in error
    before the join began to listen. *)
Record JoinInv (opts : ModelOpts) (cs : list nat) (N stuck : nat) (queued : list nat)
    (w : World) : Prop := {
  ji_jobs : jobs w = elemJob N <$> queued;
  ji_queued : Forall (λ i, i < N) queued;
  ji_ntex : length (textureObjs w) = N;
  ji_tex : ∀ i tex, textureObjs w !! i = Some tex → status tex = Pending →
      successListeners tex = [ResolveFn (1 + i)]
      ∧ errorListeners tex = [ResolveFn (1 + i)]
      ∧ promises w !! (1 + i)
        = Some {| pstate := PPending; reactions := [elemReaction N i] |};
  ji_elem : ∀ i, i < N →
      ∃ pr, promises w !! (2 + N + i) = Some pr ∧ reactions pr = [];
  ji_all : promises w !! (1 + N)
           = Some {| pstate := PPending; reactions := [joinReaction opts cs N] |};
  ji_allst : ∃ vals, alls w !! (1 + N)
      = Some {| remaining := length queued + pendingCount w + stuck;
                total := N; values := vals |};
  ji_pos : 0 < length queued + pendingCount w + stuck;
  ji_d1 : promises w !! (2 + 2 * N)
          = Some {| pstate := PPending; reactions := [catchReaction opts cs N] |};
  ji_d2 : promises w !! (3 + 2 * N) = Some pendingPromise;
  ji_p : promises w !! 0 = Some pendingPromise;
  ji_scene : sceneNodes w = [];
  ji_loaders : quietLoaders w
}.

(** The join once [Promise.all] is fulfilled and [afterLoad] is queued. *)
Record FinishInv (opts : ModelOpts) (cs : list nat) (N : nat) (v : Value)
    (w : World) : Prop := {
  fi_jobs : jobs w = [afterLoadJob opts cs N v];
  fi_d1 : promises w !! (2 + 2 * N)
          = Some {| pstate := PPending; reactions := [catchReaction opts cs N] |};
  fi_d2 : promises w !! (3 + 2 * N) = Some pendingPromise;
  fi_p : promises w !! 0 = Some pendingPromise;
  fi_scene : sceneNodes w = [];
  fi_ntex : length (textureObjs w) = N;
  fi_settled : pendingCount w = 0;
  fi_loaders : quietLoaders w
}.

(** The model is in the scene and its promise fulfilled. *)
Record DoneInv (cs : list nat) (N : nat) (w : World) : Prop := {
  di_jobs : jobs w = [];
  di_scene : sceneNodes w = [0];
  di_ntex : length (textureObjs w) = N;
  di_settled : pendingCount w = 0;
  di_loaders : quietLoaders w;
  di_p : stateOf 0 w = Some (PFulfilled (VResult (joinResult cs N)))
}.

(** Between turns the join either waits or is done. *)
Definition WaitInv (opts : ModelOpts) (cs : list nat) (N stuck : nat) (w : World) : Prop :=
  JoinInv opts cs N stuck [] w ∨ (stuck = 0 ∧ DoneInv cs N w).

(** The world in which the listener of [loader.success] runs: the
    loader is settled and holds the textures it made. *)
Definition loadedWorld (lib : Value → gmap string Uniform) (url : string)
    (opts : option ModelOpts) (made : list LoadState) : World :=
  withTextures (madeTexture <$> made)
    (withLoaders
       [{| loaderRootNode := 0;
           loaderShaderName :=
             "clay." ++ match shader (default noModelOpts opts) with
                        | Some s => if String.eqb s "" then "standard"%string else s
                        | None => "standard"%string
                        end;
           loaderTextureRootPath := textureRootPath (default noModelOpts opts);
           loaderCrossOrigin := "Anonymous";
           loaderTextureFlipY := textureFlipY (default noModelOpts opts);
           loaderUrl := Some url;
           loaderStatus := Ready;
           loaderSuccess := [];
           loaderError := [RejectPlain 0] |}]
       (modelWorld lib url opts)).

(** Loop invariant of [result.textures.map(...)] after [k] textures. *)
Record MapInv (made : list LoadState) (k : nat) (w : World) : Prop := {
  mi_len : length (promises w) = 1 + k;
  mi_p : promises w !! 0 = Some pendingPromise;
  mi_ntex : length (textureObjs w) = length made;
  mi_tex : ∀ i (r : LoadState), made !! i = Some r →
      ∃ tex, textureObjs w !! i = Some tex
        ∧ status tex = r
        ∧ if decide (i < k)
          then if renderable r
               then promises w !! (1 + i)
                    = Some {| pstate := PFulfilled (VTexture i); reactions := [] |}
               else successListeners tex = [ResolveFn (1 + i)]
                    ∧ errorListeners tex = [ResolveFn (1 + i)]
                    ∧ promises w !! (1 + i) = Some pendingPromise
          else successListeners tex = [] ∧ errorListeners tex = [];
  mi_jobs : jobs w = [];
  mi_alls : alls w = ∅;
  mi_scene : sceneNodes w = [];
  mi_loaders : quietLoaders w
}.

(** Loop invariant of [Promise.all] after [k] elements. *)
Record AllInv (made : list LoadState) (k : nat) (w : World) : Prop := {
  ai_len : length (promises w) = 2 + length made + k;
  ai_p : promises w !! 0 = Some pendingPromise;
  ai_a : promises w !! (1 + length made) = Some pendingPromise;
  ai_alls : alls w !! (1 + length made)
            = Some {| remaining := length made; total := length made; values := ∅ |};
  ai_ntex : length (textureObjs w) = length made;
  ai_tex : ∀ i (r : LoadState), made !! i = Some r →
      ∃ tex, textureObjs w !! i = Some tex
        ∧ status tex = r
        ∧ if renderable r
          then promises w !! (1 + i)
               = Some {| pstate := PFulfilled (VTexture i); reactions := [] |}
          else successListeners tex = [ResolveFn (1 + i)]
               ∧ errorListeners tex = [ResolveFn (1 + i)]
               ∧ promises w !! (1 + i)
                 = Some {| pstate := PPending;
                           reactions := if decide (i < k)
                                        then [elemReaction (length made) i] else [] |};
  ai_elem : ∀ i, i < k → promises w !! (2 + length made + i) = Some pendingPromise;
  ai_jobs : ∃ queued, jobs w = elemJob (length made) <$> queued
      ∧ Forall (λ i, i < k) queued
      ∧ length queued + length (filter (λ r, renderable r = false) (take k made)) = k;
  ai_scene : sceneNodes w = [];
  ai_loaders : quietLoaders w
}.

(** After the loader's success event under the immediate policy. *)
Record ImmediateInv (cs : list nat) (N : nat) (w : World) : Prop := {
  ii_jobs : jobs w = [];
  ii_scene : sceneNodes w = [0];
  ii_listeners : ∀ i tex, textureObjs w !! i = Some tex →
      successListeners tex = [] ∧ errorListeners tex = [];
  ii_loaders : quietLoaders w;
  ii_p : stateOf 0 w = Some (PFulfilled (VResult (joinResult cs N)))
}.

(** After the loader's error event. *)
Record FailedInv (w : World) : Prop := {
  xi_jobs : jobs w = [];
  xi_scene : sceneNodes w = [];
  xi_textures : textureObjs w = [];
  xi_loaders : quietLoaders w;
  xi_p : stateOf 0 w = Some (PRejected VUndefined)
}.

End Loader.

(** * Further observations *)

Module Sweeps.
Import Tracker.

(** The entries of the snapshot [old] that the references [refs] of the
    new frame leave out, in snapshot order. *)
Definition dropped (old refs : list nat) : list nat :=
  filter (λ r, r ∉ refs) old.

(** What the sweep of a frame showing [next] owes to the frame before it,
    which showed [prev]: textures first, then geometries. *)
Definition droppedResources (prev next : Scene) : list ResourceRef :=
  (Tex <$> dropped (sceneTextures prev) (sceneTextures next))
  ++ (Geo <$> dropped (sceneGeometries prev) (sceneGeometries next)).

(** What a resource object still carries of the [__used__] value [u] it
    had when the constructor ran: all of it, until a scene of [earlier]
    references the resource, for the frame after that one resets it. *)
Definition carried (refs : Scene → list nat) (earlier : list Scene)
    (u : gmap nat nat) (r : nat) : nat :=
  if decide (Exists (λ s, r ∈ refs s) earlier) then 0 else usedOr0 u r.

(** A scene with two meshes on geometries 1 and 2, the first textured. *)
Definition twoMeshScene : Scene :=
  {| opaqueList :=
       [ {| geometry := 1;
            material := {| uniforms :=
              [("diffuseMap"%string, {| utype := "t"; value := UTexture 5 |})] |} |};
         {| geometry := 2; material := plainMaterial |} ];
     transparentList := []; lights := [] |}.

End Sweeps.

Module Traces.
Import Loader.

(** How the load of texture [t] ends, from the events: its first event. *)
Fixpoint textureOutcome (t : nat) (evs : list Event) : LoadState :=
  match evs with
  | [] => Pending
  | TextureLoaded t' :: rest => if decide (t' = t) then Ready else textureOutcome t rest
  | TextureFailed t' :: rest => if decide (t' = t) then Failed else textureOutcome t rest
  | _ :: rest => textureOutcome t rest
  end.

(** The load states of the textures, by name. *)
Definition statuses (w : World) : list LoadState := status <$> textureObjs w.

(** The state a texture is in after the events [evs], from the state
    [s] it was in before them. *)
Definition statusAfter (t : nat) (evs : list Event) (s : LoadState) : LoadState :=
  match s with
  | Pending => textureOutcome t evs
  | _ => s
  end.

(** Every texture the loader handed over was renderable then, or was
    still loading then and has had its success or error event since. *)
Definition settledBy (made : list LoadState) (evs : list Event) : bool :=
  forallb (λ i, match made !! i with
                | Some Ready => true
                | Some Pending => negb (bool_decide (textureOutcome i evs = Pending))
                | _ => false
                end)
          (seq 0 (length made)).

(** ** Closures that insert a model

    After the loader of a model with clips [cs], loaded under the options
    [opts], has reported success, the only closures left that touch the
    scene or the timeline are the [afterLoad] closures of that call. *)
Definition plays (opts : ModelOpts) (cs : list nat) (cb : Callback) : Prop :=
  match cb with
  | AfterLoad o _ r => o = opts ∧ clips r = cs
  | LoaderSuccess _ _ => False
  | _ => True
  end.

Definition playsOpt (opts : ModelOpts) (cs : list nat) (cb : option Callback) : Prop :=
  from_option (plays opts cs) True cb.

(** The clips [afterLoad] has handed to the timeline once it has put
    [nodes] in the scene. *)
Definition clipsFor (opts : ModelOpts) (cs : list nat) (nodes : list nat) : list nat :=
  nodes ≫= (λ _, if autoPlayAnimation opts then cs else []).

Record Playing (opts : ModelOpts) (cs : list nat) (w : World) : Prop := {
  pl_jobs : Forall (λ j, playsOpt opts cs (jobHandler j)) (jobs w);
  pl_promises :
    Forall (λ pr, Forall (λ r, playsOpt opts cs (onFulfilled r)
                               ∧ playsOpt opts cs (onRejected r)) (reactions pr))
           (promises w);
  pl_textures :
    Forall (λ tex, Forall (plays opts cs) (successListeners tex)
                   ∧ Forall (plays opts cs) (errorListeners tex)) (textureObjs w);
  pl_loaders :
    Forall (λ ld, Forall (plays opts cs) (loaderSuccess ld)
                  ∧ Forall (plays opts cs) (loaderError ld)) (loaders w);
  pl_clips : timelineClips w = clipsFor opts cs (sceneNodes w)
}.

(** ** One texture on a fresh application *)

(** What the promise of [loadTexture] is settled with once the load of
    its texture [t] has ended as [s]. *)
Definition texturePromise (t : nat) (s : LoadState) : PromiseState :=
  match s with
  | Pending => PPending
  | Ready => PFulfilled (VTexture t)
  | Failed => PRejected VUndefined
  end.

(** The world [loadTexture] leaves on a fresh application for a URL,
    once the load has ended as [s]: the listeners of the transition that
    was taken are gone. *)
Definition textureWorld (lib : Value → gmap string Uniform) (opts : Value)
    (s : LoadState) : World :=
  mkWorld [{| pstate := texturePromise 0 s; reactions := [] |}] ∅ []
    [{| status := s; image := None; dynamic := false; texOpts := opts;
        successListeners := match s with Ready => [] | _ => [ResolveTexture 0 0] end;
        errorListeners := match s with Failed => [] | _ => [RejectPlain 0] end |}]
    [] [] [] [] 0 lib.

(** ** Materials *)

(** The uniform names of every material, each with its type. *)
Definition shapes (w : World) : list (gmap string string) :=
  (λ mat, utype <$> uniforms mat) <$> materials w.

(** The load state [loadTextureSync] leaves a texture in. *)
Definition sourceStatus (src : Value) : LoadState :=
  if typeofString src then Pending else Ready.

End Traces.

(** * The rest of the application: container, meshes and cameras *)

Module Shell.
Import Loader.

(** ** The container and the constructor's options *)

(** What the constructor and [resize] read of the container element:
    [dom.nodeName], [dom.clientWidth], [dom.clientHeight] and
    [dom.height], which a canvas has and a div has not. *)
Record Dom := {
  nodeName : string;
  clientWidth : Value;
  clientHeight : Value;
  domHeight : Value
}.

(** The [appNS] object: its sizes, and which callbacks it has. *)
Record AppNS := {
  nsWidth : Value;
  nsHeight : Value;
  nsDevicePixelRatio : Value;
  nsInit : bool;
  nsLoop : bool;
  nsDispose : bool
}.

(** [appNS = appNS || {}] *)
Definition noAppNS : AppNS :=
  {| nsWidth := VUndefined; nsHeight := VUndefined; nsDevicePixelRatio := VUndefined;
     nsInit := false; nsLoop := false; nsDispose := false |}.

(** The [dom] argument: a selector string, an element, or a falsy value. *)
Inductive DomArg :=
  | BySelector (selector : string)
  | ByElement (dom : Dom)
  | NoElement.

(** [a || b] *)
Definition orElse (a b : Value) : Value := if truthy a then a else b.

Definition upperAscii (c : Ascii.ascii) : Ascii.ascii :=
  let n := Ascii.nat_of_ascii c in
  if (97 <=? n)%nat && (n <=? 122)%nat then Ascii.ascii_of_nat (n - 32) else c.

(** [s.toUpperCase()] on the ASCII names elements have. *)
Fixpoint toUpperCase (s : string) : string :=
  match s with
  | EmptyString => EmptyString
  | String c rest => String (upperAscii c) (toUpperCase rest)
  end.

Record RendererOpts := {
  optCanvas : option Dom;
  optDevicePixelRatio : option Value
}.

(** The closure state of the constructor that [resize] shares, with the
    calls made on the renderer and on the container. *)
Record Application := {
  container : Dom;
  appNS : AppNS;
  rendererOpts : RendererOpts;
  canvasAppended : bool;                 (* dom.appendChild(gRenderer.canvas) *)
  gWidth : Value;
  gHeight : Value;
  resizeCalls : list (Value * Value);    (* arguments of gRenderer.resize *)
  timelineStarted : bool;                (* gTimeline.start() *)
  initCalled : bool;                     (* appNS.init(this) *)
  tracker : Tracker.App
}.

(** The constructor.  [document] is [document.querySelector] on the
    selectors it accepts: the element, or [null]; [loads], [tu] and [gu]
    are the load states and [__used__] properties of the resource
    objects, as for the tracker. *)
Definition construct (document : string → option Dom) (dom : DomArg)
    (ns : option AppNS) (loads : gmap nat LoadState) (tu gu : gmap nat nat) :
    Outcome Application :=
  let ns := default noAppNS ns in
  let dom := match dom with
             | BySelector s => document s
             | ByElement d => Some d
             | NoElement => None
             end in
  match dom with
  | None => Thrown "Invalid dom"
  | Some dom =>
      let isDomCanvas := String.eqb (toUpperCase (nodeName dom)) "CANVAS" in
      let opts := {| optCanvas := if isDomCanvas then Some dom else None;
                     optDevicePixelRatio :=
                       if truthy (nsDevicePixelRatio ns)
                       then Some (nsDevicePixelRatio ns) else None |} in
      let width := orElse (nsWidth ns) (clientWidth dom) in
      let height := orElse (nsHeight ns) (clientHeight dom) in
      Returned {| container := dom; appNS := ns; rendererOpts := opts;
                  canvasAppended := negb isDomCanvas;
                  gWidth := width; gHeight := height;
                  resizeCalls := [(width, height)];
                  timelineStarted := true;
                  initCalled := nsInit ns;
                  tracker := Tracker.App3D {| Tracker.loop := nsLoop ns |} loads tu gu |}
  end.

(** [clay.application.create] *)
Definition create := construct.

(** [app.resize(width, height)], with the container as it is now. *)
Definition resize (width height : Value) (now : Dom) (app : Application) : Application :=
  let w := orElse (orElse width (nsWidth (appNS app))) (clientWidth now) in
  let h := orElse (orElse height (domHeight now)) (clientHeight now) in
  {| container := now; appNS := appNS app; rendererOpts := rendererOpts app;
     canvasAppended := canvasAppended app;
     gWidth := w; gHeight := h;
     resizeCalls := resizeCalls app ++ [(w, h)];
     timelineStarted := timelineStarted app;
     initCalled := initCalled app;
     tracker := tracker app |}.

(** ** Procedural meshes *)

(** [v[i]] on the values a size can be once [null], [undefined] and
    numbers are out of the way: an element of an array, a character of a
    string, and [undefined] on anything else. *)
Definition index (v : Value) (i : nat) : Value :=
  match v with
  | VArray vs => default VUndefined (vs !! i)
  | VString s =>
      match String.get i s with
      | Some c => VString (String c EmptyString)
      | None => VUndefined
      end
  | _ => VUndefined
  end.

(** The options the geometry constructors are called with. *)
Inductive Geometry :=
  | CubeGeo (width height depth : Value)
  | SphereGeo (radius : Value)
  | PlaneGeo (width height : Value).

(** [if (size == null) { size = 1; }] *)
Definition orOne (size : Value) : Value :=
  match size with
  | VUndefined | VNull => VNumber 1
  | _ => size
  end.

(** The function given to [makeProceduralMeshCreator] for [createCube]. *)
Definition cubeGeo (size : Value) : Geometry :=
  let size := orOne size in
  let size := match size with
              | VNumber _ => VArray [size; size; size]
              | _ => size
              end in
  CubeGeo (index size 0) (index size 1) (index size 2).

(** The one for [createSphere]. *)
Definition sphereGeo (radius : Value) : Geometry := SphereGeo (orOne radius).

(** The one for [createPlane]. *)
Definition planeGeo (size : Value) : Geometry :=
  let size := orOne size in
  let size := match size with
              | VNumber _ => VArray [size; size]
              | _ => size
              end in
  PlaneGeo (index size 0) (index size 1).

Record Mesh := { meshGeometry : Geometry; meshMaterial : nat }.

(** ** Cameras *)

Inductive CameraKind := Perspective | Orthographic.

(** The [position] and [target] arguments: a [Vector3], or another value. *)
Inductive Place :=
  | IsVector3 (x y z : Value)
  | IsValue (v : Value).

(** The calls [createCamera] makes on the camera it built. *)
Inductive CameraCall :=
  | PositionCopy (x y z : Value)         (* camera.position.copy(position) *)
  | PositionSetArray (vs : list Value)   (* camera.position.setArray(position) *)
  | LookAt (x y z : Value).              (* camera.lookAt(target) *)

Record Camera := { kind : CameraKind; cameraCalls : list CameraCall }.

(** ** The application with its meshes and cameras

    Meshes and cameras are nodes: they are named from the same counter
    as the root nodes of [loadModel], and [scene.add] lists them in
    [sceneNodes].  [errors] holds the type each [console.error] of
    [createCamera] complained about. *)
Record Stage := {
  world : World;
  meshes : gmap nat Mesh;
  cameras : gmap nat Camera;
  errors : list Value
}.

Definition emptyStage (lib : Value → gmap string Uniform) : Stage :=
  {| world := emptyWorld lib; meshes := ∅; cameras := ∅; errors := [] |}.

(** The [mat] argument: [mat instanceof Material], or what
    [createMaterial] accepts. *)
Inductive MaterialArg :=
  | IsMaterial (m : nat)
  | IsConfig (matConfig : option (list (string * Value))).

(** [this.scene.add(node)] on a node made now. *)
Definition addNode (w : World) : nat * World :=
  (nodeCount w,
   withSceneNodes (sceneNodes w ++ [nodeCount w]) (withNodeCount (S (nodeCount w)) w)).

(** [makeProceduralMeshCreator(createGeo)]: the mesh, the config object
    as the call leaves it (if one was given), and the stage. *)
Definition makeProceduralMeshCreator (createGeo : Value → Geometry)
    (size : Value) (mat : MaterialArg) (st : Stage) :
    nat * option (list (string * Value)) * Stage :=
  let geo := createGeo size in
  let '(material, cfg, w1) :=
    match mat with
    | IsMaterial m => (m, None, world st)
    | IsConfig matConfig =>
        let '(m, cfg, w) := createMaterial matConfig (world st) in (m, Some cfg, w)
    end in
  let (mesh, w2) := addNode w1 in
  (mesh, cfg,
   {| world := w2;
      meshes := <[mesh := {| meshGeometry := geo; meshMaterial := material |}]> (meshes st);
      cameras := cameras st; errors := errors st |}).

Definition createCube := makeProceduralMeshCreator cubeGeo.
Definition createSphere := makeProceduralMeshCreator sphereGeo.
Definition createPlane := makeProceduralMeshCreator planeGeo.

(** [v === s] for a string literal [s]. *)
Definition isString (s : string) (v : Value) : bool :=
  match v with
  | VString s' => String.eqb s' s
  | _ => false
  end.

(** [App3D.prototype.createCamera], on the types a [Value] can be: each
    has a string form, so the message of [console.error] can be built. *)
Definition createCamera (position target : Place) (type : Value) (st : Stage) :
    nat * Stage :=
  let ortho := isString "ortho" type || isString "orthographic" type in
  let complain := negb ortho && truthy type && negb (isString "perspective" type) in
  let positioned :=
    match position with
    | IsVector3 x y z => [PositionCopy x y z]
    | IsValue (VArray vs) => [PositionSetArray vs]
    | IsValue _ => []
    end in
  let target :=
    match target with
    | IsValue (VArray vs) =>
        IsVector3 (default VUndefined (vs !! 0)) (default VUndefined (vs !! 1))
                  (default VUndefined (vs !! 2))
    | _ => target
    end in
  let looked :=
    match target with
    | IsVector3 x y z => [LookAt x y z]
    | IsValue _ => []
    end in
  let (camera, w) := addNode (world st) in
  (camera,
   {| world := w; meshes := meshes st;
      cameras := <[camera := {| kind := if ortho then Orthographic else Perspective;
                                cameraCalls := positioned ++ looked |}]> (cameras st);
      errors := if complain then errors st ++ [type] else errors st |}).

(** ** Sequences of creation calls *)

Inductive Create :=
  | MakeCube (size : Value) (mat : MaterialArg)
  | MakeSphere (radius : Value) (mat : MaterialArg)
  | MakePlane (size : Value) (mat : MaterialArg)
  | MakeCamera (position target : Place) (type : Value).

Definition create1 (st : Stage) (c : Create) : Stage :=
  match c with
  | MakeCube size mat => (createCube size mat st).2
  | MakeSphere radius mat => (createSphere radius mat st).2
  | MakePlane size mat => (createPlane size mat st).2
  | MakeCamera position target type => (createCamera position target type st).2
  end.

Definition creates (cs : list Create) (st : Stage) : Stage := foldl create1 st cs.

(** What node [k] of the stage is: a mesh, a camera, or neither. *)
Inductive NodeKind :=
  | MeshNode (geo : Geometry)
  | CameraNode (kind : CameraKind)
  | NoNode.

Definition nodeKind (k : nat) (st : Stage) : NodeKind :=
  match meshes st !! k, cameras st !! k with
  | Some mesh, None => MeshNode (meshGeometry mesh)
  | None, Some camera => CameraNode (kind camera)
  | _, _ => NoNode
  end.

(** The node a creation call is to make. *)
Definition made (c : Create) : NodeKind :=
  match c with
  | MakeCube size _ => MeshNode (cubeGeo size)
  | MakeSphere radius _ => MeshNode (sphereGeo radius)
  | MakePlane size _ => MeshNode (planeGeo size)
  | MakeCamera _ _ type =>
      CameraNode (if isString "ortho" type || isString "orthographic" type
                  then Orthographic else Perspective)
  end.

(** A container used as concrete input below: a div of 800 by 600. *)
Definition aDiv : Dom :=
  {| nodeName := "DIV"; clientWidth := VNumber 800; clientHeight := VNumber 600;
     domHeight := VUndefined |}.

End Shell.

(** * Properties of the tracker *)

Section occurrences_facts.

Lemma occurrences_app r l1 l2 :
  occurrences r (l1 ++ l2) = occurrences r l1 + occurrences r l2.
Proof. induction l1 as [|x l1 IH]; simpl; [done | rewrite IH; lia]. Qed.

Lemma occurrences_zero r l : occurrences r l = 0 ↔ r ∉ l.
Proof.
  induction l as [|x l IH]; simpl.
  - split; [intros _; apply not_elem_of_nil | done].
  - rewrite not_elem_of_cons. destruct (decide (x = r)) as [->|Hne]; simpl.
    + split; [lia | intros [? _]; done].
    + rewrite IH. split; [intros ?; split; [congruence | done] | intros [_ ?]; done].
Qed.

Lemma occurrences_pos r l : 0 < occurrences r l ↔ r ∈ l.
Proof.
  destruct (decide (r ∈ l)) as [Hin|Hout].
  - split; [done | intros _].
    destruct (occurrences r l) eqn:E; [|lia].
    apply occurrences_zero in E. done.
  - apply occurrences_zero in Hout as E. rewrite E. split; [lia | done].
Qed.

End occurrences_facts.

Module TrackerFacts.
Import Tracker.

(** *** Counters *)

Lemma usedOr0_insert u r n r' :
  usedOr0 (<[r := n]> u) r' = if decide (r = r') then n else usedOr0 u r'.
Proof.
  unfold usedOr0. rewrite lookup_insert. by destruct (decide (r = r')).
Qed.

Lemma usedOr0_markUsed l u r :
  usedOr0 (markUsed l u) r = if decide (r ∈ l) then 0 else usedOr0 u r.
Proof.
  revert u. induction l as [|x l IH]; intros u; simpl.
  - destruct (decide (r ∈ [])) as [H|_]; [by apply not_elem_of_nil in H | done].
  - rewrite IH, usedOr0_insert.
    destruct (decide (r ∈ l)) as [Hin|Hout].
    + rewrite decide_True; [done | by apply elem_of_cons; right].
    + destruct (decide (x = r)) as [->|Hne].
      * rewrite decide_True; [done | by apply elem_of_cons; left].
      * rewrite decide_False; [done |].
        rewrite elem_of_cons. intros [->|?]; done.
Qed.

Lemma bump_app l1 l2 u : bump (l1 ++ l2) u = bump l2 (bump l1 u).
Proof. unfold bump. apply foldl_app. Qed.

Lemma usedOr0_bump l u r :
  usedOr0 (bump l u) r = usedOr0 u r + occurrences r l.
Proof.
  revert u. induction l as [|x l IH]; intros u; simpl; [lia |].
  change (bump (x :: l) u) with (bump l (<[x := S (usedOr0 u x)]> u)).
  rewrite IH, usedOr0_insert.
  destruct (decide (x = r)) as [->|Hne]; lia.
Qed.

(** *** The sweep *)

Lemma occurrences_checkAndDispose u l r :
  occurrences r (checkAndDispose u l)
  = if decide (usedOr0 u r = 0) then occurrences r l else 0.
Proof.
  induction l as [|x l IH]; simpl; [by destruct (decide _) |].
  destruct (decide (usedOr0 u x = 0)) as [Hx|Hx]; simpl; rewrite IH;
    destruct (decide (x = r)) as [->|Hne];
    destruct (decide (usedOr0 u r = 0)); simpl; lia.
Qed.

Lemma disposeCalls_app R l1 l2 :
  disposeCalls R (l1 ++ l2) = disposeCalls R l1 + disposeCalls R l2.
Proof. induction l1 as [|x l1 IH]; simpl; [done | rewrite IH; lia]. Qed.

Lemma disposeCalls_Tex_Tex t l : disposeCalls (Tex t) (Tex <$> l) = occurrences t l.
Proof.
  induction l as [|x l IH]; csimpl; [done |]. rewrite IH.
  destruct (decide (x = t)) as [->|Hne].
  - by rewrite decide_True.
  - rewrite decide_False; [done | congruence].
Qed.

Lemma disposeCalls_Geo_Geo g l : disposeCalls (Geo g) (Geo <$> l) = occurrences g l.
Proof.
  induction l as [|x l IH]; csimpl; [done |]. rewrite IH.
  destruct (decide (x = g)) as [->|Hne].
  - by rewrite decide_True.
  - rewrite decide_False; [done | congruence].
Qed.

Lemma disposeCalls_Tex_Geo t l : disposeCalls (Tex t) (Geo <$> l) = 0.
Proof. induction l as [|x l IH]; csimpl; [done |]. by rewrite IH. Qed.

Lemma disposeCalls_Geo_Tex g l : disposeCalls (Geo g) (Tex <$> l) = 0.
Proof. induction l as [|x l IH]; csimpl; [done |]. by rewrite IH. Qed.

(** *** The traversal appends its encounters *)

Lemma extends_refl c : extends c [] [] c.
Proof. unfold extends. by rewrite !app_nil_r. Qed.

Lemma extends_trans c1 c2 c3 t1 g1 t2 g2 :
  extends c1 t1 g1 c2 → extends c2 t2 g2 c3 →
  extends c1 (t1 ++ t2) (g1 ++ g2) c3.
Proof.
  intros (A1 & A2 & A3 & A4) (B1 & B2 & B3 & B4). unfold extends.
  rewrite B1, B2, B3, B4, A1, A2, A3, A4, !bump_app, !app_assoc. done.
Qed.

Lemma extends_useTexture t c : extends c [t] [] (useTexture t c).
Proof. unfold extends; simpl. by rewrite app_nil_r. Qed.

Lemma extends_useGeometry g c : extends c [] [g] (useGeometry g c).
Proof. unfold extends; simpl. by rewrite app_nil_r. Qed.

Lemma extends_trackArray elems c :
  extends c (arrayTextures elems) [] (trackArray elems c).
Proof.
  revert c. induction elems as [|[t|] elems IH]; intros c; simpl.
  - apply extends_refl.
  - apply (extends_trans _ _ _ [t] [] _ [] (extends_useTexture t c) (IH _)).
  - apply IH.
Qed.

Lemma extends_trackValue v c : extends c (valueTextures v) [] (trackValue v c).
Proof.
  destruct v; simpl.
  - apply extends_useTexture.
  - apply extends_trackArray.
  - apply extends_refl.
Qed.

Lemma extends_trackUniforms us c :
  extends c (concat (map (λ nu, valueTextures (value nu.2)) us)) []
    (trackUniforms us c).
Proof.
  revert c. induction us as [|[name u] us IH]; intros c; simpl.
  - apply extends_refl.
  - apply (extends_trans _ _ _ _ [] _ [] (extends_trackValue (value u) c) (IH _)).
Qed.

Lemma extends_trackQueue q c :
  extends c (queueTextures q) (geometry <$> q) (trackQueue q c).
Proof.
  revert c. induction q as [|r q IH]; intros c; simpl.
  - apply extends_refl.
  - pose proof (extends_trans _ _ _ _ _ _ _
                  (extends_useGeometry (geometry r) c)
                  (extends_trackUniforms (uniforms (material r)) _)) as H1.
    pose proof (extends_trans _ _ _ _ _ _ _ H1 (IH _)) as H2.
    rewrite app_nil_r in H2. exact H2.
Qed.

Lemma extends_trackLights ls c :
  extends c (lightTextures ls) [] (trackLights ls c).
Proof.
  revert c. induction ls as [|l ls IH]; intros c; simpl.
  - apply extends_refl.
  - unfold lightTextures; simpl. fold (lightTextures ls).
    destruct (cubemap l) as [t|].
    + apply (extends_trans _ _ _ [t] [] _ [] (extends_useTexture t c) (IH _)).
    + apply IH.
Qed.

Lemma extends_collectResources s c :
  extends c (sceneTextures s) (sceneGeometries s) (_collectResources s c).
Proof.
  unfold _collectResources, sceneTextures, sceneGeometries.
  pose proof (extends_trans _ _ _ _ _ _ _
                (extends_trackQueue (opaqueList s) c)
                (extends_trackQueue (transparentList s) _)) as H1.
  pose proof (extends_trans _ _ _ _ _ _ _ H1
                (extends_trackLights (lights s) _)) as H2.
  rewrite app_nil_r, <- app_assoc in H2. exact H2.
Qed.

(** *** One frame *)

Lemma frameHandler_textures s st :
  gTexturesList (frameHandler s st) = sceneTextures s.
Proof.
  unfold frameHandler; simpl.
  by destruct (extends_collectResources s
    {| textureResourceList := []; geometryResourceList := [];
       texUsed := markUsed (gTexturesList st) (texUsedOf st);
       geoUsed := markUsed (gGeometriesList st) (geoUsedOf st) |}) as (-> & _).
Qed.

Lemma frameHandler_geometries s st :
  gGeometriesList (frameHandler s st) = sceneGeometries s.
Proof.
  unfold frameHandler; simpl.
  by destruct (extends_collectResources s
    {| textureResourceList := []; geometryResourceList := [];
       texUsed := markUsed (gTexturesList st) (texUsedOf st);
       geoUsed := markUsed (gGeometriesList st) (geoUsedOf st) |}) as (_ & -> & _).
Qed.

Lemma frameHandler_texUsedOf s st :
  texUsedOf (frameHandler s st)
  = bump (sceneTextures s) (markUsed (gTexturesList st) (texUsedOf st)).
Proof.
  unfold frameHandler; simpl.
  by destruct (extends_collectResources s
    {| textureResourceList := []; geometryResourceList := [];
       texUsed := markUsed (gTexturesList st) (texUsedOf st);
       geoUsed := markUsed (gGeometriesList st) (geoUsedOf st) |}) as (_ & _ & -> & _).
Qed.

Lemma frameHandler_geoUsedOf s st :
  geoUsedOf (frameHandler s st)
  = bump (sceneGeometries s) (markUsed (gGeometriesList st) (geoUsedOf st)).
Proof.
  unfold frameHandler; simpl.
  by destruct (extends_collectResources s
    {| textureResourceList := []; geometryResourceList := [];
       texUsed := markUsed (gTexturesList st) (texUsedOf st);
       geoUsed := markUsed (gGeometriesList st) (geoUsedOf st) |}) as (_ & _ & _ & ->).
Qed.

Lemma frameHandler_disposeLog s st :
  disposeLog (frameHandler s st) = disposeLog st ++ [sweepOf s st].
Proof. reflexivity. Qed.

(** What a sweep does to [R], whatever the state before the frame: nothing
    if [R] is referenced by the scene, and one call per entry of the old
    snapshot if its counter is 0 after the traversal. *)
Lemma sweepOf_referenced R s st :
  reachable R s → disposeCalls R (sweepOf s st) = 0.
Proof.
  unfold reachable, sweepOf. intros Hr.
  rewrite disposeCalls_app, frameHandler_texUsedOf, frameHandler_geoUsedOf.
  destruct R as [t|g]; simpl in Hr.
  - rewrite disposeCalls_Tex_Tex, disposeCalls_Tex_Geo, occurrences_checkAndDispose.
    rewrite usedOr0_bump. rewrite decide_False; lia.
  - rewrite disposeCalls_Geo_Tex, disposeCalls_Geo_Geo, occurrences_checkAndDispose.
    rewrite usedOr0_bump. rewrite decide_False; lia.
Qed.

Lemma usedOr0_after_mark l u r :
  (∀ r, usedOr0 u r = occurrences r l) → usedOr0 (markUsed l u) r = 0.
Proof.
  intros H. rewrite usedOr0_markUsed. destruct (decide (r ∈ l)) as [|Hout]; [done |].
  rewrite H. by apply occurrences_zero.
Qed.

Lemma countersMatch_frameHandler s st :
  countersMatch st → countersMatch (frameHandler s st).
Proof.
  intros [Ht Hg]. split; intros r.
  - rewrite frameHandler_texUsedOf, frameHandler_textures, usedOr0_bump.
    by rewrite usedOr0_after_mark.
  - rewrite frameHandler_geoUsedOf, frameHandler_geometries, usedOr0_bump.
    by rewrite usedOr0_after_mark.
Qed.

Lemma snapshotCount_frameHandler R s st :
  snapshotCount R (frameHandler s st) = refCount R s.
Proof.
  destruct R; unfold snapshotCount, refCount;
    by rewrite ?frameHandler_textures, ?frameHandler_geometries.
Qed.

Lemma sweepOf_calls R s st :
  disposeCalls R (sweepOf s st)
  = if decide (refCount R s = 0) then snapshotCount R st else 0.
Proof.
  unfold sweepOf.
  rewrite disposeCalls_app, frameHandler_texUsedOf, frameHandler_geoUsedOf.
  destruct R as [t|g]; simpl.
  - rewrite disposeCalls_Tex_Tex, disposeCalls_Tex_Geo, occurrences_checkAndDispose.
    rewrite usedOr0_bump, usedOr0_markUsed.
    destruct (decide (t ∈ gTexturesList st)) as [Hin|Hout].
    + simpl. destruct (decide (occurrences t (sceneTextures s) = 0)); lia.
    + apply occurrences_zero in Hout. rewrite Hout.
      destruct (decide _); destruct (decide _); lia.
  - rewrite disposeCalls_Geo_Tex, disposeCalls_Geo_Geo, occurrences_checkAndDispose.
    rewrite usedOr0_bump, usedOr0_markUsed.
    destruct (decide (g ∈ gGeometriesList st)) as [Hin|Hout].
    + simpl. destruct (decide (occurrences g (sceneGeometries s) = 0)); lia.
    + apply occurrences_zero in Hout. rewrite Hout.
      destruct (decide _); destruct (decide _); lia.
Qed.

(** *** Sequences of frames *)

Lemma ticks_snoc scenes s app : ticks (scenes ++ [s]) app = tick s (ticks scenes app).
Proof. unfold ticks. by rewrite foldl_app. Qed.

Lemma ticks_listeners scenes app :
  frameListeners (ticks scenes app) = frameListeners app.
Proof.
  induction scenes as [|s scenes IH] using rev_ind; [done |].
  by rewrite ticks_snoc.
Qed.

Lemma tick_with_handler s app :
  frameListeners app = [TrackerHandler] →
  appState (tick s app) = frameHandler s (appState app).
Proof. intros H. unfold tick; simpl. by rewrite H. Qed.

(** The whole log of an application built with a loop callback. *)
Lemma ticks_log loads tu gu scenes R :
  let st := appState (ticks scenes (App3D {| loop := true |} loads tu gu)) in
  snapshotCount R st = refsBefore R scenes (length scenes)
  ∧ length (disposeLog st) = length scenes
  ∧ ∀ i s sweep, scenes !! i = Some s → disposeLog st !! i = Some sweep →
      disposeCalls R sweep
      = if decide (refCount R s = 0) then refsBefore R scenes i else 0.
Proof.
  induction scenes as [|s scenes IH] using rev_ind; simpl.
  - repeat split; try done. by destruct R.
  - destruct IH as (Hsnap & Hlen & Hlog).
    rewrite ticks_snoc, tick_with_handler by (by rewrite ticks_listeners).
    set (st := appState (ticks scenes (App3D {| loop := true |} loads tu gu))) in *.
    split.
    { rewrite snapshotCount_frameHandler, length_app; simpl.
      replace (length scenes + 1) with (S (length scenes)) by lia. simpl.
      by rewrite lookup_app_r, Nat.sub_diag by lia. }
    split; [rewrite frameHandler_disposeLog, !length_app; simpl; lia |].
    intros i s' sweep Hi Hsw. rewrite frameHandler_disposeLog in Hsw.
    destruct (decide (i < length scenes)) as [Hlt|Hge].
    + rewrite lookup_app_l in Hi by done.
      rewrite lookup_app_l in Hsw by lia.
      rewrite (Hlog i s' sweep Hi Hsw).
      destruct i as [|j]; [done |]. simpl.
      by rewrite lookup_app_l by lia.
    + apply lookup_lt_Some in Hi as Hi'. rewrite length_app in Hi'; simpl in Hi'.
      assert (i = length scenes) as -> by lia.
      rewrite lookup_app_r, Nat.sub_diag in Hi by lia. simpl in Hi.
      rewrite lookup_app_r in Hsw by lia.
      rewrite Hlen, Nat.sub_diag in Hsw. simpl in Hsw.
      injection Hi as <-. injection Hsw as <-.
      rewrite sweepOf_calls. rewrite Hsnap.
      destruct (length scenes) as [|j] eqn:E; [done |]. simpl.
      by rewrite lookup_app_l by lia.
Qed.

(** *** Reachability by route *)

Lemma elem_of_concat_map {A} (f : A → list nat) (l : list A) (x : nat) :
  x ∈ concat (map f l) ↔ ∃ y, y ∈ l ∧ x ∈ f y.
Proof.
  induction l as [|a l IH]; simpl.
  - split; [intros H; by apply not_elem_of_nil in H | intros (y & H & _); by apply not_elem_of_nil in H].
  - rewrite elem_of_app, IH. split.
    + intros [H | (y & Hy & Hx)].
      * exists a. split; [by apply elem_of_cons; left | done].
      * exists y. split; [by apply elem_of_cons; right | done].
    + intros (y & Hy & Hx). apply elem_of_cons in Hy as [-> | Hy]; [by left |].
      right. by exists y.
Qed.

Lemma elem_of_arrayTextures t elems : t ∈ arrayTextures elems ↔ ETexture t ∈ elems.
Proof.
  induction elems as [|[t'|] elems IH]; simpl.
  - split; intros H; by apply not_elem_of_nil in H.
  - rewrite !elem_of_cons, IH. split; intros [H|H]; try (by right); left; congruence.
  - rewrite elem_of_cons, IH. split; [by right | by intros [?|?]].
Qed.

Lemma elem_of_valueTextures t v :
  t ∈ valueTextures v
  ↔ v = UTexture t ∨ ∃ elems, v = UArray elems ∧ ETexture t ∈ elems.
Proof.
  destruct v as [t'|elems|]; simpl.
  - rewrite list_elem_of_singleton. split.
    + intros ->. by left.
    + intros [H | (? & H & _)]; congruence.
  - rewrite elem_of_arrayTextures. split.
    + intros H. right. by exists elems.
    + intros [H | (? & H & ?)]; congruence.
  - split; [intros H; by apply not_elem_of_nil in H |].
    intros [H | (? & H & _)]; congruence.
Qed.

Lemma elem_of_queueTextures t q :
  t ∈ queueTextures q
  ↔ ∃ r name u, r ∈ q ∧ (name, u) ∈ uniforms (material r) ∧ t ∈ valueTextures (value u).
Proof.
  unfold queueTextures. rewrite elem_of_concat_map. split.
  - intros (r & Hr & Ht). unfold materialTextures in Ht.
    apply elem_of_concat_map in Ht as ([name u] & Hu & Ht).
    by exists r, name, u.
  - intros (r & name & u & Hr & Hu & Ht). exists r. split; [done |].
    unfold materialTextures. apply elem_of_concat_map. by exists (name, u).
Qed.

Lemma elem_of_lightTextures t ls :
  t ∈ lightTextures ls ↔ ∃ l, l ∈ ls ∧ cubemap l = Some t.
Proof.
  unfold lightTextures. rewrite elem_of_concat_map. split.
  - intros (l & Hl & Ht). exists l. split; [done |].
    destruct (cubemap l); [apply list_elem_of_singleton in Ht; congruence |].
    by apply not_elem_of_nil in Ht.
  - intros (l & Hl & Hc). exists l. split; [done |]. rewrite Hc.
    by apply list_elem_of_singleton.
Qed.

(** The four routes of the traversal are exactly the resources it counts. *)
Lemma liveIn_reachable s R : liveIn s R ↔ reachable R s.
Proof.
  unfold reachable. split.
  - intros H. destruct H as [r Hr | r name u t Hr Hu Hv | r name u elems t Hr Hu Hv He | l t Hl Hc];
      simpl; apply occurrences_pos.
    + unfold sceneGeometries. rewrite <- fmap_app. by apply list_elem_of_fmap_2.
    + unfold sceneTextures. rewrite app_assoc. apply elem_of_app; left.
      assert (t ∈ queueTextures (opaqueList s ++ transparentList s)) as Hq.
      { apply elem_of_queueTextures. exists r, name, u. repeat split; try done.
        apply elem_of_valueTextures. by left. }
      unfold queueTextures in *. by rewrite map_app, concat_app in Hq.
    + unfold sceneTextures. rewrite app_assoc. apply elem_of_app; left.
      assert (t ∈ queueTextures (opaqueList s ++ transparentList s)) as Hq.
      { apply elem_of_queueTextures. exists r, name, u. repeat split; try done.
        apply elem_of_valueTextures. right. by exists elems. }
      unfold queueTextures in *. by rewrite map_app, concat_app in Hq.
    + unfold sceneTextures. rewrite app_assoc. apply elem_of_app; right.
      apply elem_of_lightTextures. by exists l.
  - destruct R as [t|g]; simpl; intros H; apply occurrences_pos in H.
    + unfold sceneTextures in H. rewrite app_assoc in H.
      apply elem_of_app in H as [H|H].
      * assert (t ∈ queueTextures (opaqueList s ++ transparentList s)) as Hq.
        { unfold queueTextures in *. by rewrite map_app, concat_app. }
        apply elem_of_queueTextures in Hq as (r & name & u & Hr & Hu & Ht).
        apply elem_of_valueTextures in Ht as [Hv | (elems & Hv & He)].
        -- by eapply live_uniform.
        -- by eapply live_array_uniform.
      * apply elem_of_lightTextures in H as (l & Hl & Hc). by eapply live_cubemap.
    + unfold sceneGeometries in H. rewrite <- fmap_app in H.
      apply list_elem_of_fmap in H as (r & -> & Hr). by apply live_geometry.
Qed.

(** *** Totals over a log *)

Lemma totalDisposeCalls_snoc R log sweep :
  totalDisposeCalls R (log ++ [sweep]) = totalDisposeCalls R log + disposeCalls R sweep.
Proof. unfold totalDisposeCalls. rewrite sum_list_with_app. simpl. lia. Qed.

Lemma sum_list_with_zero {A} (f : A → nat) (l : list A) :
  (∀ x, x ∈ l → f x = 0) → sum_list_with f l = 0.
Proof.
  induction l as [|x l IH]; intros H; simpl; [done |].
  rewrite (H x), IH; [done | | by apply elem_of_cons; left].
  intros y Hy. apply H. by apply elem_of_cons; right.
Qed.

Lemma sum_list_with_single {A} (f : A → nat) (l : list A) (k c : nat) :
  k < length l →
  (∀ i x, l !! i = Some x → f x = if decide (i = k) then c else 0) →
  sum_list_with f l = c.
Proof.
  revert k. induction l as [|x l IH]; intros k Hk H; simpl in *; [lia |].
  destruct k as [|k].
  - rewrite (H 0 x eq_refl). simpl. rewrite sum_list_with_zero; [lia |].
    intros y Hy. apply list_elem_of_lookup in Hy as [i Hi].
    by rewrite (H (S i) y Hi).
  - rewrite (H 0 x eq_refl). simpl. apply (IH k); [lia |].
    intros i y Hi. rewrite (H (S i) y Hi).
    destruct (decide (i = k)) as [->|Hne].
    + by rewrite decide_True.
    + rewrite decide_False; [done | lia].
Qed.

Lemma listeners_keep_referenced R s ls st :
  reachable R s →
  totalDisposeCalls R (disposeLog (foldl (runListener s) st ls))
  = totalDisposeCalls R (disposeLog st).
Proof.
  intros Hr. revert st. induction ls as [|[] ls IH]; intros st; simpl; [done |].
  rewrite IH, frameHandler_disposeLog, totalDisposeCalls_snoc.
  rewrite sweepOf_referenced by done. lia.
Qed.

(** ** The claims about the tracker *)

(** C1 (amended). For an application built with a loop callback and run
    from its constructor over the frames [scenes], a resource [R] that is
    referenced exactly in frames [a..b] is disposed only by the sweep of
    frame [b+1]; that sweep calls [dispose] on it once per reference the
    scene of frame [b] made to it (at least once, and exactly once when
    frame [b] referenced it once), and no other sweep calls it. *)
Theorem dispose_after_last_live_frame
    (loads : gmap nat LoadState) (tu gu : gmap nat nat)
    (scenes : list Scene) (R : ResourceRef)
    (a b : nat) (sb : Scene) :
  liveExactlyDuring scenes R a b →
  a ≤ b →
  scenes !! b = Some sb →
  S b < length scenes →
  let log := disposeLog (appState (ticks scenes (App3D {| loop := true |} loads tu gu))) in
  length log = length scenes
  ∧ (∀ i sweep, log !! i = Some sweep →
       disposeCalls R sweep = if decide (i = S b) then refCount R sb else 0)
  ∧ 1 ≤ refCount R sb
  ∧ totalDisposeCalls R log = refCount R sb
  ∧ (refCount R sb = 1 → totalDisposeCalls R log = 1).
Proof.
  intros Hlive Hab Hb Hlen log.
  destruct (ticks_log loads tu gu scenes R) as (_ & Hlog_len & Hlog). fold log in Hlog_len, Hlog.
  assert (1 ≤ refCount R sb) as Hpos.
  { assert (reachable R sb) as Hr by (apply (Hlive b sb Hb); lia). unfold reachable in Hr. lia. }
  assert (∀ i sweep, log !! i = Some sweep →
            disposeCalls R sweep = if decide (i = S b) then refCount R sb else 0) as Hall.
  { intros i sweep Hsw.
    assert (i < length scenes) as Hi by (rewrite <- Hlog_len; by eapply lookup_lt_Some).
    destruct (lookup_lt_is_Some_2 scenes i Hi) as [s Hs].
    rewrite (Hlog i s sweep Hs Hsw).
    pose proof (Hlive i s Hs) as Hiff. unfold reachable in Hiff.
    destruct (decide (i = S b)) as [->|Hne].
    - rewrite decide_True by (destruct (decide (refCount R s = 0)); [done | lia]).
      simpl. by rewrite Hb.
    - destruct (decide (refCount R s = 0)) as [Hz|]; [| done].
      destruct i as [|j]; [done |]. simpl.
      assert (j < length scenes) as Hj by lia.
      destruct (lookup_lt_is_Some_2 scenes j Hj) as [sj Hsj]. rewrite Hsj. simpl.
      pose proof (Hlive j sj Hsj) as Hiffj. unfold reachable in Hiffj.
      destruct (decide (refCount R sj = 0)) as [|Hnz]; [done |]. lia. }
  repeat split; try done.
  - unfold totalDisposeCalls. apply (sum_list_with_single _ _ (S b)); [lia | done].
  - intros <-. unfold totalDisposeCalls. apply (sum_list_with_single _ _ (S b)); [lia | done].
Qed.

Lemma dispose_after_last_live_frame_witness :
  liveExactlyDuring [texturedScene; texturedScene; emptyScene] (Tex 5) 0 1
  ∧ totalDisposeCalls (Tex 5)
      (disposeLog (appState (ticks [texturedScene; texturedScene; emptyScene]
                               (App3D {| loop := true |} ∅ ∅ ∅)))) = 1.
Proof.
  assert (liveExactlyDuring [texturedScene; texturedScene; emptyScene] (Tex 5) 0 1) as H.
  { intros i s Hi. destruct i as [|[|[|i]]]; simpl in Hi; try done;
      injection Hi as <-; unfold reachable; simpl; lia. }
  split; [exact H |].
  apply (dispose_after_last_live_frame ∅ ∅ ∅ _ (Tex 5) 0 1 texturedScene H);
    [lia | reflexivity | simpl; lia | reflexivity].
Defined.

(** C1, as the claim has it, fails: geometry 0 is shared by two meshes in
    frame 0 and gone in frame 1, and the sweep of frame 1 disposes it twice. *)
Lemma shared_resource_disposed_per_reference :
  liveExactlyDuring [sharedScene; emptyScene] (Geo 0) 0 0
  ∧ disposeLog (appState (ticks [sharedScene; emptyScene] (App3D {| loop := true |} ∅ ∅ ∅)))
    = [[]; [Geo 0; Geo 0]]
  ∧ totalDisposeCalls (Geo 0)
      (disposeLog (appState (ticks [sharedScene; emptyScene]
                               (App3D {| loop := true |} ∅ ∅ ∅)))) ≠ 1.
Proof.
  split; [| split].
  - intros i s Hi. destruct i as [|[|i]]; simpl in Hi; try done;
      injection Hi as <-; unfold reachable; simpl; lia.
  - vm_compute. reflexivity.
  - vm_compute. lia.
Qed.

(** C2. Over any frames, in which load states may change from one frame
    to the next, a resource that every frame reaches (by a geometry, a
    texture uniform, a texture in an array uniform or a light's cubemap)
    is never disposed; the frame handler does not read the load state. *)
Theorem reachable_never_disposed
    (app : App) (frames : list (gmap nat LoadState * Scene)) (R : ResourceRef) :
  (∀ f, f ∈ frames → liveIn f.2 R) →
  totalDisposeCalls R (disposeLog (appState (ticksLoading frames app)))
  = totalDisposeCalls R (disposeLog (appState app))
  ∧ (∀ loads st scene,
       frameHandler scene (withLoadStates loads st)
       = withLoadStates loads (frameHandler scene st))
  ∧ (∀ loads st scene, liveIn scene R →
       snapshotCount R (frameHandler scene (withLoadStates loads st)) = refCount R scene
       ∧ 0 < refCount R scene).
Proof.
  intros Hlive. split; [| split].
  - induction frames as [|f frames IH] using rev_ind; [done |].
    unfold ticksLoading in *. rewrite foldl_app. simpl.
    unfold tickLoading at 1. unfold tick. simpl.
    rewrite listeners_keep_referenced.
    + simpl. apply IH. intros f' Hf'. apply Hlive. apply elem_of_app. by left.
    + apply liveIn_reachable, Hlive. apply elem_of_app. right. by apply list_elem_of_singleton.
  - reflexivity.
  - intros loads st scene Hl. rewrite snapshotCount_frameHandler.
    split; [done |]. by apply liveIn_reachable.
Qed.

Lemma reachable_never_disposed_witness :
  totalDisposeCalls (Tex 5)
    (disposeLog (appState (ticksLoading
       [({[5 := Pending]}, texturedScene); ({[5 := Pending]}, texturedScene);
        ({[5 := Failed]}, texturedScene)]
       (App3D {| loop := true |} ∅ ∅ ∅)))) = 0.
Proof.
  apply (reachable_never_disposed (App3D {| loop := true |} ∅ ∅ ∅)
           [({[5 := Pending]}, texturedScene); ({[5 := Pending]}, texturedScene);
            ({[5 := Failed]}, texturedScene)] (Tex 5)).
  intros f Hf. apply liveIn_reachable.
  repeat (apply elem_of_cons in Hf as [-> | Hf]; [unfold reachable; simpl; lia |]).
  by apply elem_of_nil in Hf.
Defined.

(** C3 (amended). The traversal appends a resource to the new snapshot at
    every encounter and increments its counter at every encounter: the
    lists grow by the encounters in traversal order, each counter grows
    by the number of encounters, and the snapshot a frame keeps holds a
    resource once per reference. *)
Theorem collect_appends_every_encounter (scene : Scene) (c : Collect) :
  textureResourceList (_collectResources scene c)
  = textureResourceList c ++ sceneTextures scene
  ∧ geometryResourceList (_collectResources scene c)
    = geometryResourceList c ++ sceneGeometries scene
  ∧ (∀ t, usedOr0 (texUsed (_collectResources scene c)) t
          = usedOr0 (texUsed c) t + occurrences t (sceneTextures scene))
  ∧ (∀ g, usedOr0 (geoUsed (_collectResources scene c)) g
          = usedOr0 (geoUsed c) g + occurrences g (sceneGeometries scene))
  ∧ (∀ R st, snapshotCount R (frameHandler scene st) = refCount R scene).
Proof.
  destruct (extends_collectResources scene c) as (H1 & H2 & H3 & H4).
  repeat split; try done.
  - intros t. by rewrite H3, usedOr0_bump.
  - intros g. by rewrite H4, usedOr0_bump.
  - intros R st. apply snapshotCount_frameHandler.
Qed.

(** C3, as the claim has it, fails: [updateUsed] pushes a resource whose
    counter is already 1, and the snapshot of a frame with a shared
    geometry holds it twice. *)
Lemma snapshot_holds_duplicates :
  updateUsed 0 ([0], {[0 := 1]}) = ([0; 0], {[0 := 2]})
  ∧ gGeometriesList (frameHandler sharedScene (appState (App3D {| loop := true |} ∅ ∅ ∅)))
    = [0; 0]
  ∧ ¬ NoDup (gGeometriesList
               (frameHandler sharedScene (appState (App3D {| loop := true |} ∅ ∅ ∅)))).
Proof.
  split; [| split].
  - vm_compute. reflexivity.
  - reflexivity.
  - intros H. apply NoDup_cons in H as [H _]. apply H. by apply elem_of_cons; left.
Qed.

(** C9. Built without a loop callback, the application registers no
    frame listener, so no sweep ever runs: whatever the frames, the tracker
    state stays as the constructor left it and nothing is disposed. *)
Theorem no_loop_no_sweep
    (loads : gmap nat LoadState) (tu gu : gmap nat nat) (scenes : list Scene) :
  frameListeners (App3D {| loop := false |} loads tu gu) = []
  ∧ ticks scenes (App3D {| loop := false |} loads tu gu) = App3D {| loop := false |} loads tu gu
  ∧ disposeLog (appState (ticks scenes (App3D {| loop := false |} loads tu gu))) = []
  ∧ ∀ R, totalDisposeCalls R
           (disposeLog (appState (ticks scenes (App3D {| loop := false |} loads tu gu)))) = 0.
Proof.
  assert (ticks scenes (App3D {| loop := false |} loads tu gu) = App3D {| loop := false |} loads tu gu) as H.
  { induction scenes as [|s scenes IH] using rev_ind; [done |].
    rewrite ticks_snoc, IH. reflexivity. }
  rewrite H. repeat split; done.
Qed.

End TrackerFacts.

(** * Properties of the loading functions *)

Module LoaderFacts.
Import Loader.

(** *** Fresh cells *)

Lemma lookup_snoc_fresh {A} (l : list A) (x : A) : (l ++ [x]) !! length l = Some x.
Proof. by rewrite lookup_app_r, Nat.sub_diag by lia. Qed.

Lemma stateOf_settle_pending p ok v w rs :
  promises w !! p = Some {| pstate := PPending; reactions := rs |} →
  stateOf p (settle p ok v w) = Some (if ok then PFulfilled v else PRejected v).
Proof.
  intros H. unfold settle, stateOf. rewrite H. simpl.
  rewrite list_lookup_insert_eq by (by eapply lookup_lt_Some). by destruct ok.
Qed.

(** C10. With a [url] that is not a string [loadModel] throws at the
    call, and returns no promise; with a string it returns a pending
    promise, which the loader's error event rejects. *)
Theorem loadModel_non_string_throws (url : Value) (opts : option ModelOpts) (w : World) :
  (∀ s, url ≠ VString s) →
  loadModel url opts w = Thrown "Invalid URL."
  ∧ ∀ s, ∃ w',
      loadModel (VString s) opts w = Returned (length (promises w), w')
      ∧ stateOf (length (promises w)) w' = Some PPending
      ∧ stateOf (length (promises w)) (deliver (ModelFailed (length (loaders w))) w')
        = Some (PRejected VUndefined).
Proof.
  intros Hurl. split.
  - destruct url; try reflexivity. by destruct (Hurl s).
  - intros s. eexists. split; [reflexivity |]. split.
    + unfold stateOf; simpl. by rewrite lookup_snoc_fresh.
    + unfold deliver; simpl. rewrite lookup_snoc_fresh. simpl.
      unfold callAll; simpl.
      erewrite stateOf_settle_pending; [done |].
      simpl. by rewrite lookup_snoc_fresh.
Qed.

Lemma loadModel_non_string_throws_witness :
  loadModel (VNumber 3) None (emptyWorld (λ _, ∅)) = Thrown "Invalid URL.".
Proof.
  apply (loadModel_non_string_throws (VNumber 3) None (emptyWorld (λ _, ∅))).
  intros s H. discriminate H.
Defined.

Lemma alter_snoc_fresh {A} (f : A → A) (l : list A) (x : A) :
  alter f (length l) (l ++ [x]) = l ++ [f x].
Proof. induction l as [|y l IH]; simpl; [done | f_equal; exact IH]. Qed.

Lemma insert_snoc_fresh {A} (l : list A) (x y : A) :
  <[length l := y]> (l ++ [x]) = l ++ [y].
Proof. induction l as [|z l IH]; simpl; [done | f_equal; exact IH]. Qed.

(** C6. The promise of [loadTexture] settles with the texture object
    that [loadTextureSync] makes for the same call: at once when the
    texture is renderable, on the texture's success event otherwise, and
    it is rejected on the texture's error event. *)
Theorem loadTexture_resolves_same_object (urlOrImg opts : Value) (w : World) :
  let texture := (loadTextureSync urlOrImg opts w).1 in
  let p := (loadTexture urlOrImg opts w).1 in
  let w' := (loadTexture urlOrImg opts w).2 in
  statusOf texture w' = statusOf texture (loadTextureSync urlOrImg opts w).2
  ∧ isRenderable texture w' = negb (typeofString urlOrImg)
  ∧ if isRenderable texture w'
    then stateOf p w' = Some (PFulfilled (VTexture texture))
    else stateOf p w' = Some PPending
         ∧ stateOf p (deliver (TextureLoaded texture) w')
           = Some (PFulfilled (VTexture texture))
         ∧ stateOf p (deliver (TextureFailed texture) w')
           = Some (PRejected VUndefined).
Proof.
  destruct urlOrImg; simpl;
    unfold loadTexture, statusOf, isRenderable, stateOf, deliver, settle, callAll;
    simpl; rewrite ?lookup_snoc_fresh; simpl;
    rewrite ?alter_snoc_fresh; simpl; rewrite ?lookup_snoc_fresh; simpl;
    rewrite ?alter_snoc_fresh; simpl; rewrite ?lookup_snoc_fresh; simpl.
  all: repeat split.
  all: unfold settle; simpl; rewrite ?lookup_snoc_fresh; simpl;
       rewrite ?insert_snoc_fresh, ?alter_snoc_fresh; simpl; rewrite ?lookup_snoc_fresh; try done.
  all: simpl; rewrite ?insert_snoc_fresh, ?lookup_snoc_fresh; try done.
Qed.

(** *** What each operation leaves alone *)

Lemma settle_materials p ok v w : materials (settle p ok v w) = materials w.
Proof. unfold settle. by destruct (promises w !! p) as [[[] ?]|]. Qed.

Lemma settle_textureObjs p ok v w : textureObjs (settle p ok v w) = textureObjs w.
Proof. unfold settle. by destruct (promises w !! p) as [[[] ?]|]. Qed.

Lemma settle_loaders p ok v w : loaders (settle p ok v w) = loaders w.
Proof. unfold settle. by destruct (promises w !! p) as [[[] ?]|]. Qed.

Lemma settle_sceneNodes p ok v w : sceneNodes (settle p ok v w) = sceneNodes w.
Proof. unfold settle. by destruct (promises w !! p) as [[[] ?]|]. Qed.

Lemma settle_alls p ok v w : alls (settle p ok v w) = alls w.
Proof. unfold settle. by destruct (promises w !! p) as [[[] ?]|]. Qed.

Lemma then_materials p f r w : materials (then_ p f r w).2 = materials w.
Proof. unfold then_. by destruct (promises w !! p) as [[[] ?]|]. Qed.

Lemma then_textureObjs p f r w : textureObjs (then_ p f r w).2 = textureObjs w.
Proof. unfold then_. by destruct (promises w !! p) as [[[] ?]|]. Qed.

Lemma then_fst p f r w : (then_ p f r w).1 = length (promises w).
Proof. unfold then_. by destruct (promises w !! p) as [[[] ?]|]. Qed.

Lemma loadTexture_materials s o w : materials (loadTexture s o w).2 = materials w.
Proof.
  unfold loadTexture; simpl.
  destruct (negb _); simpl; [done | by rewrite settle_materials].
Qed.

Lemma renderState_setUniform m m' key val w :
  renderState m' (setUniform m key val w) = renderState m' w.
Proof.
  unfold renderState, setUniform; simpl.
  destruct (decide (m = m')) as [->|Hne].
  - rewrite list_lookup_alter_eq. by destruct (materials w !! m').
  - by rewrite list_lookup_alter_ne.
Qed.

Lemma renderState_configureUniform m m' w kv :
  renderState m' (configureUniform m w kv) = renderState m' w.
Proof.
  unfold configureUniform.
  destruct (_ ≫= _) as [u|]; [| done].
  destruct (_ || _).
  - unfold renderState. by rewrite then_materials, loadTexture_materials.
  - apply renderState_setUniform.
Qed.

Lemma renderState_configure_all m m' cfg w :
  renderState m' (foldl (configureUniform m) w cfg) = renderState m' w.
Proof.
  revert w. induction cfg as [|kv cfg IH]; intros w; simpl; [done |].
  by rewrite IH, renderState_configureUniform.
Qed.

Lemma cfgGet_cfgSet_eq key v cfg : cfgGet key (cfgSet key v cfg) = v.
Proof.
  induction cfg as [|[k x] cfg IH]; simpl.
  - by rewrite decide_True.
  - destruct (decide (k = key)) as [->|Hne]; simpl.
    + by rewrite decide_True.
    + by rewrite decide_False.
Qed.

Lemma cfgGet_cfgSet_ne key key' v cfg :
  key ≠ key' → cfgGet key' (cfgSet key v cfg) = cfgGet key' cfg.
Proof.
  intros Hne. induction cfg as [|[k x] cfg IH]; simpl.
  - by rewrite decide_False.
  - destruct (decide (k = key)) as [->|Hk]; simpl.
    + by rewrite !decide_False.
    + destruct (decide (k = key')); [done | exact IH].
Qed.

(** C8 fails on the code: [createMaterial] writes [depthMask = false]
    and [transparent = true] to the config object, not to the material.
    Whatever the config, the material it returns has the render state of
    a new material (not transparent, depth mask on), while a config with
    a truthy [transparent] entry is itself changed. *)
Theorem createMaterial_transparent_sets_config_only
    (matConfig : option (list (string * Value))) (w : World) :
  let m := (createMaterial matConfig w).1.1 in
  let cfg' := (createMaterial matConfig w).1.2 in
  let w' := (createMaterial matConfig w).2 in
  transparent <$> materials w' !! m = Some false
  ∧ depthMask <$> materials w' !! m = Some true
  ∧ if truthy (cfgGet "transparent" (default [] matConfig))
    then cfgGet "transparent" cfg' = VBool true ∧ cfgGet "depthMask" cfg' = VBool false
    else cfgGet "transparent" cfg' = cfgGet "transparent" (default [] matConfig).
Proof.
  simpl.
  pose proof (renderState_configure_all (length (materials w)) (length (materials w))
    (cfgSet "shader"
       (if truthy (cfgGet "shader" (default [] matConfig))
        then cfgGet "shader" (default [] matConfig) else VString "clay.standard")
       (default [] matConfig))
    (withMaterials
       (materials w ++
        [newMaterial (shaderLibrary w
           (if truthy (cfgGet "shader" (default [] matConfig))
            then cfgGet "shader" (default [] matConfig) else VString "clay.standard"))]) w)) as H.
  unfold renderState in H. simpl in H. rewrite lookup_snoc_fresh in H. simpl in H.
  destruct (materials _ !! _) as [mat|]; [| done]. simpl in H.
  injection H as Ht Hd. split; [by rewrite <- Ht | split; [by rewrite <- Hd |]].
  rewrite (cfgGet_cfgSet_ne "shader" "transparent") by done.
  destruct (truthy (cfgGet "transparent" (default [] matConfig))).
  - split; [apply cfgGet_cfgSet_eq |].
    rewrite (cfgGet_cfgSet_ne "transparent" "depthMask") by done. apply cfgGet_cfgSet_eq.
  - by rewrite (cfgGet_cfgSet_ne "shader" "transparent").
Qed.

(** The failing input of C8: [createMaterial({ transparent: true })]. *)
Lemma createMaterial_transparent_example :
  let r := createMaterial (Some [("transparent"%string, VBool true)]) (emptyWorld (λ _, ∅)) in
  (λ mat, (transparent mat, depthMask mat)) <$> materials r.2 !! r.1.1 = Some (false, true)
  ∧ r.1.2 = [("transparent"%string, VBool true);
             ("shader"%string, VString "clay.standard");
             ("depthMask"%string, VBool false)].
Proof. split; reflexivity. Qed.

(** *** Microtasks *)

Lemma drain_nil fuel w : jobs w = [] → drain fuel w = w.
Proof. intros H. destruct fuel; simpl; [done | by rewrite H]. Qed.

Lemma drain_cons fuel w j rest :
  jobs w = j :: rest → drain (S fuel) w = drain fuel (runJob j (withJobs rest w)).
Proof. intros H. simpl. by rewrite H. Qed.

Local Arguments drain : simpl never.
Local Arguments Nat.add : simpl never.
Local Arguments Nat.mul : simpl never.
Local Arguments Nat.sub : simpl never.

Lemma settle_pending p ok v w rs :
  promises w !! p = Some {| pstate := PPending; reactions := rs |} →
  settle p ok v w
  = withJobs (jobs w ++ (reactionJob ok v <$> rs))
      (withPromises
         (<[p := {| pstate := if ok then PFulfilled v else PRejected v;
                    reactions := [] |}]> (promises w)) w).
Proof. intros H. unfold settle. by rewrite H. Qed.

Lemma withPromises_same w : withPromises (promises w) w = w.
Proof. by destruct w. Qed.

Lemma withJobs_same w : withJobs (jobs w) w = w.
Proof. by destruct w. Qed.

Lemma allResolveElement_counted a i v w k n vals :
  alls w !! a = Some {| remaining := S k; total := n; values := vals |} →
  allResolveElement a i v w
  = let st' := {| remaining := k; total := n; values := <[i := v]> vals |} in
    if decide (k = 0)
    then settle a true (allValues st') (withAlls (<[a := st']> (alls w)) w)
    else withAlls (<[a := st']> (alls w)) w.
Proof.
  intros H. unfold allResolveElement. rewrite H. simpl.
  replace (S k - 1) with k by lia. done.
Qed.

(** Settling a promise nothing waits on queues nothing. *)
Lemma settle_quiet p ok v w pr :
  promises w !! p = Some pr → reactions pr = [] →
  ∃ pr', reactions pr' = []
         ∧ settle p ok v w = withPromises (<[p := pr']> (promises w)) w.
Proof.
  intros H Hr. destruct pr as [st rs]; simpl in Hr; subst rs.
  destruct st.
  - exists {| pstate := if ok then PFulfilled v else PRejected v; reactions := [] |}.
    split; [done |]. rewrite (settle_pending _ _ _ _ _ H).
    simpl. rewrite app_nil_r. by destruct w.
  - exists {| pstate := PFulfilled v0; reactions := [] |}. split; [done |].
    unfold settle. rewrite H. by rewrite list_insert_id, withPromises_same.
  - exists {| pstate := PRejected v0; reactions := [] |}. split; [done |].
    unfold settle. rewrite H. by rewrite list_insert_id, withPromises_same.
Qed.

(** *** Counting outstanding loads *)

Lemma pending_filter_alter (f : Texture → Texture) (l : list Texture) i tex :
  l !! i = Some tex → status tex = Pending → status (f tex) ≠ Pending →
  S (length (filter (λ tex, status tex = Pending) (alter f i l)))
  = length (filter (λ tex, status tex = Pending) l).
Proof.
  revert i. induction l as [|x l IH]; intros i Hi Hp Hn; [done |].
  destruct i as [|i]; simpl in Hi.
  - injection Hi as ->. simpl.
    rewrite filter_cons_False by done. rewrite filter_cons_True by done. done.
  - change (alter f (S i) (x :: l)) with (x :: alter f i l).
    destruct (decide (status x = Pending)).
    + rewrite !filter_cons_True by done. simpl. f_equal. by apply IH.
    + rewrite !filter_cons_False by done. by apply IH.
Qed.

Lemma allSettled_pendingCount w : allSettled w = bool_decide (pendingCount w = 0).
Proof.
  unfold allSettled, pendingCount.
  induction (textureObjs w) as [|x l IH]; [done |]. simpl.
  destruct (decide (status x = Pending)) as [Hp|Hp].
  - rewrite filter_cons_True by done. rewrite bool_decide_true by done. done.
  - rewrite filter_cons_False by done. rewrite bool_decide_false by done. simpl.
    exact IH.
Qed.

(** *** The join *)

Section join.
Context (opts : ModelOpts) (cs : list nat) (N F : nat).

Lemma finish_join v w fuel :
  FinishInv opts cs N v w → DoneInv cs N (drain (S (S fuel)) w).
Proof.
  intros [Hj Hd1 Hd2 Hp Hs Hn Hc Hl].
  assert (0 < length (promises w)) as Hlen0 by (by eapply lookup_lt_Some).
  rewrite (drain_cons _ _ _ _ Hj).
  unfold runJob. simpl jobHandler. cbv iota. simpl jobArg. simpl jobDerived.
  unfold call, afterLoad. simpl rootNode.
  set (w1 := if autoPlayAnimation opts then _ else _).
  assert (promises w1 = promises w ∧ jobs w1 = [] ∧ sceneNodes w1 = [0]
          ∧ textureObjs w1 = textureObjs w ∧ loaders w1 = loaders w)
    as (Hp1 & Hj1 & Hs1 & Ht1 & Hl1).
  { subst w1. destruct (autoPlayAnimation opts); simpl; by rewrite Hs. }
  clearbody w1.
  rewrite (settle_pending 0 true _ w1 []) by (by rewrite Hp1).
  rewrite (settle_pending (2 + 2 * N) true VUndefined _ [catchReaction opts cs N])
    by (simpl; rewrite list_lookup_insert_ne by lia; by rewrite Hp1).
  simpl. rewrite Hj1. simpl.
  erewrite drain_cons by reflexivity.
  unfold runJob. simpl.
  rewrite (settle_pending (3 + 2 * N) true VUndefined _ [])
    by (simpl; rewrite !list_lookup_insert_ne by lia; by rewrite Hp1).
  rewrite drain_nil by done.
  split; simpl; try done.
  - by rewrite Ht1.
  - unfold pendingCount in *. simpl. by rewrite Ht1.
  - unfold quietLoaders in *. simpl. by rewrite Hl1.
  - unfold stateOf. simpl. rewrite !list_lookup_insert_ne by lia.
    rewrite list_lookup_insert_eq by (rewrite Hp1; lia). done.
Qed.

(** One element microtask. *)
Lemma join_step i queued w :
  JoinInv opts cs N F (i :: queued) w →
  let w' := runJob (elemJob N i) (withJobs (elemJob N <$> queued) w) in
  textureObjs w' = textureObjs w
  ∧ if decide (length queued + pendingCount w + F = 0)
    then ∃ v, FinishInv opts cs N v w'
    else JoinInv opts cs N F queued w'.
Proof.
  intros [Hj Hq Hn Ht He Ha [vals Hst] Hpos Hd1 Hd2 Hp Hs Hl].
  apply Forall_cons in Hq as [Hi Hq].
  destruct (He i Hi) as (pr & Hpr & Hrs).
  unfold runJob. simpl jobHandler. cbv iota. simpl jobArg. simpl jobDerived.
  unfold call.
  set (k := length queued + pendingCount w + F) in *.
  rewrite (allResolveElement_counted _ _ _ _ k N vals)
    by (simpl; rewrite Hst; do 2 f_equal; simpl; lia).
  cbv zeta. simpl alls.
  set (st' := {| remaining := k; total := N; values := <[i:=VTexture i]> vals |}).
  set (w0 := withAlls (<[1 + N:=st']> (alls w)) (withJobs (elemJob N <$> queued) w)).
  destruct (decide (k = 0)) as [Hk|Hk].
  - assert (queued = []) as -> by (destruct queued; [done | simpl in *; lia]).
    assert (pendingCount w = 0) as Hpc by (subst k; simpl in *; lia).
    rewrite (settle_pending (1 + N) true _ w0 [joinReaction opts cs N]) by done.
    set (w1 := withJobs _ _).
    destruct (settle_quiet (2 + N + i) true VUndefined w1 pr) as (pr' & Hrs' & ->);
      [subst w1; simpl; by rewrite list_lookup_insert_ne by lia | done |].
    split; [done |]. exists (allValues st').
    split; simpl; try done.
    + rewrite !list_lookup_insert_ne by lia. done.
    + rewrite !list_lookup_insert_ne by lia. done.
    + rewrite !list_lookup_insert_ne by lia. done.
  - destruct (settle_quiet (2 + N + i) true VUndefined w0 pr) as (pr' & Hrs' & ->);
      [done | done |].
    split; [done |].
    split; simpl; try done.
    + intros i' tex Hi' Hpe. destruct (Ht i' tex Hi' Hpe) as (H1 & H2 & H3).
      apply lookup_lt_Some in Hi'.
      repeat split; try done. rewrite list_lookup_insert_ne by lia. done.
    + intros i' Hi'. destruct (decide (i' = i)) as [->|Hne].
      * exists pr'. split; [| done]. apply list_lookup_insert_eq.
        by eapply lookup_lt_Some.
      * rewrite list_lookup_insert_ne by lia. by apply He.
    + rewrite list_lookup_insert_ne by lia. done.
    + exists (<[i:=VTexture i]> vals). by rewrite lookup_insert_eq.
    + unfold pendingCount in *. simpl. lia.
    + rewrite list_lookup_insert_ne by lia. done.
    + rewrite list_lookup_insert_ne by lia. done.
    + rewrite list_lookup_insert_ne by lia. done.
Qed.

Lemma drain_join queued w fuel :
  JoinInv opts cs N F queued w →
  length queued + 2 ≤ fuel →
  if decide (pendingCount w + F = 0)
  then DoneInv cs N (drain fuel w)
  else JoinInv opts cs N F [] (drain fuel w).
Proof.
  revert w fuel. induction queued as [|i queued IH]; intros w fuel Hinv Hfuel.
  - rewrite drain_nil by apply Hinv.
    pose proof (ji_pos _ _ _ _ _ _ Hinv) as Hpos. simpl in Hpos.
    rewrite decide_False by lia. done.
  - destruct fuel as [|fuel]; [simpl in Hfuel; lia |].
    rewrite (drain_cons _ _ _ _ (ji_jobs _ _ _ _ _ _ Hinv)).
    destruct (join_step i queued w Hinv) as [Htex Hstep].
    destruct (decide (length queued + pendingCount w + F = 0)) as [Hz|Hnz].
    + destruct Hstep as [v Hfin].
      rewrite decide_True by lia.
      destruct fuel as [|[|fuel]]; [simpl in Hfuel; lia | simpl in Hfuel; lia |].
      eapply finish_join. exact Hfin.
    + specialize (IH _ fuel Hstep). simpl in Hfuel.
      assert (pendingCount (runJob (elemJob N i) (withJobs (elemJob N <$> queued) w))
              = pendingCount w) as Hpc by (unfold pendingCount; by rewrite Htex).
      destruct (decide (pendingCount w + F = 0));
        destruct (decide (pendingCount
          (runJob (elemJob N i) (withJobs (elemJob N <$> queued) w)) + F = 0));
        try lia; apply IH; lia.
Qed.

End join.

Lemma pendingCount_zero w t tex :
  pendingCount w = 0 → textureObjs w !! t = Some tex → status tex ≠ Pending.
Proof.
  unfold pendingCount. intros H Ht Hp.
  assert (tex ∈ filter (λ tex, status tex = Pending) (textureObjs w)) as Hin.
  { apply list_elem_of_filter. split; [done |]. by eapply list_elem_of_lookup_2. }
  destruct (filter _ _); [by apply elem_of_nil in Hin | done].
Qed.

(** With no load outstanding, an event finds nobody listening. *)
Lemma deliver_settled ev w :
  pendingCount w = 0 → quietLoaders w → deliver ev w = w.
Proof.
  intros Hc Hl. destruct ev as [t|t|l cs' made|l]; simpl.
  - destruct (textureObjs w !! t) as [tex|] eqn:E; [| done].
    rewrite decide_False; [done | by eapply pendingCount_zero].
  - destruct (textureObjs w !! t) as [tex|] eqn:E; [| done].
    rewrite decide_False; [done | by eapply pendingCount_zero].
  - destruct (loaders w !! l) as [ld|] eqn:E; [| done].
    rewrite decide_False; [done | by eapply Hl].
  - destruct (loaders w !! l) as [ld|] eqn:E; [| done].
    rewrite decide_False; [done | by eapply Hl].
Qed.

Section join_events.
Context (opts : ModelOpts) (cs : list nat) (N F : nat).

(** A texture settles while the join waits: its element is queued. *)
Lemma join_texture_settles (ok : bool) i tex w :
  JoinInv opts cs N F [] w →
  textureObjs w !! i = Some tex → status tex = Pending →
  JoinInv opts cs N F [i] (deliver (if ok then TextureLoaded i else TextureFailed i) w).
Proof.
  intros [Hj Hq Hn Ht He Ha [vals Hst] Hpos Hd1 Hd2 Hp Hs Hl] Hi Hpe.
  destruct (Ht i tex Hi Hpe) as (Hsl & Hel & Hqi).
  assert (i < N) as HiN by (rewrite <- Hn; by eapply lookup_lt_Some).
  set (f := λ tex : Texture,
         if ok
         then {| status := Ready; image := image tex; dynamic := dynamic tex;
                 texOpts := texOpts tex; successListeners := [];
                 errorListeners := errorListeners tex |}
         else {| status := Failed; image := image tex; dynamic := dynamic tex;
                 texOpts := texOpts tex; successListeners := successListeners tex;
                 errorListeners := [] |}).
  assert (deliver (if ok then TextureLoaded i else TextureFailed i) w
          = settle (1 + i) true (VTexture i) (alterTexture f i w)) as ->.
  { destruct ok; simpl; rewrite Hi; rewrite decide_True by done.
    - by rewrite Hsl.
    - by rewrite Hel. }
  rewrite (settle_pending (1 + i) true _ _ [elemReaction N i]) by done.
  assert (S (pendingCount (alterTexture f i w)) = pendingCount w) as Hpc.
  { unfold pendingCount; simpl. apply (pending_filter_alter f _ i tex); try done.
    subst f. by destruct ok. }
  split; simpl.
  - by rewrite Hj.
  - by apply Forall_singleton.
  - by rewrite length_alter.
  - intros i' tex' Hi' Hpe'. destruct (decide (i' = i)) as [->|Hne].
    + rewrite list_lookup_alter_eq, Hi in Hi'. simpl in Hi'. injection Hi' as <-.
      subst f. by destruct ok.
    + rewrite list_lookup_alter_ne in Hi' by done.
      destruct (Ht i' tex' Hi' Hpe') as (H1 & H2 & H3).
      repeat split; try done. by rewrite list_lookup_insert_ne by lia.
  - intros i' Hi'. rewrite list_lookup_insert_ne by lia. by apply He.
  - by rewrite list_lookup_insert_ne by lia.
  - exists vals. rewrite Hst. do 2 f_equal.
    change (pendingCount (withJobs _ (withPromises _ (alterTexture f i w))))
      with (pendingCount (alterTexture f i w)). simpl in *. lia.
  - lia.
  - by rewrite list_lookup_insert_ne by lia.
  - by rewrite list_lookup_insert_ne by lia.
  - by rewrite list_lookup_insert_ne by lia.
  - done.
  - done.
Qed.

Lemma wait_turn fuel w ev :
  WaitInv opts cs N F w → 3 ≤ fuel → WaitInv opts cs N F (turn fuel w ev).
Proof.
  intros [Hinv | [HF Hdone]] Hfuel; unfold turn.
  - assert (∀ (ok : bool) i, WaitInv opts cs N F (drain fuel
              (deliver (if ok then TextureLoaded i else TextureFailed i) w))) as Htex.
    { intros ok i.
      destruct (textureObjs w !! i) as [tex|] eqn:Hi.
      - destruct (decide (status tex = Pending)) as [Hpe|Hpe].
        + pose proof (join_texture_settles ok i tex w Hinv Hi Hpe) as Hinv'.
          pose proof (drain_join opts cs N F [i] _ fuel Hinv') as Hd.
          assert (length [i] + 2 ≤ fuel) as Hlen by (simpl; lia).
          specialize (Hd Hlen).
          destruct (decide _) as [Hz|]; [right; split; [lia | done] | by left].
        + left. destruct ok; simpl; rewrite Hi, decide_False by done;
            rewrite drain_nil by apply Hinv; done.
      - left. destruct ok; simpl; rewrite Hi; rewrite drain_nil by apply Hinv; done. }
    destruct ev as [t|t|l cs' made|l].
    + apply (Htex true t).
    + apply (Htex false t).
    + left. simpl. destruct (loaders w !! l) as [ld|] eqn:E.
      * rewrite decide_False by (by eapply (ji_loaders _ _ _ _ _ _ Hinv)).
        by rewrite drain_nil by apply Hinv.
      * by rewrite drain_nil by apply Hinv.
    + left. simpl. destruct (loaders w !! l) as [ld|] eqn:E.
      * rewrite decide_False by (by eapply (ji_loaders _ _ _ _ _ _ Hinv)).
        by rewrite drain_nil by apply Hinv.
      * by rewrite drain_nil by apply Hinv.
  - right. split; [done |]. rewrite deliver_settled by apply Hdone.
    by rewrite drain_nil by apply Hdone.
Qed.

Lemma wait_turns fuel evs w :
  WaitInv opts cs N F w → 3 ≤ fuel → WaitInv opts cs N F (turns fuel evs w).
Proof.
  revert w. induction evs as [|ev evs IH]; intros w Hw Hfuel; [done |].
  simpl. apply IH; [by apply wait_turn | done].
Qed.

(** What the invariant says of the scene and of the returned promise. *)
Lemma wait_observed w :
  WaitInv opts cs N F w →
  jobs w = []
  ∧ length (textureObjs w) = N
  ∧ sceneNodes w = (if allSettled w && bool_decide (F = 0) then [0] else [])
  ∧ stateOf 0 w
    = Some (if allSettled w && bool_decide (F = 0)
            then PFulfilled (VResult (joinResult cs N)) else PPending)
  ∧ isRejected (stateOf 0 w) = false.
Proof.
  rewrite allSettled_pendingCount. intros [Hinv | [HF Hdone]].
  - pose proof (ji_pos _ _ _ _ _ _ Hinv) as Hpos. simpl in Hpos.
    assert (bool_decide (pendingCount w = 0) && bool_decide (F = 0) = false) as ->.
    { destruct (decide (pendingCount w = 0)).
      - rewrite (bool_decide_false (F = 0)) by lia. by rewrite andb_false_r.
      - by rewrite bool_decide_false. }
    unfold stateOf. rewrite (ji_p _ _ _ _ _ _ Hinv).
    repeat split; [apply Hinv | apply Hinv | apply Hinv].
  - rewrite bool_decide_true by apply Hdone. rewrite bool_decide_true by done. simpl.
    rewrite (di_p _ _ _ Hdone).
    repeat split; [apply Hdone | apply Hdone | apply Hdone].
Qed.

End join_events.

(** Lengths of heaps after allocations and updates. *)
Ltac solve_len :=
  repeat first [rewrite length_app | rewrite length_insert | rewrite length_alter];
  simpl; lia.

(** *** [then] on a promise of known state *)

Lemma then_pending p f r w rs :
  promises w !! p = Some {| pstate := PPending; reactions := rs |} →
  then_ p f r w
  = (length (promises w),
     withPromises
       (<[p := {| pstate := PPending;
                  reactions := rs ++ [{| onFulfilled := f; onRejected := r;
                                         derived := length (promises w) |}] |}]>
          (promises w ++ [pendingPromise])) w).
Proof. intros H. unfold then_. by rewrite H. Qed.

Lemma then_fulfilled p f r w v rs :
  promises w !! p = Some {| pstate := PFulfilled v; reactions := rs |} →
  then_ p f r w
  = (length (promises w),
     withJobs
       (jobs w ++ [reactionJob true v {| onFulfilled := f; onRejected := r;
                                         derived := length (promises w) |}])
       (withPromises (promises w ++ [pendingPromise]) w)).
Proof. intros H. unfold then_. by rewrite H. Qed.

(** *** The listener of [loader.success] under wait-for-textures *)

Section establish.
Context (lib : Value → gmap string Uniform) (url : string) (opts : ModelOpts)
        (cs : list nat) (made : list LoadState).
Local Abbreviation N := (length made).

Lemma loadedWorld_map : MapInv made 0 (loadedWorld lib url (Some opts) made).
Proof.
  split; simpl; try done.
  - by rewrite length_fmap.
  - intros i r Hi. exists (madeTexture r). by rewrite list_lookup_fmap, Hi.
  - intros l ld Hl. destruct l; simpl in Hl; [by injection Hl as <- | done].
Qed.

Lemma renderable_status (tex : Texture) r :
  status tex = r → bool_decide (status tex = Ready) = renderable r.
Proof. by intros ->. Qed.

Lemma map_step k w :
  MapInv made k w → k < N →
  (textureSettled k w).1 = 1 + k ∧ MapInv made (S k) (textureSettled k w).2.
Proof.
  intros [Hlen Hp Hn Ht Hj Ha Hs Hl] Hk.
  destruct (lookup_lt_is_Some_2 made k Hk) as [r Hr].
  destruct (Ht k r Hr) as (tex & Htex & Hst & Hlis).
  rewrite decide_False in Hlis by lia. destruct Hlis as [Hsl Hel].
  unfold textureSettled, isRenderable. rewrite Htex, (renderable_status tex r Hst).
  destruct (renderable r) eqn:Hrr.
  - simpl. split; [lia |].
    split; simpl; try done.
    + rewrite length_app. simpl. lia.
    + rewrite lookup_app_l by lia. done.
    + intros i r0 Hi. destruct (Ht i r0 Hi) as (tex' & Htex' & Hst' & Hlis').
      exists tex'. repeat split; try done.
      destruct (decide (i < k)) as [Hlt|Hge].
      * rewrite decide_True by lia. destruct (renderable r0).
        -- rewrite lookup_app_l by lia. done.
        -- destruct Hlis' as (? & ? & ?). repeat split; try done.
           rewrite lookup_app_l by lia. done.
      * destruct (decide (i = k)) as [->|Hne].
        -- rewrite decide_True by lia. rewrite Hr in Hi. injection Hi as <-.
           rewrite Hrr. apply bool_decide_eq_true in Hrr. subst r.
           replace (1 + k) with (length (promises w)) by lia.
           by rewrite lookup_snoc_fresh.
        -- rewrite decide_False by lia. done.
  - simpl. split; [lia |].
    split; simpl; try done.
    + rewrite length_app. simpl. lia.
    + rewrite lookup_app_l by lia. done.
    + by rewrite !length_alter.
    + intros i r0 Hi. destruct (Ht i r0 Hi) as (tex' & Htex' & Hst' & Hlis').
      destruct (decide (i = k)) as [->|Hne].
      * rewrite Hr in Hi. injection Hi as <-.
        rewrite !list_lookup_alter_eq, Htex. simpl. eexists. split; [reflexivity |].
        simpl. split; [done |]. rewrite decide_True by lia. rewrite Hrr.
        rewrite Hsl, Hel. simpl. replace (length (promises w)) with (1 + k) by lia.
        repeat split. rewrite <- Hlen. by rewrite lookup_snoc_fresh.
      * rewrite !list_lookup_alter_ne by done. exists tex'. repeat split; try done.
        destruct (decide (i < k)) as [Hlt|Hge].
        -- rewrite decide_True by lia. destruct (renderable r0).
           ++ rewrite lookup_app_l by lia. done.
           ++ destruct Hlis' as (? & ? & ?). repeat split; try done.
              rewrite lookup_app_l by lia. done.
        -- rewrite decide_False by lia. done.
Qed.

Lemma map_loop n k w :
  MapInv made k w → k + n = N →
  (mapTextures (seq k n) w).1 = seq (1 + k) n
  ∧ MapInv made N (mapTextures (seq k n) w).2.
Proof.
  revert k w. induction n as [|n IH]; intros k w Hinv Hkn; simpl.
  - replace N with k by lia. done.
  - destruct (map_step k w Hinv) as [Hq Hinv']; [lia |].
    destruct (textureSettled k w) as [q w1]. simpl in Hq, Hinv'. subst q.
    destruct (IH (S k) w1 Hinv') as [Hqs Hfin]; [lia |].
    destruct (mapTextures (seq (S k) n) w1) as [qs w2]. simpl in *.
    rewrite Hqs. done.
Qed.

Lemma all_start w :
  MapInv made N w →
  AllInv made 0
    (withAlls (<[1 + N := {| remaining := N; total := N; values := ∅ |}]>
                 (alls (newPromise w).2)) (newPromise w).2).
Proof.
  intros [Hlen Hp Hn Ht Hj Ha Hs Hl].
  split; simpl; try done.
  - rewrite length_app. simpl. lia.
  - rewrite lookup_app_l by lia. done.
  - replace (1 + N) with (length (promises w)) by lia. by rewrite lookup_snoc_fresh.
  - by rewrite lookup_insert_eq.
  - intros i r Hi. destruct (Ht i r Hi) as (tex & Htex & Hst & Hlis).
    apply lookup_lt_Some in Hi as HiN.
    rewrite decide_True in Hlis by lia.
    exists tex. repeat split; try done. destruct (renderable r).
    + rewrite lookup_app_l by lia. done.
    + destruct Hlis as (? & ? & ?). repeat split; try done.
      rewrite lookup_app_l by lia. done.
  - intros i Hi. lia.
  - exists []. rewrite Hj. repeat split. by apply Forall_nil.
Qed.

Lemma all_step k w :
  AllInv made k w → k < N →
  AllInv made (S k)
    (then_ (1 + k) (Some (AllResolveElement (1 + N) k)) (Some (RejectFn (1 + N))) w).2.
Proof.
  intros [Hlen Hp Ha Hst Hn Ht He (queued & Hj & Hq & Hcnt) Hs Hl] Hk.
  destruct (lookup_lt_is_Some_2 made k Hk) as [r Hr].
  destruct (Ht k r Hr) as (tex & Htex & Hstat & Hcell).
  assert (∀ i, i < length (promises w) →
            (promises w ++ [pendingPromise]) !! i = promises w !! i) as Hold.
  { intros i Hi. by rewrite lookup_app_l. }
  assert ((promises w ++ [pendingPromise]) !! (2 + N + k) = Some pendingPromise) as Hnew.
  { rewrite <- Hlen. apply lookup_snoc_fresh. }
  destruct (renderable r) eqn:Hrr.
  - rewrite (then_fulfilled _ _ _ _ _ _ Hcell). simpl.
    split; simpl; try done.
    + rewrite length_app. simpl. lia.
    + rewrite Hold by lia. done.
    + rewrite Hold by lia. done.
    + intros i r0 Hi. destruct (Ht i r0 Hi) as (tex' & Htex' & Hstat' & Hcell').
      apply lookup_lt_Some in Hi as HiN.
      exists tex'. repeat split; try done. destruct (renderable r0) eqn:Hr0.
      * rewrite Hold by lia. done.
      * destruct Hcell' as (? & ? & Hc). repeat split; try done.
        rewrite Hold by lia. rewrite Hc.
        destruct (decide (i = k)) as [->|Hne]; [congruence |].
        destruct (decide (i < k)); [rewrite decide_True by lia | rewrite decide_False by lia]; done.
    + intros i Hi. destruct (decide (i = k)) as [->|Hne]; [done |].
      rewrite Hold by lia. apply He. lia.
    + exists (queued ++ [k]). rewrite Hj, fmap_app. simpl.
      rewrite Hlen. repeat split.
      * apply Forall_app. split; [| apply Forall_singleton; lia].
        eapply Forall_impl; [exact Hq |]. simpl. intros; lia.
      * rewrite (take_S_r _ _ _ Hr), filter_app, !length_app.
        rewrite (filter_cons_False _ r) by (by rewrite Hrr). simpl. lia.
  - destruct Hcell as (Hsl & Hel & Hcell). rewrite decide_False in Hcell by lia.
    rewrite (then_pending _ _ _ _ _ Hcell). simpl.
    split; simpl; try done.
    + rewrite length_insert, length_app. simpl. lia.
    + rewrite list_lookup_insert_ne by lia. rewrite Hold by lia. done.
    + rewrite list_lookup_insert_ne by lia. rewrite Hold by lia. done.
    + intros i r0 Hi. destruct (Ht i r0 Hi) as (tex' & Htex' & Hstat' & Hcell').
      apply lookup_lt_Some in Hi as HiN.
      exists tex'. repeat split; try done.
      destruct (decide (i = k)) as [->|Hne].
      * rewrite Hr in Hi. injection Hi as <-.
        rewrite Htex in Htex'. injection Htex' as <-. rewrite Hrr.
        repeat split; try done.
        rewrite list_lookup_insert_eq by (rewrite length_app; simpl; lia).
        rewrite decide_True by lia. rewrite Hlen. done.
      * rewrite list_lookup_insert_ne by lia. destruct (renderable r0).
        -- rewrite Hold by lia. done.
        -- destruct Hcell' as (? & ? & Hc). repeat split; try done.
           rewrite Hold by lia. rewrite Hc.
           destruct (decide (i < k)); [rewrite decide_True by lia | rewrite decide_False by lia]; done.
    + intros i Hi. rewrite list_lookup_insert_ne by lia.
      destruct (decide (i = k)) as [->|Hne]; [done |].
      rewrite Hold by lia. apply He. lia.
    + exists queued. repeat split; try done.
      * eapply Forall_impl; [exact Hq |]. simpl. intros; lia.
      * rewrite (take_S_r _ _ _ Hr), filter_app, !length_app.
        rewrite (filter_cons_True _ r) by done. simpl. lia.
Qed.

Lemma all_loop n k w :
  AllInv made k w → k + n = N →
  AllInv made N (allElements (1 + N) k (seq (1 + k) n) w).
Proof.
  revert k w. induction n as [|n IH]; intros k w Hinv Hkn.
  - simpl. replace N with k by lia. done.
  - change (seq (1 + k) (S n)) with ((1 + k) :: seq (1 + S k) n).
    cbn [allElements]. apply IH; [| lia]. apply all_step; [done | lia].
Qed.

Lemma lookup_snoc_at {A} (l : list A) (x : A) n :
  length l = n → (l ++ [x]) !! n = Some x.
Proof. intros <-. apply lookup_snoc_fresh. Qed.

Lemma pending_of_made (texs : list Texture) (rs : list LoadState) :
  length texs = length rs →
  (∀ i r, rs !! i = Some r → ∃ tex, texs !! i = Some tex ∧ status tex = r) →
  length (filter (λ tex, status tex = Pending) texs)
  = length (filter (λ r, r = Pending) rs).
Proof.
  revert texs. induction rs as [|r rs IH]; intros texs Hlen H.
  - destruct texs; [done | simpl in Hlen; lia].
  - destruct texs as [|tex texs]; [simpl in Hlen; lia |].
    destruct (H 0 r eq_refl) as (tex0 & Ht0 & Hs0). simpl in Ht0. injection Ht0 as <-.
    assert (length (filter (λ tex, status tex = Pending) texs)
            = length (filter (λ r, r = Pending) rs)) as Hrec.
    { apply IH; [simpl in Hlen; lia |]. intros i r' Hi. apply (H (S i) r' Hi). }
    destruct (decide (r = Pending)) as [Hp|Hp].
    + rewrite filter_cons_True by (by rewrite Hs0).
      rewrite (filter_cons_True _ r) by done. simpl. by rewrite Hrec.
    + rewrite filter_cons_False by (by rewrite Hs0).
      rewrite (filter_cons_False _ r) by done. done.
Qed.

(** A texture that is not renderable is still loading or in error. *)
Lemma not_renderable_count (rs : list LoadState) :
  length (filter (λ r, renderable r = false) rs)
  = length (filter (λ r, r = Pending) rs) + stuckCount rs.
Proof.
  unfold stuckCount. induction rs as [|r rs IH]; [done |].
  destruct r.
  - rewrite filter_cons_True by done. rewrite (filter_cons_True (λ r, r = Pending)) by done.
    rewrite (filter_cons_False (λ r, r = Failed)) by done. simpl. lia.
  - rewrite filter_cons_False by done. rewrite (filter_cons_False (λ r, r = Pending)) by done.
    rewrite (filter_cons_False (λ r, r = Failed)) by done. done.
  - rewrite filter_cons_True by done. rewrite (filter_cons_False (λ r, r = Pending)) by done.
    rewrite (filter_cons_True (λ r, r = Failed)) by done. simpl. lia.
Qed.

Lemma all_pending w :
  AllInv made N w →
  ∃ queued, jobs w = elemJob N <$> queued
    ∧ Forall (λ i, i < N) queued
    ∧ length queued + pendingCount w + stuckCount made = N.
Proof.
  intros Hinv. destruct (ai_jobs _ _ _ Hinv) as (queued & Hj & Hq & Hcnt).
  exists queued. repeat split; try done.
  rewrite take_ge in Hcnt by lia. rewrite not_renderable_count in Hcnt.
  assert (pendingCount w = length (filter (λ r, r = Pending) made)) as ->; [| lia].
  unfold pendingCount. apply pending_of_made; [apply Hinv |].
  intros i r Hi. destruct (ai_tex _ _ _ Hinv i r Hi) as (tex & ? & ? & _). by exists tex.
Qed.

(** After the listener: the join waits with the ready elements queued,
    or, with no texture at all, [afterLoad] is queued. *)
Lemma loaded_wait :
  waitTextureLoaded opts = true →
  let w := onLoaderSuccess opts 0 (joinResult cs N) (loadedWorld lib url (Some opts) made) in
  (∃ queued, length queued ≤ N ∧ JoinInv opts cs N (stuckCount made) queued w)
  ∨ (stuckCount made = 0 ∧ ∃ v, FinishInv opts cs N v w).
Proof.
  intros Hwait. unfold onLoaderSuccess. rewrite Hwait. simpl negb. cbv iota.
  simpl textures.
  destruct (map_loop N 0 _ loadedWorld_map eq_refl) as [Hqs Hmap].
  destruct (mapTextures (seq 0 N) (loadedWorld lib url (Some opts) made)) as [qs w1].
  simpl in Hqs, Hmap. subst qs.
  unfold promiseAll, newPromise. rewrite length_seq.
  rewrite (mi_len _ _ _ Hmap).
  pose proof (all_start w1 Hmap) as Hall0. unfold newPromise in Hall0. simpl in Hall0.
  pose proof (all_loop N 0 _ Hall0 eq_refl) as Hall.
  set (w2 := allElements (1 + N) 0 (seq (1 + 0) N) _) in *. clearbody w2. clear Hall0.
  destruct (all_pending w2 Hall) as (queued & Hj & Hq & Hcnt).
  destruct Hall as [Hlen Hp Ha Hst Hn Ht He _ Hs Hl].
  assert (length (promises w2) = 2 + 2 * N) as Hlen' by lia.
  destruct (decide (N = 0)) as [HN|HN].
  - right. split; [lia |].
    assert (queued = []) as -> by (destruct queued; [done | simpl in Hcnt; lia]).
    simpl in Hcnt, Hj.
    rewrite (settle_pending _ _ _ _ _ Ha). rewrite Hj. simpl app.
    erewrite then_fulfilled
      by (simpl; apply list_lookup_insert_eq; by eapply lookup_lt_Some).
    simpl promises. simpl jobs. rewrite length_insert.
    erewrite then_pending
      by (simpl; apply lookup_snoc_at; by rewrite length_insert).
    simpl. rewrite length_app, length_insert, Hlen'. simpl length.
    replace (2 + 2 * N + 1) with (3 + 2 * N) by lia.
    eexists. split; simpl.
    + reflexivity.
    + rewrite list_lookup_insert_eq; [done | solve_len].
    + rewrite list_lookup_insert_ne by lia.
      apply lookup_snoc_at. solve_len.
    + rewrite list_lookup_insert_ne by lia.
      rewrite !lookup_app_l by solve_len.
      rewrite list_lookup_insert_ne by lia. done.
    + done.
    + done.
    + unfold pendingCount in *. simpl. lia.
    + done.
  - left. exists queued. split; [lia |].
    erewrite then_pending by exact Ha.
    erewrite then_pending
      by (simpl; rewrite list_lookup_insert_ne by lia; by apply lookup_snoc_at).
    simpl. rewrite !length_insert, !length_app, Hlen'. simpl length.
    replace (2 + 2 * N + 1) with (3 + 2 * N) by lia.
    assert (∀ i, i < 2 + 2 * N → i ≠ 1 + N →
      <[2 + 2 * N := {| pstate := PPending; reactions := [catchReaction opts cs N] |}]>
        (<[1 + N := {| pstate := PPending; reactions := [joinReaction opts cs N] |}]>
           (promises w2 ++ [pendingPromise]) ++ [pendingPromise]) !! i
      = promises w2 !! i) as Hold.
    { intros i Hi Hne. rewrite list_lookup_insert_ne by lia.
      rewrite lookup_app_l by solve_len.
      rewrite list_lookup_insert_ne by lia. rewrite lookup_app_l by lia. done. }
    split; simpl; try done.
    + intros i tex Hi Hpe. apply lookup_lt_Some in Hi as HiN.
      destruct (lookup_lt_is_Some_2 made i) as [r Hr]; [lia |].
      destruct (Ht i r Hr) as (tex' & Htex' & Hstat & Hcell).
      rewrite Hi in Htex'. injection Htex' as <-.
      assert (r = Pending) as -> by congruence.
      unfold renderable in Hcell. rewrite bool_decide_false in Hcell by done.
      destruct Hcell as (? & ? & Hc). rewrite decide_True in Hc by lia.
      repeat split; try done.
      change (2 + 2 * N) with (2 + 2 * N). rewrite Hold by lia. done.
    + intros i Hi. exists pendingPromise. split; [| done].
      rewrite Hold by lia. by apply He.
    + rewrite list_lookup_insert_ne by lia.
      rewrite lookup_app_l by solve_len.
      rewrite list_lookup_insert_eq by solve_len. done.
    + exists ∅. rewrite Hst. do 2 f_equal. unfold pendingCount in *. simpl. lia.
    + unfold pendingCount in *. simpl. lia.
    + rewrite list_lookup_insert_eq; [done | solve_len].
    + rewrite list_lookup_insert_ne by lia.
      apply lookup_snoc_at. solve_len.
    + rewrite Hold by lia. done.
Qed.

Lemma deliver_model_loaded :
  deliver (ModelLoaded 0 cs made) (modelWorld lib url (Some opts))
  = onLoaderSuccess opts 0 (joinResult cs N) (loadedWorld lib url (Some opts) made).
Proof. reflexivity. Qed.

(** The turn of the loader's success event, under wait-for-textures. *)
Lemma model_loaded_wait fuel :
  waitTextureLoaded opts = true → N + 3 ≤ fuel →
  WaitInv opts cs N (stuckCount made) (turn fuel (modelWorld lib url (Some opts)) (ModelLoaded 0 cs made)).
Proof.
  intros Hwait Hfuel. unfold turn. rewrite deliver_model_loaded.
  destruct (loaded_wait Hwait) as [(queued & Hlen & Hinv) | (HF & v & Hfin)].
  - pose proof (drain_join opts cs N (stuckCount made) queued _ fuel Hinv) as Hd.
    assert (length queued + 2 ≤ fuel) as Hf by lia. specialize (Hd Hf).
    destruct (decide _); [right; split; [lia | done] | by left].
  - right. split; [done |]. destruct fuel as [|[|fuel]]; [lia | lia |].
    eapply finish_join. exact Hfin.
Qed.

(** The same turn under the immediate policy. *)
Lemma model_loaded_immediate fuel :
  waitTextureLoaded opts = false →
  ImmediateInv cs N (turn fuel (modelWorld lib url (Some opts)) (ModelLoaded 0 cs made)).
Proof.
  intros Hwait. unfold turn. rewrite deliver_model_loaded.
  unfold onLoaderSuccess. rewrite Hwait. simpl negb. cbv iota.
  unfold afterLoad. simpl rootNode.
  set (w1 := if autoPlayAnimation opts then _ else _).
  assert (promises w1 = [pendingPromise] ∧ jobs w1 = [] ∧ sceneNodes w1 = [0]
          ∧ textureObjs w1 = madeTexture <$> made
          ∧ loaders w1 = loaders (loadedWorld lib url (Some opts) made))
    as (Hp1 & Hj1 & Hs1 & Ht1 & Hl1).
  { subst w1. by destruct (autoPlayAnimation opts). }
  clearbody w1.
  rewrite (settle_pending 0 true _ w1 []) by (by rewrite Hp1).
  rewrite drain_nil by (simpl; by rewrite Hj1).
  split; simpl; try done.
  - by rewrite Hj1.
  - intros i tex Hi. rewrite Ht1, list_lookup_fmap in Hi.
    destruct (made !! i); [| done]. simpl in Hi. by injection Hi as <-.
  - unfold quietLoaders. simpl. rewrite Hl1.
    intros l ld Hl. destruct l; simpl in Hl; [by injection Hl as <- | done].
  - unfold stateOf. simpl. by rewrite Hp1.
Qed.

End establish.

Lemma immediate_turn cs N fuel w ev :
  ImmediateInv cs N w → ImmediateInv cs N (turn fuel w ev).
Proof.
  intros [Hj Hs Hlis Hl Hp]. unfold turn.
  assert (∀ f : Texture → Texture, ∀ t,
            (∀ tex, successListeners (f tex) = [] ∧ errorListeners (f tex) = errorListeners tex
                    ∨ successListeners (f tex) = successListeners tex ∧ errorListeners (f tex) = []) →
            ImmediateInv cs N (alterTexture f t w)) as Halter.
  { intros f t Hf. split; simpl; try done.
    intros i tex Hi. destruct (decide (t = i)) as [->|Hne].
    - rewrite list_lookup_alter_eq in Hi.
      destruct (textureObjs w !! i) as [tex0|] eqn:E; [| done].
      simpl in Hi. injection Hi as <-. destruct (Hlis i tex0 E) as [H1 H2].
      destruct (Hf tex0) as [[-> ->] | [-> ->]]; done.
    - rewrite list_lookup_alter_ne in Hi by done. by eapply Hlis. }
  destruct ev as [t|t|l cs' made|l]; simpl.
  - destruct (textureObjs w !! t) as [tex|] eqn:E.
    + destruct (decide (status tex = Pending)).
      * destruct (Hlis t tex E) as [-> _]. simpl.
        rewrite drain_nil by done. apply Halter. intros tex'. by left.
      * rewrite drain_nil by done. done.
    + rewrite drain_nil by done. done.
  - destruct (textureObjs w !! t) as [tex|] eqn:E.
    + destruct (decide (status tex = Pending)).
      * destruct (Hlis t tex E) as [_ ->]. simpl.
        rewrite drain_nil by done. apply Halter. intros tex'. by right.
      * rewrite drain_nil by done. done.
    + rewrite drain_nil by done. done.
  - destruct (loaders w !! l) as [ld|] eqn:E.
    + rewrite decide_False by (by eapply Hl). rewrite drain_nil by done. done.
    + rewrite drain_nil by done. done.
  - destruct (loaders w !! l) as [ld|] eqn:E.
    + rewrite decide_False by (by eapply Hl). rewrite drain_nil by done. done.
    + rewrite drain_nil by done. done.
Qed.

Lemma immediate_turns cs N fuel evs w :
  ImmediateInv cs N w → ImmediateInv cs N (turns fuel evs w).
Proof.
  revert w. induction evs as [|ev evs IH]; intros w Hw; [done |].
  simpl. apply IH. by apply immediate_turn.
Qed.

Lemma failed_turns fuel evs w : FailedInv w → turns fuel evs w = w.
Proof.
  intros [Hj Hs Ht Hl Hp]. induction evs as [|ev evs IH]; [done |].
  simpl. assert (turn fuel w ev = w) as ->; [| exact IH].
  unfold turn. rewrite deliver_settled; [by rewrite drain_nil | | done].
  unfold pendingCount. by rewrite Ht.
Qed.

Lemma model_failed lib url opts fuel :
  FailedInv (turn fuel (modelWorld lib url opts) (ModelFailed 0)).
Proof.
  unfold turn. simpl. rewrite drain_nil by done.
  split; try done.
  intros l ld Hl. destruct l; simpl in Hl; [by injection Hl as <- | done].
Qed.

(** Before the loader settles, no other event changes anything. *)
Lemma model_pending_turn lib url opts fuel ev :
  (∀ cs made, ev ≠ ModelLoaded 0 cs made) → ev ≠ ModelFailed 0 →
  turn fuel (modelWorld lib url opts) ev = modelWorld lib url opts.
Proof.
  intros H1 H2. unfold turn.
  assert (deliver ev (modelWorld lib url opts) = modelWorld lib url opts) as ->.
  { destruct ev as [t|t|l cs' made|l]; simpl; try done.
    - destruct l; [by destruct (H1 cs' made) | done].
    - destruct l; [done | done]. }
  by rewrite drain_nil.
Qed.

Lemma fuelFor_min evs : 3 ≤ fuelFor evs.
Proof. induction evs as [|[] evs IH]; simpl; lia. Qed.

(** ** The claims about [loadModel] *)

Lemma forallb_by_index {A} (f : A → bool) (g : nat → bool) (l : list A) :
  (∀ i x, l !! i = Some x → f x = g i) →
  forallb f l = forallb g (seq 0 (length l)).
Proof.
  induction l as [|x l IH] using rev_ind; intros H; [done |].
  rewrite length_app. simpl length.
  replace (length l + 1) with (S (length l)) by lia.
  rewrite seq_S, !forallb_app. simpl. f_equal.
  - apply IH. intros i y Hi. apply H. rewrite lookup_app_l; [done |].
    by eapply lookup_lt_Some.
  - f_equal. apply H. apply lookup_snoc_fresh.
Qed.

Lemma allSettled_own w n :
  length (textureObjs w) = n → allSettled w = settledIn 0 n w.
Proof.
  intros <-. unfold allSettled, settledIn. apply forallb_by_index.
  intros i tex Hi. unfold statusOf. rewrite Hi. simpl. f_equal.
  apply bool_decide_ext. split; [by intros -> | by intros [= ->]].
Qed.

Lemma stuckCount_zero made : stuckCount made = 0 ↔ Failed ∉ made.
Proof.
  unfold stuckCount. induction made as [|r made IH]; [split; [intros _; apply not_elem_of_nil | done] |].
  destruct (decide (r = Failed)) as [->|Hne].
  - rewrite filter_cons_True by done. simpl. split; [lia |].
    intros H. exfalso. apply H. by apply elem_of_cons; left.
  - rewrite filter_cons_False by done. rewrite IH. rewrite elem_of_cons. split.
    + intros H [Heq|Hin]; [by apply Hne | done].
    + intros H Hin. apply H. by right.
Qed.




(** C5. Whatever events follow the call, in either insertion policy, the
    promise [loadModel] returned is rejected exactly when the loader's
    own load ended with its error event; texture failures never reject it. *)
Theorem loadModel_rejects_iff_loader_fails
    (lib : Value → gmap string Uniform) (url : string) (opts : option ModelOpts)
    (evs : list Event) (fuel : nat) :
  fuelFor evs ≤ fuel →
  isRejected (stateOf 0 (turns fuel evs (modelWorld lib url opts)))
  = bool_decide (loaderOutcome 0 evs = Failed).
Proof.
  induction evs as [|ev evs IH]; intros Hfuel; [done |].
  assert (3 ≤ fuel) as H3 by (pose proof (fuelFor_min (ev :: evs)); lia).
  assert (∀ cs made, ev = ModelLoaded 0 cs made →
            isRejected (stateOf 0 (turns fuel (ev :: evs) (modelWorld lib url opts))) = false)
    as Hloaded.
  { intros cs made ->. simpl in Hfuel.
    assert (modelWorld lib url opts = modelWorld lib url (Some (default noModelOpts opts)))
      as -> by (by destruct opts).
    simpl. destruct (waitTextureLoaded (default noModelOpts opts)) eqn:Hwait.
    - eapply wait_observed, wait_turns; [| done].
      apply model_loaded_wait; [done | lia].
    - pose proof (immediate_turns cs (length made) fuel evs _
                    (model_loaded_immediate lib url _ cs made fuel Hwait)) as Hinv.
      by rewrite (ii_p _ _ _ Hinv). }
  destruct ev as [t|t|l cs made|l].
  - simpl. rewrite model_pending_turn by done. by apply IH.
  - simpl. rewrite model_pending_turn by done. by apply IH.
  - destruct l as [|l].
    + rewrite (Hloaded cs made eq_refl). done.
    + simpl. rewrite model_pending_turn by congruence. apply IH. simpl in Hfuel. lia.
  - destruct l as [|l].
    + simpl. rewrite failed_turns by apply model_failed.
      by rewrite (xi_p _ (model_failed lib url opts fuel)).
    + simpl. rewrite model_pending_turn by congruence. by apply IH.
Qed.

Lemma loadModel_rejects_iff_loader_fails_witness :
  isRejected (stateOf 0 (turns 5
     [ModelLoaded 0 [] [Pending; Pending]; TextureFailed 0; TextureFailed 1]
     (modelWorld (λ _, ∅) "model.gltf"
        (Some {| shader := None; waitTextureLoaded := true; autoPlayAnimation := false;
                 textureRootPath := None; textureFlipY := false |}))))
  = false
  ∧ isRejected (stateOf 0 (turns 3 [TextureFailed 0; ModelFailed 0]
                            (modelWorld (λ _, ∅) "model.gltf" None)))
    = true.
Proof.
  split.
  - apply (loadModel_rejects_iff_loader_fails (λ _, ∅) "model.gltf"
             (Some {| shader := None; waitTextureLoaded := true; autoPlayAnimation := false;
                      textureRootPath := None; textureFlipY := false |})
             [ModelLoaded 0 [] [Pending; Pending]; TextureFailed 0; TextureFailed 1] 5).
    simpl. lia.
  - apply (loadModel_rejects_iff_loader_fails (λ _, ∅) "model.gltf" None
             [TextureFailed 0; ModelFailed 0] 3).
    simpl. lia.
Defined.

(** *** Uniform cells *)

Lemma uniformCell_setUniform key key' val w :
  uniformCell 0 key' (setUniform 0 key val w)
  = if decide (key = key')
    then (λ u, {| utype := utype u; uvalue := val |}) <$> uniformCell 0 key' w
    else uniformCell 0 key' w.
Proof.
  unfold uniformCell, setUniform. simpl. rewrite list_lookup_alter_eq.
  destruct (materials w !! 0) as [mat|]; simpl; [| by destruct (decide _)].
  destruct (decide (key = key')) as [->|Hne].
  - by rewrite lookup_alter_eq.
  - by rewrite lookup_alter_ne.
Qed.

Lemma uniformCell_materials m key w w' :
  materials w' = materials w → uniformCell m key w' = uniformCell m key w.
Proof. unfold uniformCell. by intros ->. Qed.

(** *** Config entries *)

Lemma textureEntries_snoc U entries kv :
  textureEntries U (entries ++ [kv])
  = textureEntries U entries ++ (if isTextureEntry U kv then [kv] else []).
Proof.
  unfold textureEntries. rewrite filter_app. f_equal.
  destruct (isTextureEntry U kv) eqn:E.
  - by rewrite filter_cons_True.
  - rewrite filter_cons_False; [done | congruence].
Qed.

Lemma textureEntries_elem U entries j key val :
  textureEntries U entries !! j = Some (key, val) →
  (key, val) ∈ entries ∧ isTextureEntry U (key, val) = true.
Proof.
  intros H. apply list_elem_of_lookup_2 in H.
  unfold textureEntries in H. apply list_elem_of_filter in H. by destruct H.
Qed.

Lemma nodup_keys_value (entries : list (string * Value)) key v v' :
  NoDup entries.*1 → (key, v) ∈ entries → (key, v') ∈ entries → v = v'.
Proof.
  induction entries as [|[k x] entries IH]; intros Hnd H1 H2.
  - by apply elem_of_nil in H1.
  - rewrite fmap_cons in Hnd. apply NoDup_cons in Hnd as [Hk Hnd]. simpl in Hk.
    apply elem_of_cons in H1 as [H1|H1]; apply elem_of_cons in H2 as [H2|H2].
    + congruence.
    + injection H1 as -> ->. destruct Hk.
      apply (list_elem_of_fmap_2 fst) in H2. exact H2.
    + injection H2 as -> ->. destruct Hk.
      apply (list_elem_of_fmap_2 fst) in H1. exact H1.
    + by apply IH.
Qed.

Lemma nodup_keys_textureEntries U entries :
  NoDup entries.*1 → NoDup (textureEntries U entries).*1.
Proof.
  unfold textureEntries. induction entries as [|[k x] entries IH]; intros Hnd; [done |].
  rewrite fmap_cons in Hnd. apply NoDup_cons in Hnd as [Hk Hnd]. simpl in Hk.
  destruct (decide (isTextureEntry U (k, x) = true)).
  - rewrite filter_cons_True by done. rewrite fmap_cons. apply NoDup_cons. split; [| by apply IH].
    simpl. intros Hin. apply Hk.
    apply list_elem_of_fmap in Hin as ([k' x'] & -> & Hin).
    apply list_elem_of_filter in Hin as [_ Hin].
    apply (list_elem_of_fmap_2 fst) in Hin. exact Hin.
  - rewrite filter_cons_False by done. by apply IH.
Qed.

(** Two texture entries with the same key are the same entry. *)
Lemma textureEntries_same_key U entries j j' key val val' :
  NoDup entries.*1 →
  textureEntries U entries !! j = Some (key, val) →
  textureEntries U entries !! j' = Some (key, val') →
  j = j'.
Proof.
  intros Hnd H1 H2. apply (nodup_keys_textureEntries U) in Hnd.
  eapply (NoDup_lookup _ j j' key Hnd); rewrite list_lookup_fmap.
  - by rewrite H1.
  - by rewrite H2.
Qed.

Section material.
Context (U : gmap string Uniform) (entries : list (string * Value)).
Hypothesis entries_nodup : NoDup entries.*1.

(** One setter microtask. *)
Lemma mat_job_step j key queued w :
  MatInv U entries ((j, key) :: queued) w →
  MatInv U entries queued (runJob (setterJob (j, key)) (withJobs (setterJob <$> queued) w)).
Proof.
  intros [Hj Hnd Hq Hnt Hnp Ht Hd Hpl Hr Hl].
  rewrite fmap_cons in Hnd. apply NoDup_cons in Hnd as [Hjq Hnd]. simpl in Hjq.
  destruct (Hq j key) as [val Hent]; [by apply elem_of_cons; left |].
  apply lookup_lt_Some in Hent as HjN.
  destruct (Hd j HjN) as (pr & Hpr & Hrs).
  unfold runJob. simpl jobHandler. cbv iota. simpl jobArg. simpl jobDerived.
  unfold call.
  set (w1 := setUniform 0 key (VTexture j) (withJobs (setterJob <$> queued) w)).
  destruct (settle_quiet (2 * j + 1) true VUndefined w1 pr) as (pr' & Hrs' & ->);
    [done | done |].
  assert (∀ key', uniformCell 0 key' (withPromises (<[2 * j + 1 := pr']> (promises w1)) w1)
                  = if decide (key = key')
                    then (λ u, {| utype := utype u; uvalue := VTexture j |})
                           <$> uniformCell 0 key' w
                    else uniformCell 0 key' w) as Hcell.
  { intros key'. subst w1. rewrite (uniformCell_materials _ _ (setUniform 0 key (VTexture j) w)) by done.
    apply uniformCell_setUniform. }
  split; simpl; try done.
  - intros j' key' Hin. apply Hq. by apply elem_of_cons; right.
  - by rewrite length_insert.
  - intros j' key' val' Hent'.
    destruct (Ht j' key' val' Hent') as (tex & u & Htex & Hu & Hc & Hpe & Hqd).
    exists tex, u. split; [done |]. split; [done |]. split; [| split].
    + rewrite Hcell. destruct (decide (key = key')) as [<-|Hne].
      * assert (j = j') as <- by (by eapply textureEntries_same_key).
        rewrite Hc. simpl. f_equal. f_equal.
        rewrite decide_True; [done |]. split; [| done].
        apply Hqd. rewrite fmap_cons. by apply elem_of_cons; left.
      * rewrite Hc. do 2 f_equal.
        assert (j' ≠ j) as Hjj.
        { intros ->. rewrite Hent in Hent'. congruence. }
        destruct (decide (status tex = Ready ∧ j' ∉ ((j, key) :: queued).*1)) as [[H1 H2]|Hn].
        -- rewrite decide_True; [done |]. split; [done |].
           intros Hin. apply H2. rewrite fmap_cons. by apply elem_of_cons; right.
        -- rewrite decide_False; [done |]. intros [H1 H2]. apply Hn. split; [done |].
           rewrite fmap_cons. intros Hin. apply elem_of_cons in Hin as [Hin|Hin]; [done | by apply H2].
    + intros Hpen. destruct (Hpe Hpen) as (? & ? & ?). repeat split; try done.
      rewrite list_lookup_insert_ne by lia. done.
    + intros Hin. apply Hqd. rewrite fmap_cons. by apply elem_of_cons; right.
  - intros j' Hj'. destruct (decide (j' = j)) as [->|Hne].
    + exists pr'. split; [| done]. apply list_lookup_insert_eq. by eapply lookup_lt_Some.
    + rewrite list_lookup_insert_ne by lia. by apply Hd.
  - intros key' val' u Hin Hu Hplain. rewrite Hcell.
    rewrite decide_False; [by eapply Hpl |].
    intros <-. apply textureEntries_elem in Hent as [Hin' Htrue].
    assert (val = val') as -> by (by eapply nodup_keys_value). congruence.
  - intros key' Hout. rewrite Hcell. rewrite decide_False; [by apply Hr |].
    intros <-. apply Hout. apply textureEntries_elem in Hent as [Hin' _].
    apply (list_elem_of_fmap_2 fst) in Hin'. exact Hin'.
Qed.

Lemma mat_drain queued w fuel :
  MatInv U entries queued w → length queued ≤ fuel →
  MatInv U entries [] (drain fuel w).
Proof.
  revert w fuel. induction queued as [|[j key] queued IH]; intros w fuel Hinv Hfuel.
  - by rewrite drain_nil by apply Hinv.
  - destruct fuel as [|fuel]; [simpl in Hfuel; lia |].
    rewrite (drain_cons _ _ _ _ (mt_jobs _ _ _ _ Hinv)).
    apply IH; [by apply mat_job_step | simpl in Hfuel; lia].
Qed.

(** A texture of the material settles. *)
Lemma mat_texture_settles (ok : bool) j tex w fuel :
  MatInv U entries [] w →
  textureObjs w !! j = Some tex → status tex = Pending →
  MatInv U entries []
    (drain (S fuel) (deliver (if ok then TextureLoaded j else TextureFailed j) w)).
Proof.
  intros Hinv Hj Hpe.
  pose proof Hinv as [Hjobs Hnd Hq Hnt Hnp Ht Hd Hpl Hr Hl].
  assert (j < length (textureEntries U entries)) as HjN
    by (rewrite <- Hnt; by eapply lookup_lt_Some).
  destruct (lookup_lt_is_Some_2 _ _ HjN) as [[key val] Hent].
  destruct (Ht j key val Hent) as (tex' & u & Htex' & Hu & Hc & Hlis & _).
  rewrite Hj in Htex'. injection Htex' as <-.
  destruct (Hlis Hpe) as (Hsl & Hel & Hp).
  destruct (Hd j HjN) as (pr & Hpr & Hrs).
  set (f := λ tex : Texture,
         if ok
         then {| status := Ready; image := image tex; dynamic := dynamic tex;
                 texOpts := texOpts tex; successListeners := [];
                 errorListeners := errorListeners tex |}
         else {| status := Failed; image := image tex; dynamic := dynamic tex;
                 texOpts := texOpts tex; successListeners := successListeners tex;
                 errorListeners := [] |}).
  assert (deliver (if ok then TextureLoaded j else TextureFailed j) w
          = settle (2 * j) ok (if ok then VTexture j else VUndefined) (alterTexture f j w)) as ->.
  { destruct ok; simpl; rewrite Hj; rewrite decide_True by done.
    - by rewrite Hsl.
    - by rewrite Hel. }
  rewrite (settle_pending (2 * j) ok _ _ [setterReaction key j]) by done.
  change (jobs (alterTexture f j w)) with (jobs w). rewrite Hjobs.
  change (promises (alterTexture f j w)) with (promises w).
  set (w1 := withPromises _ (alterTexture f j w)).
  destruct ok.
  - (* success: the setter is queued, then runs *)
    apply (mat_drain [(j, key)]); [| simpl; lia].
    split; simpl; try done.
    + apply NoDup_singleton.
    + intros j' key' Hin. apply list_elem_of_singleton in Hin. injection Hin as -> ->.
      by exists val.
    + by rewrite length_alter.
    + by rewrite length_insert.
    + intros j' key' val' Hent'.
      destruct (Ht j' key' val' Hent') as (tex' & u' & Htex' & Hu' & Hc' & Hlis' & Hqd).
      destruct (decide (j' = j)) as [->|Hne].
      * rewrite Hent in Hent'. injection Hent' as <- <-.
        rewrite Hj in Htex'. injection Htex' as <-. rewrite Hu in Hu'. injection Hu' as <-.
        exists (f tex), u. rewrite list_lookup_alter_eq, Hj. repeat split; try done.
        -- rewrite (uniformCell_materials _ _ w) by done. rewrite Hc. do 2 f_equal.
           rewrite decide_False by (rewrite Hpe; intros [? _]; done).
           rewrite decide_False; [done |]. intros [_ Hout]. apply Hout.
           by apply list_elem_of_singleton.
      * exists tex', u'. rewrite list_lookup_alter_ne by done. repeat split; try done.
        -- rewrite (uniformCell_materials _ _ w) by done. rewrite Hc'. do 2 f_equal.
           destruct (decide (status tex' = Ready ∧ j' ∉ [].*1)) as [[H1 H2]|Hn].
           ++ rewrite decide_True; [done |]. split; [done |].
              intros Hin. apply list_elem_of_singleton in Hin. done.
           ++ rewrite decide_False; [done |]. intros [H1 H2]. apply Hn. split; [done |].
              apply not_elem_of_nil.
        -- by apply Hlis'.
        -- by apply Hlis'.
        -- rewrite list_lookup_insert_ne by lia. by apply Hlis'.
        -- intros Hin. apply list_elem_of_singleton in Hin. done.
    + intros j' Hj'. rewrite list_lookup_insert_ne by lia. by apply Hd.
  - (* failure: the rejection passes to the promise of [then] *)
    erewrite drain_cons by reflexivity.
    unfold runJob. simpl jobHandler. cbv iota. simpl jobDerived. simpl jobArg. simpl jobFulfilled.
    change (withJobs [] (withJobs _ w1)) with (withJobs [] w1).
    destruct (settle_quiet (2 * j + 1) false VUndefined (withJobs [] w1) pr) as (pr' & Hrs' & ->);
      [subst w1; simpl; by rewrite list_lookup_insert_ne by lia | done |].
    rewrite drain_nil by done.
    split; simpl; try done.
    + by rewrite length_alter.
    + by rewrite !length_insert.
    + intros j' key' val' Hent'.
      destruct (Ht j' key' val' Hent') as (tex' & u' & Htex' & Hu' & Hc' & Hlis' & Hqd).
      destruct (decide (j' = j)) as [->|Hne].
      * rewrite Hent in Hent'. injection Hent' as <- <-.
        rewrite Hj in Htex'. injection Htex' as <-. rewrite Hu in Hu'. injection Hu' as <-.
        exists (f tex), u. rewrite list_lookup_alter_eq, Hj.
        repeat split; try done; try (intros Hin; by apply elem_of_nil in Hin).
        rewrite (uniformCell_materials _ _ w) by done. rewrite Hc. do 2 f_equal.
        rewrite decide_False by (rewrite Hpe; intros [? _]; done).
        rewrite decide_False; [done |]. intros [? _]. done.
      * exists tex', u'. rewrite list_lookup_alter_ne by done.
        repeat split; try done; try (intros Hin; by apply elem_of_nil in Hin).
        -- by apply Hlis'.
        -- by apply Hlis'.
        -- rewrite !list_lookup_insert_ne by lia. by apply Hlis'.
    + intros j' Hj'. destruct (decide (j' = j)) as [->|Hne].
      * exists pr'. split; [| done]. apply list_lookup_insert_eq.
        rewrite length_insert. by eapply lookup_lt_Some.
      * rewrite !list_lookup_insert_ne by lia. by apply Hd.
Qed.

Lemma mat_turn fuel w ev :
  MatInv U entries [] w → 1 ≤ fuel → MatInv U entries [] (turn fuel w ev).
Proof.
  intros Hinv Hfuel. unfold turn.
  destruct fuel as [|fuel]; [lia |].
  assert (∀ (ok : bool) t, MatInv U entries [] (drain (S fuel)
            (deliver (if ok then TextureLoaded t else TextureFailed t) w))) as Htex.
  { intros ok t. destruct (textureObjs w !! t) as [tex|] eqn:Ht.
    - destruct (decide (status tex = Pending)) as [Hpe|Hpe].
      + by eapply mat_texture_settles.
      + destruct ok; simpl; rewrite Ht, decide_False by done;
          by rewrite drain_nil by apply Hinv.
    - destruct ok; simpl; rewrite Ht; by rewrite drain_nil by apply Hinv. }
  destruct ev as [t|t|l cs made|l].
  - apply (Htex true t).
  - apply (Htex false t).
  - simpl. rewrite (mt_loaders _ _ _ _ Hinv). simpl.
    by rewrite drain_nil by apply Hinv.
  - simpl. rewrite (mt_loaders _ _ _ _ Hinv). simpl.
    by rewrite drain_nil by apply Hinv.
Qed.

Lemma mat_turns fuel evs w :
  MatInv U entries [] w → 1 ≤ fuel → MatInv U entries [] (turns fuel evs w).
Proof.
  revert w. induction evs as [|ev evs IH]; intros w Hw Hfuel; [done |].
  simpl. apply IH; [by apply mat_turn | done].
Qed.

End material.

(** *** [createMaterial]'s loop *)

(** [loadTexture] on any world: one fresh texture, one fresh promise. *)
Lemma loadTexture_fresh val opts w :
  ∃ tex cell,
    loadTexture val opts w
    = (length (promises w),
       withPromises (promises w ++ [cell]) (withTextures (textureObjs w ++ [tex]) w))
    ∧ if typeofString val
      then status tex = Pending
           ∧ successListeners tex
             = [ResolveTexture (length (promises w)) (length (textureObjs w))]
           ∧ errorListeners tex = [RejectPlain (length (promises w))]
           ∧ cell = pendingPromise
      else status tex = Ready
           ∧ cell = {| pstate := PFulfilled (VTexture (length (textureObjs w)));
                       reactions := [] |}.
Proof.
  destruct w as [ps als js ts ls ms sn tc nc lib].
  destruct val; unfold loadTexture, newPromise, loadTextureSync, isRenderable;
    simpl; rewrite lookup_snoc_fresh; simpl;
    unfold settle, textureOnError, textureOnSuccess, alterTexture; simpl;
    rewrite ?lookup_snoc_fresh, ?alter_snoc_fresh, ?insert_snoc_fresh; simpl;
    rewrite ?alter_snoc_fresh; simpl;
    eexists _, _; (split; [unfold withPromises, withTextures, withJobs; simpl;
                           rewrite ?app_nil_r; reflexivity |]); simpl; try done.
Qed.

Lemma configureUniform_cell w key val :
  configureUniform 0 w (key, val)
  = match uniformCell 0 key w with
    | Some u =>
        if String.eqb (utype u) "t" || isImageLikeElement val
        then (then_ (loadTexture val VUndefined w).1 (Some (TextureSetter 0 key)) None
                (loadTexture val VUndefined w).2).2
        else setUniform 0 key val w
    | None => w
    end.
Proof.
  unfold configureUniform, uniformCell. simpl. by destruct (materials w !! 0).
Qed.

Lemma uniform_eta (u : Uniform) : {| utype := utype u; uvalue := uvalue u |} = u.
Proof. by destruct u. Qed.

Section configure.
Context (U : gmap string Uniform).

(** One iteration of [for (var key in matConfig)]. *)
Lemma mat_configure done key val queued w :
  NoDup (done ++ [(key, val)]).*1 →
  MatInv U done queued w → readyQueued queued w →
  ∃ queued',
    MatInv U (done ++ [(key, val)]) queued' (configureUniform 0 w (key, val))
    ∧ readyQueued queued' (configureUniform 0 w (key, val))
    ∧ length queued' ≤ S (length queued).
Proof.
  intros Hnd Hinv Hrq.
  pose proof Hinv as [Hj Hndq Hq Hnt Hnp Ht Hd Hpl Hr Hl].
  rewrite fmap_app in Hnd. apply NoDup_app in Hnd as (Hnd & Hfresh & _).
  assert (key ∉ done.*1) as Hkey.
  { intros Hin. apply (Hfresh key Hin). simpl. by apply list_elem_of_singleton. }
  assert (∀ key', key' ∈ done.*1 → key' ≠ key) as Hother by (intros key' Hin ->; done).
  set (J := length (textureEntries U done)) in *.
  assert (∀ j k, (j, k) ∈ queued → j < J) as Hqlt.
  { intros j k Hin. destruct (Hq j k Hin) as [v Hv]. by eapply lookup_lt_Some. }
  assert (J ∉ queued.*1) as HJq.
  { intros Hin. apply list_elem_of_fmap in Hin as ([j k] & Hjk & Hin). simpl in Hjk. subst j.
    specialize (Hqlt _ _ Hin). lia. }
  rewrite configureUniform_cell, (Hr key Hkey).
  destruct (U !! key) as [u|] eqn:HU.
  - destruct (String.eqb (utype u) "t" || isImageLikeElement val) eqn:Hbranch.
    + (* a texture is loaded for this key *)
      assert (isTextureEntry U (key, val) = true) as Hte
        by (unfold isTextureEntry; simpl; by rewrite HU).
      assert (textureEntries U (done ++ [(key, val)])
              = textureEntries U done ++ [(key, val)]) as Htks
        by (by rewrite textureEntries_snoc, Hte).
      destruct (loadTexture_fresh val VUndefined w) as (tex & cell & -> & Hspec).
      simpl fst. simpl snd. rewrite Hnt, Hnp in Hspec. fold J in Hspec.
      set (w1 := withPromises (promises w ++ [cell]) (withTextures (textureObjs w ++ [tex]) w)).
      assert (promises w1 !! (length (promises w)) = Some cell) as Hcell
        by apply lookup_snoc_fresh.
      assert (∀ j' key' val', textureEntries U done !! j' = Some (key', val') →
                j' < J ∧ key' ≠ key) as Hold.
      { intros j' key' val' He. split; [by eapply lookup_lt_Some |].
        apply Hother. apply textureEntries_elem in He as [Hin _].
        apply (list_elem_of_fmap_2 fst) in Hin. exact Hin. }
      destruct (typeofString val) eqn:Himg.
      * (* the load is outstanding: the setter waits on the promise *)
        destruct Hspec as (Hpend & Hsl & Hel & ->).
        rewrite (then_pending _ _ _ _ _ Hcell). simpl snd.
        exists queued. split; [| split].
        -- split; simpl.
           ++ done.
           ++ done.
           ++ intros j k Hin. rewrite Htks.
              destruct (Hq j k Hin) as [v Hv]. exists v. by rewrite lookup_app_l by (by eapply lookup_lt_Some).
           ++ rewrite Htks, !length_app. simpl. lia.
           ++ rewrite length_insert, Htks, !length_app. simpl. lia.
           ++ intros j' key' val' He. rewrite Htks in He.
              destruct (decide (j' < J)) as [Hlt|Hge].
              ** rewrite lookup_app_l in He by done.
                 destruct (Ht j' key' val' He) as (tex' & u' & Htex' & Hu' & Hc' & Hlis' & Hqd).
                 exists tex', u'. rewrite lookup_app_l by lia. repeat split; try done.
                 --- by apply Hlis'.
                 --- by apply Hlis'.
                 --- rewrite list_lookup_insert_ne by lia.
                     rewrite !lookup_app_l by solve_len. by apply Hlis'.
              ** apply lookup_lt_Some in He as Hlen. rewrite length_app in Hlen. simpl in Hlen.
                 assert (j' = J) as -> by (fold J in Hlen; lia).
                 rewrite (lookup_snoc_at _ _ J eq_refl) in He. injection He as <- <-.
                 exists tex, u. rewrite (lookup_snoc_at _ tex J Hnt). repeat split; try done.
                 --- rewrite (uniformCell_materials _ _ w) by done. rewrite (Hr key Hkey), HU.
                     rewrite decide_False; [by rewrite uniform_eta |].
                     intros [Hst _]. rewrite Hpend in Hst. done.
                 --- rewrite length_app, !Hnp. simpl length.
                     rewrite list_lookup_insert_eq by solve_len.
                     unfold setterReaction. first [done | do 4 f_equal; lia].
           ++ intros j' Hj'. rewrite Htks, length_app in Hj'. simpl in Hj'. fold J in Hj'.
              rewrite list_lookup_insert_ne by lia.
              destruct (decide (j' < J)) as [Hlt|Hge].
              ** rewrite !lookup_app_l by solve_len. by apply Hd.
              ** assert (j' = J) as -> by lia. exists pendingPromise. split; [| done].
                 apply lookup_snoc_at. rewrite length_app. simpl. lia.
           ++ intros key' val' u' Hin Hu' Hplain. rewrite (uniformCell_materials _ _ w) by done.
              apply elem_of_app in Hin as [Hin|Hin]; [by eapply Hpl |].
              apply list_elem_of_singleton in Hin. injection Hin as -> ->. congruence.
           ++ intros key' Hout. rewrite (uniformCell_materials _ _ w) by done. apply Hr.
              intros Hin. apply Hout. rewrite fmap_app. apply elem_of_app. by left.
           ++ done.
        -- intros j tex' Htex' Hst. simpl in Htex'.
           destruct (decide (j < J)) as [Hlt|Hge].
           ++ rewrite lookup_app_l in Htex' by lia. by eapply Hrq.
           ++ apply lookup_lt_Some in Htex' as Hlen. rewrite length_app in Hlen. simpl in Hlen.
              assert (j = J) as -> by lia. rewrite <- Hnt, lookup_snoc_fresh in Htex'.
              injection Htex' as <-. rewrite Hpend in Hst. done.
        -- lia.
      * (* renderable at once: the setter is queued *)
        destruct Hspec as [Hready ->].
        rewrite (then_fulfilled _ _ _ _ _ _ Hcell). simpl snd.
        exists (queued ++ [(J, key)]). split; [| split].
        -- split; simpl.
           ++ rewrite Hj, fmap_app. simpl. rewrite length_app, Hnp. simpl.
              unfold setterJob, setterReaction. simpl. first [done | do 4 f_equal; lia].
           ++ rewrite fmap_app. apply NoDup_app. split; [done |]. split; [| apply NoDup_singleton].
              intros j Hin Hin'. apply list_elem_of_singleton in Hin'. by subst j.
           ++ intros j k Hin. rewrite Htks. apply elem_of_app in Hin as [Hin|Hin].
              ** destruct (Hq j k Hin) as [v Hv]. exists v. by rewrite lookup_app_l by (by eapply lookup_lt_Some).
              ** apply list_elem_of_singleton in Hin. injection Hin as -> ->. exists val.
                 by apply lookup_snoc_at.
           ++ rewrite Htks, !length_app. simpl. lia.
           ++ rewrite Htks, !length_app. simpl. lia.
           ++ intros j' key' val' He. rewrite Htks in He.
              destruct (decide (j' < J)) as [Hlt|Hge].
              ** rewrite lookup_app_l in He by done.
                 destruct (Ht j' key' val' He) as (tex' & u' & Htex' & Hu' & Hc' & Hlis' & Hqd).
                 exists tex', u'. rewrite lookup_app_l by lia. repeat split; try done.
                 --- rewrite (uniformCell_materials _ _ w) by done. rewrite Hc'. do 2 f_equal.
                     destruct (decide (status tex' = Ready ∧ j' ∉ queued.*1)) as [[H1 H2]|Hn].
                     +++ rewrite decide_True; [done |]. split; [done |]. rewrite fmap_app.
                         intros Hin. apply elem_of_app in Hin as [Hin|Hin]; [done |].
                         apply list_elem_of_singleton in Hin. simpl in Hin. lia.
                     +++ rewrite decide_False; [done |]. intros [H1 H2]. apply Hn. split; [done |].
                         intros Hin. apply H2. rewrite fmap_app. apply elem_of_app. by left.
                 --- by apply Hlis'.
                 --- by apply Hlis'.
                 --- rewrite !lookup_app_l by solve_len. by apply Hlis'.
                 --- rewrite fmap_app. intros Hin. apply elem_of_app in Hin as [Hin|Hin]; [by apply Hqd |].
                     apply list_elem_of_singleton in Hin. simpl in Hin. lia.
              ** apply lookup_lt_Some in He as Hlen. rewrite length_app in Hlen. simpl in Hlen.
                 assert (j' = J) as -> by (fold J in Hlen; lia).
                 rewrite (lookup_snoc_at _ _ J eq_refl) in He. injection He as <- <-.
                 exists tex, u. rewrite (lookup_snoc_at _ tex J Hnt). repeat split; try done.
                 --- rewrite (uniformCell_materials _ _ w) by done. rewrite (Hr key Hkey), HU.
                     rewrite decide_False; [by rewrite uniform_eta |].
                     intros [_ Hout]. apply Hout. rewrite fmap_app. apply elem_of_app. right.
                     by apply list_elem_of_singleton.
                 --- congruence.
                 --- congruence.
                 --- congruence.
           ++ intros j' Hj'. rewrite Htks, length_app in Hj'. simpl in Hj'. fold J in Hj'.
              destruct (decide (j' < J)) as [Hlt|Hge].
              ** rewrite !lookup_app_l by solve_len. by apply Hd.
              ** assert (j' = J) as -> by lia. exists pendingPromise. split; [| done].
                 apply lookup_snoc_at. rewrite length_app. simpl. lia.
           ++ intros key' val' u' Hin Hu' Hplain. rewrite (uniformCell_materials _ _ w) by done.
              apply elem_of_app in Hin as [Hin|Hin]; [by eapply Hpl |].
              apply list_elem_of_singleton in Hin. injection Hin as -> ->. congruence.
           ++ intros key' Hout. rewrite (uniformCell_materials _ _ w) by done. apply Hr.
              intros Hin. apply Hout. rewrite fmap_app. apply elem_of_app. by left.
           ++ done.
        -- intros j tex' Htex' Hst. simpl in Htex'. rewrite fmap_app. apply elem_of_app.
           destruct (decide (j < J)) as [Hlt|Hge].
           ++ left. rewrite lookup_app_l in Htex' by lia. by eapply Hrq.
           ++ right. apply lookup_lt_Some in Htex' as Hlen. rewrite length_app in Hlen. simpl in Hlen.
              assert (j = J) as -> by lia. by apply list_elem_of_singleton.
        -- rewrite length_app. simpl. lia.
    + (* a plain value is set at once *)
      assert (isTextureEntry U (key, val) = false) as Hte
        by (unfold isTextureEntry; simpl; by rewrite HU).
      assert (textureEntries U (done ++ [(key, val)]) = textureEntries U done) as Htks
        by (by rewrite textureEntries_snoc, Hte, app_nil_r).
      exists queued. split; [| split; [done | lia]].
      split; simpl; try done.
      * by rewrite Htks.
      * by rewrite Htks.
      * by rewrite Htks.
      * intros j' key' val' He. rewrite Htks in He.
        destruct (Ht j' key' val' He) as (tex' & u' & Htex' & Hu' & Hc' & Hlis' & Hqd).
        exists tex', u'. repeat split; try done; try (by apply Hlis').
        rewrite uniformCell_setUniform. rewrite decide_False; [done |].
        intros <-. apply Hkey. apply textureEntries_elem in He as [Hin _].
        apply (list_elem_of_fmap_2 fst) in Hin. exact Hin.
      * by rewrite Htks.
      * intros key' val' u' Hin Hu' Hplain. rewrite uniformCell_setUniform.
        apply elem_of_app in Hin as [Hin|Hin].
        -- rewrite decide_False; [by eapply Hpl |]. intros <-. apply Hkey.
           apply (list_elem_of_fmap_2 fst) in Hin. exact Hin.
        -- apply list_elem_of_singleton in Hin. injection Hin as -> ->.
           rewrite decide_True by done. rewrite (Hr key Hkey), HU. simpl.
           rewrite HU in Hu'. by injection Hu' as <-.
      * intros key' Hout. rewrite uniformCell_setUniform.
        rewrite decide_False; [apply Hr |].
        -- intros Hin. apply Hout. rewrite fmap_app. apply elem_of_app. by left.
        -- intros <-. apply Hout. rewrite fmap_app. apply elem_of_app. right.
           by apply list_elem_of_singleton.
  - (* not a uniform of the shader *)
    assert (isTextureEntry U (key, val) = false) as Hte
      by (unfold isTextureEntry; simpl; by rewrite HU).
    assert (textureEntries U (done ++ [(key, val)]) = textureEntries U done) as Htks
      by (by rewrite textureEntries_snoc, Hte, app_nil_r).
    exists queued. split; [| split; [done | lia]].
    split; simpl; try done.
    + by rewrite Htks.
    + by rewrite Htks.
    + by rewrite Htks.
    + by rewrite Htks.
    + by rewrite Htks.
    + intros key' val' u' Hin Hu' Hplain.
      apply elem_of_app in Hin as [Hin|Hin]; [by eapply Hpl |].
      apply list_elem_of_singleton in Hin. injection Hin as -> ->. congruence.
    + intros key' Hout. apply Hr.
      intros Hin. apply Hout. rewrite fmap_app. apply elem_of_app. by left.
Qed.

End configure.

Lemma mat_configure_all U cfg done queued w :
  NoDup (done ++ cfg).*1 →
  MatInv U done queued w → readyQueued queued w →
  ∃ queued',
    MatInv U (done ++ cfg) queued' (foldl (configureUniform 0) w cfg)
    ∧ readyQueued queued' (foldl (configureUniform 0) w cfg)
    ∧ length queued' ≤ length queued + length cfg.
Proof.
  revert done queued w. induction cfg as [|[key val] cfg IH]; intros done queued w Hnd Hinv Hrq.
  - exists queued. rewrite app_nil_r. simpl. split; [done | split; [done | lia]].
  - replace (done ++ (key, val) :: cfg) with ((done ++ [(key, val)]) ++ cfg) in *
      by (by rewrite <- app_assoc).
    destruct (mat_configure U done key val queued w) as (q1 & Hinv1 & Hrq1 & Hlen1);
      [| done | done |].
    { rewrite fmap_app in Hnd. by apply NoDup_app in Hnd as [? _]. }
    destruct (IH _ q1 _ Hnd Hinv1 Hrq1) as (q2 & Hinv2 & Hrq2 & Hlen2).
    exists q2. simpl. split; [done | split; [done | simpl in *; lia]].
Qed.

Lemma mat_start lib U :
  MatInv U [] [] (withMaterials [newMaterial U] (emptyWorld lib))
  ∧ readyQueued [] (withMaterials [newMaterial U] (emptyWorld lib)).
Proof.
  split; [split; simpl; try done |].
  - apply NoDup_nil_2.
  - intros j key Hin. by apply elem_of_nil in Hin.
  - intros j Hj. lia.
  - intros key val u Hin. by apply elem_of_nil in Hin.
  - intros j tex Hj. done.
Qed.

Lemma cfgSet_keys key v cfg k :
  k ∈ (cfgSet key v cfg).*1 → k = key ∨ k ∈ cfg.*1.
Proof.
  induction cfg as [|[k' x] cfg IH]; simpl cfgSet.
  - intros Hin. apply list_elem_of_singleton in Hin. by left.
  - destruct (decide (k' = key)) as [->|Hne]; rewrite !fmap_cons; simpl fst.
    + intros Hin. by right.
    + intros Hin. apply elem_of_cons in Hin as [->|Hin].
      * right. by apply elem_of_cons; left.
      * destruct (IH Hin) as [->|Hin']; [by left |]. right. by apply elem_of_cons; right.
Qed.

Lemma cfgSet_nodup key v cfg : NoDup cfg.*1 → NoDup (cfgSet key v cfg).*1.
Proof.
  induction cfg as [|[k x] cfg IH]; intros Hnd.
  - apply NoDup_singleton.
  - rewrite fmap_cons in Hnd. apply NoDup_cons in Hnd as [Hk Hnd]. simpl in Hk.
    simpl cfgSet. destruct (decide (k = key)) as [->|Hne]; rewrite fmap_cons; simpl fst.
    + by apply NoDup_cons.
    + apply NoDup_cons. split; [| by apply IH].
      intros Hin. apply cfgSet_keys in Hin as [->|Hin]; done.
Qed.

Lemma cfgSet_length key v cfg : length (cfgSet key v cfg) ≤ S (length cfg).
Proof.
  induction cfg as [|[k x] cfg IH]; simpl; [lia |].
  destruct (decide (k = key)); simpl; lia.
Qed.

Lemma uniformOf_cell m key w : uniformOf m key w = uvalue <$> uniformCell m key w.
Proof. unfold uniformOf, uniformCell. by destruct (materials w !! m). Qed.

(** ** The claim about [createMaterial] *)

(** C7. [createMaterial] returns the material.  When it returns, every
    config entry for a declared uniform that is no texture source is set,
    and every entry that is a texture source still has the uniform's
    default.  After the pending microtasks and any later events, such a
    uniform holds the texture made for it if that texture's load
    succeeded and otherwise still its default: a failed load changes
    nothing and leaves nothing to run. *)
Theorem createMaterial_textures_best_effort
    (lib : Value → gmap string Uniform) (cfg : list (string * Value))
    (evs : list Event) (fuel : nat) :
  NoDup cfg.*1 →
  length cfg + 1 ≤ fuel →
  let U := lib (shaderOf cfg) in
  let w0 := (createMaterial (Some cfg) (emptyWorld lib)).2 in
  let w := turns fuel evs (drain fuel w0) in
  (createMaterial (Some cfg) (emptyWorld lib)).1.1 = 0
  ∧ is_Some (materials w0 !! 0)
  ∧ (∀ key val u, (key, val) ∈ configKeys cfg → U !! key = Some u →
       uniformOf 0 key w0
       = Some (if isTextureEntry U (key, val) then uvalue u else val))
  ∧ (∀ key val u, (key, val) ∈ configKeys cfg → U !! key = Some u →
       isTextureEntry U (key, val) = false →
       uniformOf 0 key w = Some val)
  ∧ (∀ j key val u, textureEntries U (configKeys cfg) !! j = Some (key, val) →
       U !! key = Some u →
       uniformOf 0 key w
       = Some (if decide (statusOf j w = Some Ready) then VTexture j else uvalue u))
  ∧ jobs w = [].
Proof.
  intros Hnd Hfuel U w0 w.
  assert (NoDup (configKeys cfg).*1) as Hnd' by (by apply cfgSet_nodup).
  destruct (mat_start lib U) as [Hs Hrs].
  destruct (mat_configure_all U (configKeys cfg) [] [] _ Hnd' Hs Hrs)
    as (queued & Hinv0 & Hrq0 & Hlen).
  change (foldl (configureUniform 0) (withMaterials [newMaterial U] (emptyWorld lib))
            (configKeys cfg)) with w0 in Hinv0, Hrq0.
  simpl app in Hinv0.
  assert (MatInv U (configKeys cfg) [] w) as Hinv.
  { apply mat_turns; [done | | lia]. apply (mat_drain _ _ Hnd' queued); [done |].
    pose proof (cfgSet_length "shader" (shaderOf cfg) cfg). unfold configKeys in Hlen.
    simpl in Hlen. lia. }
  split; [done |]. split; [| split; [| split; [| split]]].
  - pose proof (renderState_configure_all 0 0 (configKeys cfg)
                  (withMaterials [newMaterial U] (emptyWorld lib))) as Hrs0.
    change (foldl (configureUniform 0) (withMaterials [newMaterial U] (emptyWorld lib))
              (configKeys cfg)) with w0 in Hrs0.
    unfold renderState in Hrs0. simpl in Hrs0.
    destruct (materials w0 !! 0); [by eexists | done].
  - intros key val u Hin HU. rewrite uniformOf_cell.
    destruct (isTextureEntry U (key, val)) eqn:Hte.
    + assert ((key, val) ∈ textureEntries U (configKeys cfg)) as Hin'
        by (apply list_elem_of_filter; by split).
      apply list_elem_of_lookup in Hin' as [j Hj].
      destruct (mt_texture _ _ _ _ Hinv0 j key val Hj) as (tex & u' & Htex & Hu' & Hc & _ & _).
      rewrite Hc. simpl. f_equal. rewrite HU in Hu'. injection Hu' as <-.
      rewrite decide_False; [done |]. intros [Hready Hout]. apply Hout. by eapply Hrq0.
    + by rewrite (mt_plain _ _ _ _ Hinv0 key val u Hin HU Hte).
  - intros key val u Hin HU Hte. rewrite uniformOf_cell.
    by rewrite (mt_plain _ _ _ _ Hinv key val u Hin HU Hte).
  - intros j key val u Hj HU. rewrite uniformOf_cell.
    destruct (mt_texture _ _ _ _ Hinv j key val Hj) as (tex & u' & Htex & Hu' & Hc & _ & _).
    rewrite Hc. simpl. f_equal. rewrite HU in Hu'. injection Hu' as <-.
    unfold statusOf. rewrite Htex. simpl.
    destruct (decide (status tex = Ready)) as [Hr|Hr].
    + rewrite !decide_True; [done | by rewrite Hr |]. split; [done | apply not_elem_of_nil].
    + rewrite !decide_False; [done | congruence |]. intros [? _]. done.
  - apply Hinv.
Qed.

Lemma createMaterial_textures_best_effort_witness :
  let lib : Value → gmap string Uniform := λ _,
    <["diffuseMap" := {| utype := "t"; uvalue := VNull |}]>
      (<["normalMap" := {| utype := "t"; uvalue := VNull |}]>
         (<["color" := {| utype := "3f"; uvalue := VNumber 1 |}]> ∅)) in
  let cfg := [("diffuseMap"%string, VString "diffuse.jpg");
              ("normalMap"%string, VString "missing.jpg");
              ("color"%string, VNumber 7)] in
  let w0 := (createMaterial (Some cfg) (emptyWorld lib)).2 in
  let w := turns 4 [TextureLoaded 0; TextureFailed 1] (drain 4 w0) in
  uniformOf 0 "color" w0 = Some (VNumber 7)
  ∧ uniformOf 0 "diffuseMap" w0 = Some VNull
  ∧ uniformOf 0 "diffuseMap" w = Some (VTexture 0)
  ∧ uniformOf 0 "normalMap" w = Some VNull
  ∧ jobs w = [].
Proof.
  intros lib cfg w0 w.
  assert (NoDup cfg.*1) as Hnd by (apply (bool_decide_unpack _); vm_compute; exact I).
  assert (length cfg + 1 ≤ 4) as Hfuel by (simpl; lia).
  destruct (createMaterial_textures_best_effort lib cfg
              [TextureLoaded 0; TextureFailed 1] 4 Hnd Hfuel)
    as (_ & _ & Hret & _ & Htex & Hjobs).
  split; [| split; [| split; [| split]]].
  - apply (Hret "color"%string (VNumber 7) {| utype := "3f"; uvalue := VNumber 1 |});
      [vm_compute; by apply elem_of_cons; right; apply elem_of_cons; right; apply elem_of_cons; left
      | reflexivity].
  - apply (Hret "diffuseMap"%string (VString "diffuse.jpg") {| utype := "t"; uvalue := VNull |});
      [vm_compute; by apply elem_of_cons; left | reflexivity].
  - apply (Htex 0 "diffuseMap"%string (VString "diffuse.jpg")
             {| utype := "t"; uvalue := VNull |}); reflexivity.
  - apply (Htex 1 "normalMap"%string (VString "missing.jpg")
             {| utype := "t"; uvalue := VNull |}); reflexivity.
  - exact Hjobs.
Defined.

End LoaderFacts.

(** * Further properties of the tracker *)

Module SweepFacts.
Import Tracker Sweeps TrackerFacts.

(** After [markUsed] and the traversal, the counter of an entry of the old
    snapshot is its number of references in the new frame, whatever the
    counter was before. *)
Lemma usedOr0_marked_entry old refs u r :
  r ∈ old → usedOr0 (bump refs (markUsed old u)) r = occurrences r refs.
Proof.
  intros Hin. rewrite usedOr0_bump, usedOr0_markUsed.
  by rewrite decide_True.
Qed.

Lemma checkAndDispose_dropped old refs u l :
  (∀ r, r ∈ l → r ∈ old) →
  checkAndDispose (bump refs (markUsed old u)) l = dropped l refs.
Proof.
  unfold dropped. induction l as [|r l IH]; intros Hsub; [done |].
  simpl checkAndDispose.
  rewrite usedOr0_marked_entry by (apply Hsub; by apply elem_of_cons; left).
  assert (∀ r', r' ∈ l → r' ∈ old) as Hsub'
    by (intros r' Hr'; apply Hsub; by apply elem_of_cons; right).
  destruct (decide (occurrences r refs = 0)) as [Hz|Hnz].
  - rewrite filter_cons_True by (by apply occurrences_zero). by rewrite IH.
  - rewrite filter_cons_False; [by apply IH |].
    intros Hout. by apply occurrences_zero in Hout.
Qed.

Lemma sweepOf_dropped s st :
  sweepOf s st
  = (Tex <$> dropped (gTexturesList st) (sceneTextures s))
    ++ (Geo <$> dropped (gGeometriesList st) (sceneGeometries s)).
Proof.
  unfold sweepOf. rewrite frameHandler_texUsedOf, frameHandler_geoUsedOf.
  by rewrite !checkAndDispose_dropped.
Qed.

(** X1. One frame, from any state of the tracker (stale counters included):
    the sweep disposes exactly the entries of the old snapshot that the
    scene of this frame does not reference, in snapshot order, textures
    before geometries, and the snapshot kept for the next frame is the
    list of this frame's references. *)
Theorem sweep_disposes_dropped_entries (scene : Scene) (st : AppState) :
  disposeLog (frameHandler scene st)
  = disposeLog st
    ++ [(Tex <$> dropped (gTexturesList st) (sceneTextures scene))
        ++ (Geo <$> dropped (gGeometriesList st) (sceneGeometries scene))]
  ∧ gTexturesList (frameHandler scene st) = sceneTextures scene
  ∧ gGeometriesList (frameHandler scene st) = sceneGeometries scene.
Proof.
  split; [| split].
  - by rewrite frameHandler_disposeLog, sweepOf_dropped.
  - apply frameHandler_textures.
  - apply frameHandler_geometries.
Qed.

Lemma ticks_state loads tu gu scenes :
  let st := appState (ticks scenes (App3D {| loop := true |} loads tu gu)) in
  length (disposeLog st) = length scenes
  ∧ gTexturesList st = from_option sceneTextures [] (last scenes)
  ∧ gGeometriesList st = from_option sceneGeometries [] (last scenes).
Proof.
  induction scenes as [|s scenes IH] using rev_ind; cbv zeta; [done |].
  destruct IH as (Hlen & Ht & Hg).
  rewrite ticks_snoc, tick_with_handler by (by rewrite ticks_listeners).
  rewrite last_snoc. simpl from_option.
  rewrite frameHandler_disposeLog, frameHandler_textures, frameHandler_geometries.
  split; [rewrite !length_app; simpl; lia | done].
Qed.

(** X2. The log of an application built with a loop callback, over any
    frames: the first sweep disposes nothing, and the sweep of every later
    frame is exactly the references of the frame before it that the frame
    itself no longer makes (so a resource that leaves the scene, comes back
    and leaves again is disposed each time it leaves). *)
Theorem log_holds_dropped_resources
    (loads : gmap nat LoadState) (tu gu : gmap nat nat) (scenes : list Scene) :
  let log := disposeLog (appState (ticks scenes (App3D {| loop := true |} loads tu gu))) in
  length log = length scenes
  ∧ (∀ s, scenes !! 0 = Some s → log !! 0 = Some [])
  ∧ (∀ i prev next, scenes !! i = Some prev → scenes !! S i = Some next →
       log !! S i = Some (droppedResources prev next)).
Proof.
  induction scenes as [|s scenes IH] using rev_ind; [done |].
  destruct IH as (Hlen & H0 & Hstep).
  destruct (ticks_state loads tu gu scenes) as (_ & Ht & Hg).
  cbv zeta. rewrite ticks_snoc, tick_with_handler by (by rewrite ticks_listeners).
  rewrite frameHandler_disposeLog, sweepOf_dropped, Ht, Hg.
  set (log := disposeLog (appState (ticks scenes (App3D {| loop := true |} loads tu gu)))) in *.
  split; [rewrite !length_app; simpl; lia |]. split.
  - intros s0 Hs0. destruct scenes as [|s1 scenes].
    + done.
    + rewrite lookup_app_l by (rewrite Hlen; simpl; lia). by apply (H0 s1).
  - intros i prev next Hi Hsi.
    destruct (decide (S i < length scenes)) as [Hlt|Hge].
    + rewrite lookup_app_l in Hi by lia. rewrite lookup_app_l in Hsi by lia.
      rewrite lookup_app_l by lia. by apply Hstep.
    + apply lookup_lt_Some in Hsi as Hb. rewrite length_app in Hb; simpl in Hb.
      assert (S i = length scenes) as Hi' by lia.
      rewrite lookup_app_l in Hi by lia.
      rewrite lookup_app_r in Hsi by lia. rewrite Hi', Nat.sub_diag in Hsi.
      injection Hsi as <-.
      rewrite lookup_app_r by lia. rewrite Hlen, Hi', Nat.sub_diag. simpl.
      assert (last scenes = Some prev) as ->.
      { rewrite last_lookup. rewrite <- Hi'. simpl. done. }
      done.
Qed.

(** One counter over one frame: reset if the old snapshot holds the
    resource, then one more per reference. *)
Lemma carried_snoc (refs : Scene → list nat) earlier p u r :
  carried refs (earlier ++ [p]) u r
  = if decide (r ∈ refs p) then 0 else carried refs earlier u r.
Proof.
  unfold carried.
  destruct (decide (r ∈ refs p)) as [Hin|Hout].
  - rewrite decide_True; [done |]. apply Exists_app. right. by apply Exists_cons_hd.
  - destruct (decide (Exists (λ s, r ∈ refs s) earlier)) as [He|He].
    + rewrite decide_True; [done |]. apply Exists_app. by left.
    + rewrite decide_False; [done |]. intros [H|H]%Exists_app; [done |].
      apply Exists_cons in H as [H|H]; [done |]. by apply Exists_nil in H.
Qed.

Lemma ticks_counters loads tu gu earlier s :
  let st := appState (ticks (earlier ++ [s]) (App3D {| loop := true |} loads tu gu)) in
  (∀ t, usedOr0 (texUsedOf st) t
        = occurrences t (sceneTextures s) + carried sceneTextures earlier tu t)
  ∧ (∀ g, usedOr0 (geoUsedOf st) g
          = occurrences g (sceneGeometries s) + carried sceneGeometries earlier gu g).
Proof.
  revert s. induction earlier as [|p earlier IH] using rev_ind; intros s; cbv zeta.
  - simpl app. unfold ticks. simpl foldl.
    rewrite tick_with_handler by done.
    rewrite frameHandler_texUsedOf, frameHandler_geoUsedOf. simpl.
    split; intros r; rewrite usedOr0_bump; unfold carried;
      (rewrite decide_False by (by intros ?%Exists_nil)); lia.
  - destruct (IH p) as [Ht Hg].
    destruct (ticks_state loads tu gu (earlier ++ [p])) as (_ & Hlt & Hlg).
    rewrite last_snoc in Hlt, Hlg. simpl in Hlt, Hlg.
    rewrite ticks_snoc, tick_with_handler by (by rewrite ticks_listeners).
    rewrite frameHandler_texUsedOf, frameHandler_geoUsedOf, Hlt, Hlg.
    split; intros r; rewrite usedOr0_bump, usedOr0_markUsed, carried_snoc.
    + destruct (decide (r ∈ sceneTextures p)) as [Hin|Hout]; [lia |].
      rewrite Ht. apply occurrences_zero in Hout. lia.
    + destruct (decide (r ∈ sceneGeometries p)) as [Hin|Hout]; [lia |].
      rewrite Hg. apply occurrences_zero in Hout. lia.
Qed.

(** X3. The [__used__] counters between frames, whatever the resource
    objects carried when the application was constructed: after the
    last frame the counter of a texture or geometry is the number of
    references that frame's scene makes to it, plus the value the object
    had at construction if no earlier frame referenced it.  So the counter
    is exact for every resource that started without a counter (or at 0)
    and for every resource an earlier frame has referenced; a stale value
    on an object survives until the frame after its first tracked one. *)
Theorem counters_count_last_frame
    (loads : gmap nat LoadState) (tu gu : gmap nat nat)
    (earlier : list Scene) (s : Scene) :
  let st := appState (ticks (earlier ++ [s]) (App3D {| loop := true |} loads tu gu)) in
  (∀ t, usedOr0 (texUsedOf st) t
        = occurrences t (sceneTextures s) + carried sceneTextures earlier tu t)
  ∧ (∀ g, usedOr0 (geoUsedOf st) g
          = occurrences g (sceneGeometries s) + carried sceneGeometries earlier gu g)
  ∧ (∀ t, usedOr0 tu t = 0 ∨ Exists (λ s', t ∈ sceneTextures s') earlier →
          usedOr0 (texUsedOf st) t = occurrences t (sceneTextures s))
  ∧ (∀ g, usedOr0 gu g = 0 ∨ Exists (λ s', g ∈ sceneGeometries s') earlier →
          usedOr0 (geoUsedOf st) g = occurrences g (sceneGeometries s)).
Proof.
  destruct (ticks_counters loads tu gu earlier s) as [Ht Hg]. cbv zeta.
  split; [done |]. split; [done |]. split.
  - intros t H. rewrite Ht. unfold carried.
    destruct (decide _) as [|Hn]; [lia |]. destruct H as [-> | H]; [lia | done].
  - intros g H. rewrite Hg. unfold carried.
    destruct (decide _) as [|Hn]; [lia |]. destruct H as [-> | H]; [lia | done].
Qed.

(** A geometry that carries the counter 5 of another application and is
    referenced once in the first frame has counter 6 after it, and 1
    after the next frame. *)
Lemma stale_counter_survives_one_frame :
  let one := {| opaqueList := [ {| geometry := 7; material := plainMaterial |} ];
                transparentList := []; lights := [] |} in
  usedOr0 (geoUsedOf (appState (ticks [one] (App3D {| loop := true |} ∅ ∅ {[7 := 5]})))) 7
  = 6
  ∧ usedOr0 (geoUsedOf (appState (ticks [one; one]
                                    (App3D {| loop := true |} ∅ ∅ {[7 := 5]})))) 7
    = 1.
Proof. split; vm_compute; reflexivity. Qed.

End SweepFacts.

(** * Further properties of the loading functions *)

Module TraceFacts.
Import Loader Traces LoaderFacts.

Local Arguments drain : simpl never.
Local Arguments Nat.add : simpl never.
Local Arguments Nat.mul : simpl never.
Local Arguments Nat.sub : simpl never.

(** ** Callbacks never change the load state of a texture *)

Lemma fmap_alter_same {A B} (g : A → B) (f : A → A) (l : list A) i :
  (∀ x, g (f x) = g x) → g <$> alter f i l = g <$> l.
Proof.
  intros H. revert i. induction l as [|x l IH]; intros i; [done |].
  destruct i as [|i]; csimpl; [by rewrite H |]. by rewrite IH.
Qed.

Lemma settle_statuses p ok v w : statuses (settle p ok v w) = statuses w.
Proof. unfold statuses. by rewrite settle_textureObjs. Qed.

Lemma then_statuses p f r w : statuses (then_ p f r w).2 = statuses w.
Proof. unfold statuses. by rewrite then_textureObjs. Qed.

Lemma textureOnSuccess_statuses t cb w : statuses (textureOnSuccess t cb w) = statuses w.
Proof. unfold statuses, textureOnSuccess, alterTexture; simpl. by apply fmap_alter_same. Qed.

Lemma textureOnError_statuses t cb w : statuses (textureOnError t cb w) = statuses w.
Proof. unfold statuses, textureOnError, alterTexture; simpl. by apply fmap_alter_same. Qed.

Lemma textureSettled_statuses t w : statuses (textureSettled t w).2 = statuses w.
Proof.
  unfold textureSettled. destruct (isRenderable t w); [done |].
  simpl. by rewrite textureOnError_statuses, textureOnSuccess_statuses.
Qed.

Lemma mapTextures_statuses ts w : statuses (mapTextures ts w).2 = statuses w.
Proof.
  revert w. induction ts as [|t ts IH]; intros w; [done |]. simpl.
  pose proof (textureSettled_statuses t w) as H1.
  destruct (textureSettled t w) as [q w1]. simpl in H1.
  pose proof (IH w1) as H2. destruct (mapTextures ts w1) as [qs w2]. simpl in *.
  congruence.
Qed.

Lemma allElements_statuses a i ps w : statuses (allElements a i ps w) = statuses w.
Proof.
  revert i w. induction ps as [|p ps IH]; intros i w; [done |]. simpl.
  by rewrite IH, then_statuses.
Qed.

Lemma promiseAll_statuses ps w : statuses (promiseAll ps w).2 = statuses w.
Proof.
  unfold promiseAll. simpl. destruct (decide (length ps = 0)); simpl;
    rewrite ?settle_statuses, allElements_statuses; done.
Qed.

Lemma afterLoad_statuses opts p r w : statuses (afterLoad opts p r w) = statuses w.
Proof.
  unfold afterLoad. rewrite settle_statuses. by destruct (autoPlayAnimation opts).
Qed.

Lemma onLoaderSuccess_statuses opts p r w :
  statuses (onLoaderSuccess opts p r w) = statuses w.
Proof.
  unfold onLoaderSuccess. destruct (negb (waitTextureLoaded opts)).
  - apply afterLoad_statuses.
  - pose proof (mapTextures_statuses (textures r) w) as H1.
    destruct (mapTextures (textures r) w) as [qs w1]. simpl in H1.
    pose proof (promiseAll_statuses qs w1) as H2.
    destruct (promiseAll qs w1) as [a w2]. simpl in H2.
    pose proof (then_statuses a (Some (AfterLoad opts p r)) None w2) as H3.
    destruct (then_ a (Some (AfterLoad opts p r)) None w2) as [d1 w3]. simpl in H3.
    rewrite then_statuses. congruence.
Qed.

Lemma allResolveElement_statuses a i v w :
  statuses (allResolveElement a i v w) = statuses w.
Proof.
  unfold allResolveElement. destruct (alls w !! a); [| done]. simpl.
  destruct (decide _); by rewrite ?settle_statuses.
Qed.

Lemma call_statuses cb arg w : statuses (call cb arg w) = statuses w.
Proof.
  destruct cb; simpl; rewrite ?settle_statuses; try done.
  - destruct arg; try done. apply onLoaderSuccess_statuses.
  - apply afterLoad_statuses.
  - apply allResolveElement_statuses.
Qed.

Lemma callAll_statuses cbs arg w : statuses (callAll cbs arg w) = statuses w.
Proof.
  revert w. induction cbs as [|cb cbs IH]; intros w; [done |].
  simpl. change (foldl _ ?w0 cbs) with (callAll cbs arg w0).
  by rewrite IH, call_statuses.
Qed.

Lemma runJob_statuses j w : statuses (runJob j w) = statuses w.
Proof.
  unfold runJob. destruct (jobHandler j); by rewrite settle_statuses, ?call_statuses.
Qed.

Lemma drain_statuses fuel w : statuses (drain fuel w) = statuses w.
Proof.
  revert w. induction fuel as [|fuel IH]; intros w; [done |].
  destruct (jobs w) as [|j rest] eqn:E.
  - by rewrite drain_nil.
  - rewrite (drain_cons _ _ _ _ E), IH, runJob_statuses. done.
Qed.

(** ** Load states follow the events *)

Lemma statusOf_statuses t w : statusOf t w = statuses w !! t.
Proof. unfold statusOf, statuses. by rewrite list_lookup_fmap. Qed.

Lemma statusAfter_cons t ev evs s :
  statusAfter t (ev :: evs) s = statusAfter t evs (statusAfter t [ev] s).
Proof.
  destruct s; [| done | done]. simpl.
  destruct ev as [t'|t'|l cs made|l]; simpl; try done;
    destruct (decide (t' = t)); done.
Qed.

Lemma deliver_statusOf t ev w s :
  statusOf t w = Some s →
  statusOf t (deliver ev w) = Some (statusAfter t [ev] s).
Proof.
  unfold statusOf. intros Ht.
  destruct (textureObjs w !! t) as [tex|] eqn:E; [| done].
  simpl in Ht. injection Ht as <-.
  assert (∀ cbs arg (f : Texture → Texture) t', status tex = Pending ∨ t' ≠ t →
            status <$> textureObjs (callAll cbs arg (alterTexture f t' w)) !! t
            = Some (if decide (t' = t) then status (f tex) else status tex)) as Halter.
  { intros cbs arg f t' Hc.
    rewrite <- list_lookup_fmap. fold (statuses (callAll cbs arg (alterTexture f t' w))).
    rewrite callAll_statuses. unfold statuses, alterTexture; simpl.
    rewrite list_lookup_fmap. destruct (decide (t' = t)) as [->|Hne].
    - by rewrite list_lookup_alter_eq, E.
    - by rewrite list_lookup_alter_ne, E by done. }
  destruct ev as [t'|t'|l cs made|l]; simpl.
  - destruct (decide (t' = t)) as [->|Hne].
    + rewrite E. destruct (decide (status tex = Pending)) as [Hp|Hp].
      * rewrite Halter by (by left). rewrite decide_True by done.
        rewrite Hp. simpl. by rewrite decide_True.
      * rewrite E. simpl. by destruct (status tex).
    + assert (statusAfter t [TextureLoaded t'] (status tex) = status tex) as ->.
      { destruct (status tex); simpl; [| done | done]. by rewrite decide_False. }
      destruct (textureObjs w !! t') as [tex'|]; [| by rewrite E].
      destruct (decide (status tex' = Pending)); [| by rewrite E].
      rewrite Halter by (by right). by rewrite decide_False.
  - destruct (decide (t' = t)) as [->|Hne].
    + rewrite E. destruct (decide (status tex = Pending)) as [Hp|Hp].
      * rewrite Halter by (by left). rewrite decide_True by done.
        rewrite Hp. simpl. by rewrite decide_True.
      * rewrite E. simpl. by destruct (status tex).
    + assert (statusAfter t [TextureFailed t'] (status tex) = status tex) as ->.
      { destruct (status tex); simpl; [| done | done]. by rewrite decide_False. }
      destruct (textureObjs w !! t') as [tex'|]; [| by rewrite E].
      destruct (decide (status tex' = Pending)); [| by rewrite E].
      rewrite Halter by (by right). by rewrite decide_False.
  - assert (statusAfter t [ModelLoaded l cs made] (status tex) = status tex) as ->
      by (by destruct (status tex)).
    destruct (loaders w !! l) as [ld|]; [| by rewrite E].
    destruct (decide (loaderStatus ld = Pending)); [| by rewrite E].
    rewrite <- list_lookup_fmap.
    match goal with |- (status <$> textureObjs ?w0) !! t = _ => fold (statuses w0) end.
    rewrite callAll_statuses. unfold statuses. simpl.
    rewrite list_lookup_fmap, lookup_app_l by (by eapply lookup_lt_Some).
    by rewrite E.
  - assert (statusAfter t [ModelFailed l] (status tex) = status tex) as ->
      by (by destruct (status tex)).
    destruct (loaders w !! l) as [ld|]; [| by rewrite E].
    destruct (decide (loaderStatus ld = Pending)); [| by rewrite E].
    rewrite <- list_lookup_fmap.
    match goal with |- (status <$> textureObjs ?w0) !! t = _ => fold (statuses w0) end.
    rewrite callAll_statuses. unfold statuses. simpl. by rewrite list_lookup_fmap, E.
Qed.

Lemma turn_statusOf fuel t ev w s :
  statusOf t w = Some s →
  statusOf t (turn fuel w ev) = Some (statusAfter t [ev] s).
Proof.
  intros H. unfold turn. rewrite statusOf_statuses, drain_statuses, <- statusOf_statuses.
  by apply deliver_statusOf.
Qed.

Lemma turns_statusOf fuel t evs w s :
  statusOf t w = Some s →
  statusOf t (turns fuel evs w) = Some (statusAfter t evs s).
Proof.
  revert w s. induction evs as [|ev evs IH]; intros w s H.
  - simpl. rewrite H. by destruct s.
  - rewrite statusAfter_cons. simpl. apply IH. by apply turn_statusOf.
Qed.

(** ** The clips on the timeline follow the nodes in the scene *)

Section playing.
Context (opts : ModelOpts) (cs : list nat).

Local Abbreviation Play := (Playing opts cs).

Lemma playing_settle p ok v w : Play w → Play (settle p ok v w).
Proof.
  intros [Hj Hp Ht Hl Hc]. unfold settle.
  destruct (promises w !! p) as [[[] rs]|] eqn:E; try by split.
  pose proof (Forall_lookup_1 _ _ _ _ Hp E) as Hrs. simpl in Hrs.
  split; simpl; try done.
  - apply Forall_app. split; [done |]. apply Forall_fmap.
    eapply Forall_impl; [exact Hrs |]. intros r [H1 H2]. simpl. by destruct ok.
  - apply Forall_insert; [done |]. simpl. constructor.
Qed.

Lemma playing_then p f r w :
  Play w → playsOpt opts cs f → playsOpt opts cs r → Play (then_ p f r w).2.
Proof.
  intros [Hj Hp Ht Hl Hc] Hf Hr. unfold then_.
  assert (Forall (λ pr, Forall (λ r, playsOpt opts cs (onFulfilled r)
                                     ∧ playsOpt opts cs (onRejected r)) (reactions pr))
                 (promises w ++ [pendingPromise])) as Hp'.
  { apply Forall_app. split; [done |]. apply Forall_singleton. simpl. constructor. }
  destruct (promises w !! p) as [[[] rs]|] eqn:E; simpl; split; simpl; try done.
  - apply Forall_insert; [done |]. simpl.
    pose proof (Forall_lookup_1 _ _ _ _ Hp E) as Hrs. simpl in Hrs.
    apply Forall_app. split; [done |]. by apply Forall_singleton.
  - apply Forall_app. split; [done |]. by apply Forall_singleton.
  - apply Forall_app. split; [done |]. by apply Forall_singleton.
Qed.

Lemma playing_alterTexture (f : Texture → Texture) t w :
  (∀ tex, Forall (plays opts cs) (successListeners tex)
          ∧ Forall (plays opts cs) (errorListeners tex) →
          Forall (plays opts cs) (successListeners (f tex))
          ∧ Forall (plays opts cs) (errorListeners (f tex))) →
  Play w → Play (alterTexture f t w).
Proof.
  intros Hf [Hj Hp Ht Hl Hc]. split; simpl; try done.
  apply Forall_lookup. intros i tex Hi.
  destruct (decide (t = i)) as [->|Hne].
  - rewrite list_lookup_alter_eq in Hi.
    destruct (textureObjs w !! i) as [tex0|] eqn:E; [| done].
    simpl in Hi. injection Hi as <-. apply Hf. by eapply (Forall_lookup_1 _ _ _ _ Ht).
  - rewrite list_lookup_alter_ne in Hi by done. by eapply (Forall_lookup_1 _ _ _ _ Ht).
Qed.

Lemma playing_textureOnSuccess t cb w :
  plays opts cs cb → Play w → Play (textureOnSuccess t cb w).
Proof.
  intros Hcb. apply playing_alterTexture. intros tex [H1 H2]. simpl.
  split; [| done]. apply Forall_app. split; [done |]. by apply Forall_singleton.
Qed.

Lemma playing_textureOnError t cb w :
  plays opts cs cb → Play w → Play (textureOnError t cb w).
Proof.
  intros Hcb. apply playing_alterTexture. intros tex [H1 H2]. simpl.
  split; [done |]. apply Forall_app. split; [done |]. by apply Forall_singleton.
Qed.

Lemma playing_fresh_promise pr w :
  reactions pr = [] → Play w → Play (withPromises (promises w ++ [pr]) w).
Proof.
  intros Hr [Hj Hp Ht Hl Hc]. split; simpl; try done.
  apply Forall_app. split; [done |]. apply Forall_singleton. rewrite Hr. constructor.
Qed.

Lemma playing_textureSettled t w : Play w → Play (textureSettled t w).2.
Proof.
  intros Hw. unfold textureSettled. destruct (isRenderable t w); simpl.
  - by apply playing_fresh_promise.
  - apply playing_textureOnError; [done |]. apply playing_textureOnSuccess; [done |].
    by apply playing_fresh_promise.
Qed.

Lemma playing_mapTextures ts w : Play w → Play (mapTextures ts w).2.
Proof.
  revert w. induction ts as [|t ts IH]; intros w Hw; [done |]. simpl.
  pose proof (playing_textureSettled t w Hw) as H1.
  destruct (textureSettled t w) as [q w1]. simpl in H1.
  pose proof (IH w1 H1) as H2. by destruct (mapTextures ts w1) as [qs w2].
Qed.

Lemma playing_allElements a i ps w : Play w → Play (allElements a i ps w).
Proof.
  revert i w. induction ps as [|p ps IH]; intros i w Hw; [done |]. simpl.
  apply IH. by apply playing_then.
Qed.

Lemma playing_withAlls als w : Play w → Play (withAlls als w).
Proof. intros [Hj Hp Ht Hl Hc]. by split. Qed.

Lemma playing_promiseAll ps w : Play w → Play (promiseAll ps w).2.
Proof.
  intros Hw. unfold promiseAll. simpl.
  assert (Play (allElements (length (promises w)) 0 ps
                  (withAlls (<[length (promises w) :=
                               {| remaining := length ps; total := length ps; values := ∅ |}]>
                             (alls w))
                     (withPromises (promises w ++ [pendingPromise]) w)))) as H.
  { apply playing_allElements, playing_withAlls. by apply playing_fresh_promise. }
  destruct (decide (length ps = 0)); simpl; [by apply playing_settle | done].
Qed.

Lemma playing_afterLoad p r w :
  clips r = cs → Play w → Play (afterLoad opts p r w).
Proof.
  intros Hr [Hj Hp Ht Hl Hc]. unfold afterLoad. apply playing_settle.
  assert (clipsFor opts cs (sceneNodes w ++ [rootNode r])
          = timelineClips w ++ (if autoPlayAnimation opts then cs else [])) as Hcl.
  { unfold clipsFor. rewrite bind_app. simpl. rewrite app_nil_r. by rewrite Hc. }
  destruct (autoPlayAnimation opts); split; simpl; try done.
  - by rewrite Hcl, Hr.
  - by rewrite Hcl, app_nil_r.
Qed.

Lemma playing_onLoaderSuccess p r w :
  clips r = cs → Play w → Play (onLoaderSuccess opts p r w).
Proof.
  intros Hr Hw. unfold onLoaderSuccess. destruct (negb (waitTextureLoaded opts)).
  - by apply playing_afterLoad.
  - pose proof (playing_mapTextures (textures r) w Hw) as H1.
    destruct (mapTextures (textures r) w) as [qs w1]. simpl in H1.
    pose proof (playing_promiseAll qs w1 H1) as H2.
    destruct (promiseAll qs w1) as [a w2]. simpl in H2.
    pose proof (playing_then a (Some (AfterLoad opts p r)) None w2 H2) as H3.
    destruct (then_ a (Some (AfterLoad opts p r)) None w2) as [d1 w3]. simpl in H3.
    apply playing_then; [by apply H3 | done | done].
Qed.

Lemma playing_call cb arg w : plays opts cs cb → Play w → Play (call cb arg w).
Proof.
  intros Hcb Hw. destruct cb; simpl; try (by apply playing_settle).
  - destruct Hw as [Hj Hp Ht Hl Hc]. by split.
  - done.
  - destruct Hcb as [-> Hr]. by apply playing_afterLoad.
  - unfold allResolveElement. destruct (alls w !! a); [| done]. simpl.
    destruct (decide _); [apply playing_settle |]; by apply playing_withAlls.
Qed.

Lemma playing_callAll cbs arg w :
  Forall (plays opts cs) cbs → Play w → Play (callAll cbs arg w).
Proof.
  revert w. induction cbs as [|cb cbs IH]; intros w Hcbs Hw; [done |].
  apply Forall_cons in Hcbs as [Hcb Hcbs]. simpl.
  change (foldl _ ?w0 cbs) with (callAll cbs arg w0).
  apply IH; [done |]. by apply playing_call.
Qed.

Lemma playing_runJob j w :
  playsOpt opts cs (jobHandler j) → Play w → Play (runJob j w).
Proof.
  intros Hj Hw. unfold runJob. destruct (jobHandler j); apply playing_settle; [| done].
  by apply playing_call.
Qed.

Lemma playing_drain fuel w : Play w → Play (drain fuel w).
Proof.
  revert w. induction fuel as [|fuel IH]; intros w Hw; [done |].
  destruct (jobs w) as [|j rest] eqn:E.
  - by rewrite drain_nil.
  - rewrite (drain_cons _ _ _ _ E). apply IH.
    destruct Hw as [Hj Hp Ht Hl Hc]. rewrite E in Hj. apply Forall_cons in Hj as [Hj1 Hj2].
    apply playing_runJob; [done |]. by split.
Qed.

Lemma playing_deliver ev w : Play w → Play (deliver ev w).
Proof.
  intros Hw. pose proof Hw as [Hj Hp Ht Hl Hc].
  destruct ev as [t|t|l cs' made|l]; simpl.
  - destruct (textureObjs w !! t) as [tex|] eqn:E; [| done].
    destruct (decide _); [| done].
    pose proof (Forall_lookup_1 _ _ _ _ Ht E) as [H1 H2].
    apply playing_callAll; [done |]. apply playing_alterTexture; [| done].
    intros tex' [H1' H2']. simpl. split; [constructor | done].
  - destruct (textureObjs w !! t) as [tex|] eqn:E; [| done].
    destruct (decide _); [| done].
    pose proof (Forall_lookup_1 _ _ _ _ Ht E) as [H1 H2].
    apply playing_callAll; [done |]. apply playing_alterTexture; [| done].
    intros tex' [H1' H2']. simpl. split; [done | constructor].
  - destruct (loaders w !! l) as [ld|] eqn:E; [| done].
    destruct (decide _); [| done].
    pose proof (Forall_lookup_1 _ _ _ _ Hl E) as [H1 H2].
    apply playing_callAll; [done |]. split; simpl; try done.
    + apply Forall_app. split; [done |]. apply Forall_fmap, Forall_true.
      intros r. simpl. split; constructor.
    + apply Forall_insert; [done |]. simpl. split; [constructor | done].
  - destruct (loaders w !! l) as [ld|] eqn:E; [| done].
    destruct (decide _); [| done].
    pose proof (Forall_lookup_1 _ _ _ _ Hl E) as [H1 H2].
    apply playing_callAll; [done |]. split; simpl; try done.
    apply Forall_insert; [done |]. simpl. split; [done | constructor].
Qed.

Lemma playing_turns fuel evs w : Play w → Play (turns fuel evs w).
Proof.
  revert w. induction evs as [|ev evs IH]; intros w Hw; [done |].
  simpl. apply IH. unfold turn. by apply playing_drain, playing_deliver.
Qed.

End playing.

(** ** One model load, by its events *)

Section model_events.
Context (lib : Value → gmap string Uniform) (url : string) (opts : ModelOpts)
        (cs : list nat) (made : list LoadState).

Local Abbreviation start := (modelWorld lib url (Some opts)).

Lemma loaded_playing fuel evs :
  Playing opts cs (turns fuel (ModelLoaded 0 cs made :: evs) start).
Proof.
  simpl. apply playing_turns. unfold turn. apply playing_drain.
  rewrite deliver_model_loaded. apply playing_onLoaderSuccess; [done |].
  split; simpl; try done.
  - repeat constructor.
  - apply Forall_fmap, Forall_true. intros r. simpl. split; constructor.
  - repeat constructor.
Qed.

Lemma loaded_statusOf fuel evs i r :
  made !! i = Some r →
  statusOf i (turns fuel (ModelLoaded 0 cs made :: evs) start)
  = Some (statusAfter i evs r).
Proof.
  intros Hi. simpl. apply turns_statusOf.
  unfold turn. rewrite statusOf_statuses, drain_statuses.
  rewrite deliver_model_loaded, onLoaderSuccess_statuses.
  unfold statuses. simpl. by rewrite !list_lookup_fmap, Hi.
Qed.

(** The join is over exactly when the events have settled the textures. *)
Lemma loaded_joined fuel evs :
  let w := turns fuel (ModelLoaded 0 cs made :: evs) start in
  settledIn 0 (length made) w && bool_decide (Failed ∉ made) = settledBy made evs.
Proof.
  intros w. apply eq_true_iff_eq.
  rewrite andb_true_iff, bool_decide_eq_true. unfold settledIn, settledBy.
  rewrite !forallb_forall. split.
  - intros [Hset Hnf] i Hin. pose proof Hin as Hlt. apply in_seq in Hlt.
    destruct (lookup_lt_is_Some_2 made i) as [r Hr]; [lia |]. rewrite Hr.
    specialize (Hset i Hin). apply negb_true_iff, bool_decide_eq_false in Hset.
    pose proof (loaded_statusOf fuel evs i r Hr) as Hst. fold w in Hst.
    rewrite Hst in Hset.
    destruct r; simpl in *.
    + apply negb_true_iff, bool_decide_eq_false. intros Hp. apply Hset. by rewrite Hp.
    + done.
    + exfalso. apply Hnf. by eapply list_elem_of_lookup_2.
  - intros H. split.
    + intros i Hin. pose proof Hin as Hlt. apply in_seq in Hlt.
      destruct (lookup_lt_is_Some_2 made i) as [r Hr]; [lia |].
      specialize (H i Hin). rewrite Hr in H.
      pose proof (loaded_statusOf fuel evs i r Hr) as Hst. fold w in Hst.
      rewrite Hst. apply negb_true_iff, bool_decide_eq_false.
      destruct r; simpl in *; [| done | done].
      apply negb_true_iff, bool_decide_eq_false in H. by intros [= Hp].
    + intros Hin. apply list_elem_of_lookup in Hin as [i Hi].
      assert (In i (seq 0 (length made))) as Hin'.
      { apply in_seq. apply lookup_lt_Some in Hi. lia. }
      specialize (H i Hin'). by rewrite Hi in H.
Qed.

End model_events.

(** X4. [loadModel] with [waitTextureLoaded], told by the events: the root
    node is put in the scene, and the returned promise fulfilled with the
    loader's result, exactly when every texture the loader handed over
    was renderable at that moment, or was still loading then and has
    since had its success or its error event; the clips go to the
    timeline at that same moment and only under [autoPlayAnimation];
    until then the promise is pending.  (A texture handed over in error
    has no event to come: the promise then stays pending for good.) *)
Theorem wait_policy_follows_texture_events
    (lib : Value → gmap string Uniform) (url : string) (opts : ModelOpts)
    (cs : list nat) (made : list LoadState) (evs : list Event) (fuel : nat) :
  waitTextureLoaded opts = true →
  length made + 3 ≤ fuel →
  let w := turns fuel (ModelLoaded 0 cs made :: evs) (modelWorld lib url (Some opts)) in
  sceneNodes w = (if settledBy made evs then [0] else [])
  ∧ stateOf 0 w
    = Some (if settledBy made evs
            then PFulfilled (VResult {| rootNode := 0; clips := cs;
                                        textures := seq 0 (length made) |})
            else PPending)
  ∧ timelineClips w = (if settledBy made evs && autoPlayAnimation opts then cs else [])
  ∧ (∀ i r, made !! i = Some r → statusOf i w = Some (statusAfter i evs r)).
Proof.
  intros Hwait Hfuel w.
  assert (WaitInv opts cs (length made) (stuckCount made) w) as Hinv.
  { subst w. simpl. apply wait_turns; [| lia]. by apply model_loaded_wait. }
  destruct (wait_observed opts cs (length made) _ w Hinv) as (_ & Hn & Hs & Hp & _).
  rewrite (allSettled_own w _ Hn) in Hs, Hp.
  rewrite (bool_decide_ext _ _ (stuckCount_zero made)) in Hs, Hp.
  pose proof (loaded_joined lib url opts cs made fuel evs) as Hjoin.
  fold w in Hjoin. rewrite Hjoin in Hs, Hp.
  pose proof (pl_clips _ _ _ (loaded_playing lib url opts cs made fuel evs)) as Hc.
  fold w in Hc. rewrite Hs in Hc.
  split; [done |]. split; [done |]. split.
  - rewrite Hc. destruct (settledBy made evs); simpl; [| done].
    unfold clipsFor. simpl. rewrite app_nil_r. done.
  - intros i r Hi. by apply loaded_statusOf.
Qed.

Lemma wait_policy_follows_texture_events_witness :
  let opts := {| shader := None; waitTextureLoaded := true; autoPlayAnimation := true;
                 textureRootPath := None; textureFlipY := false |} in
  let w := turns 5 [ModelLoaded 0 [7; 8] [Pending; Ready]; TextureFailed 0]
             (modelWorld (λ _, ∅) "model.gltf" (Some opts)) in
  sceneNodes w = [0] ∧ timelineClips w = [7; 8].
Proof.
  intros opts w.
  destruct (wait_policy_follows_texture_events (λ _, ∅) "model.gltf" opts [7; 8]
              [Pending; Ready] [TextureFailed 0] 5) as (Hs & _ & Hc & _);
    [reflexivity | simpl; lia |].
  split; [exact Hs | exact Hc].
Defined.

(** X5. [loadModel] without [waitTextureLoaded] (the default): in the turn
    of the loader's success event the root node is put in the scene once,
    the promise is fulfilled with the loader's result and the clips are
    handed to the timeline if and only if [autoPlayAnimation] is set.
    Nothing that happens to the textures afterwards changes any of this;
    the textures go on loading on their own. *)
Theorem immediate_policy_inserts_at_success
    (lib : Value → gmap string Uniform) (url : string) (opts : option ModelOpts)
    (cs : list nat) (made : list LoadState) (evs : list Event) (fuel : nat) :
  waitTextureLoaded (default noModelOpts opts) = false →
  let w := turns fuel (ModelLoaded 0 cs made :: evs) (modelWorld lib url opts) in
  sceneNodes w = [0]
  ∧ stateOf 0 w
    = Some (PFulfilled (VResult {| rootNode := 0; clips := cs;
                                   textures := seq 0 (length made) |}))
  ∧ timelineClips w = (if autoPlayAnimation (default noModelOpts opts) then cs else [])
  ∧ jobs w = []
  ∧ (∀ i r, made !! i = Some r → statusOf i w = Some (statusAfter i evs r)).
Proof.
  intros Hwait w.
  assert (modelWorld lib url opts = modelWorld lib url (Some (default noModelOpts opts)))
    as Hw by (by destruct opts).
  subst w. rewrite Hw. set (o := default noModelOpts opts) in *.
  pose proof (immediate_turns cs (length made) fuel evs _
                (model_loaded_immediate lib url o cs made fuel Hwait)) as Hinv.
  pose proof (pl_clips _ _ _ (loaded_playing lib url o cs made fuel evs)) as Hc.
  simpl in Hc |- *. rewrite (ii_scene _ _ _ Hinv) in Hc.
  split; [apply Hinv |]. split; [apply Hinv |]. split; [| split; [apply Hinv |]].
  - rewrite Hc. unfold clipsFor. simpl. by rewrite app_nil_r.
  - intros i r Hi. by apply (loaded_statusOf lib url o cs made fuel evs).
Qed.

Lemma immediate_policy_inserts_at_success_witness :
  let w := turns 0 [ModelLoaded 0 [7] [Pending]; TextureFailed 0]
             (modelWorld (λ _, ∅) "model.gltf" None) in
  sceneNodes w = [0] ∧ timelineClips w = [] ∧ statusOf 0 w = Some Failed.
Proof.
  intros w.
  destruct (immediate_policy_inserts_at_success (λ _, ∅) "model.gltf" None [7] [Pending]
              [TextureFailed 0] 0) as (Hs & _ & Hc & _ & Hst); [reflexivity |].
  split; [exact Hs |]. split; [exact Hc |]. apply (Hst 0 Pending). reflexivity.
Defined.

(** X6. As long as the loader has not reported success, [loadModel]
    touches neither the scene nor the timeline and no texture exists,
    whatever other events arrive, the loader's own error event included;
    the promise is pending until that error event and rejected from it
    on. *)
Theorem scene_untouched_before_model_loads
    (lib : Value → gmap string Uniform) (url : string) (opts : option ModelOpts)
    (evs : list Event) (fuel : nat) :
  (∀ cs made, ModelLoaded 0 cs made ∉ evs) →
  let w := turns fuel evs (modelWorld lib url opts) in
  sceneNodes w = [] ∧ timelineClips w = [] ∧ textureObjs w = [] ∧ jobs w = []
  ∧ stateOf 0 w = Some (if bool_decide (loaderOutcome 0 evs = Failed)
                        then PRejected VUndefined else PPending).
Proof.
  induction evs as [|ev evs IH]; intros Hnone; [done |].
  assert (∀ cs made, ModelLoaded 0 cs made ∉ evs) as Hnone'.
  { intros cs made Hin. apply (Hnone cs made). by apply elem_of_cons; right. }
  specialize (IH Hnone').
  destruct ev as [t|t|l cs made|l].
  - simpl. rewrite model_pending_turn by done. exact IH.
  - simpl. rewrite model_pending_turn by done. exact IH.
  - destruct (decide (l = 0)) as [->|Hne].
    + exfalso. apply (Hnone cs made). by apply elem_of_cons; left.
    + simpl. rewrite decide_False by done.
      rewrite model_pending_turn by congruence. exact IH.
  - destruct (decide (l = 0)) as [->|Hne].
    + simpl. rewrite failed_turns by apply model_failed.
      unfold turn. simpl. by rewrite drain_nil.
    + simpl. rewrite decide_False by done.
      rewrite model_pending_turn by congruence. exact IH.
Qed.

Lemma scene_untouched_before_model_loads_witness :
  let w := turns 3 [TextureLoaded 0; ModelLoaded 1 [7] [Ready]; ModelFailed 0]
             (modelWorld (λ _, ∅) "model.gltf" None) in
  sceneNodes w = [] ∧ timelineClips w = [] ∧ textureObjs w = [] ∧ jobs w = []
  ∧ stateOf 0 w = Some (PRejected VUndefined).
Proof.
  apply (scene_untouched_before_model_loads (λ _, ∅) "model.gltf" None
           [TextureLoaded 0; ModelLoaded 1 [7] [Ready]; ModelFailed 0] 3).
  intros cs made Hin.
  repeat (apply elem_of_cons in Hin as [Hin | Hin]; [discriminate Hin |]).
  by apply elem_of_nil in Hin.
Defined.

(** ** One texture load, by its events *)

(** With nothing queued and no load outstanding, events change nothing. *)
Lemma settled_turns fuel evs w :
  jobs w = [] → pendingCount w = 0 → quietLoaders w → turns fuel evs w = w.
Proof.
  intros Hj Hc Hl. induction evs as [|ev evs IH]; [done |].
  simpl. assert (turn fuel w ev = w) as ->; [| exact IH].
  unfold turn. rewrite deliver_settled by done. by rewrite drain_nil.
Qed.

Lemma loadTexture_url lib src opts :
  typeofString src = true →
  loadTexture src opts (emptyWorld lib) = (0, textureWorld lib opts Pending).
Proof. intros H. by destruct src. Qed.

Lemma textureWorld_turns lib opts fuel evs :
  turns fuel evs (textureWorld lib opts Pending)
  = textureWorld lib opts (textureOutcome 0 evs).
Proof.
  assert (∀ evs s, s ≠ Pending →
            turns fuel evs (textureWorld lib opts s) = textureWorld lib opts s) as Hdone.
  { intros evs' s Hs. apply settled_turns; [done | |].
    - unfold pendingCount. simpl. by rewrite filter_cons_False.
    - intros l ld Hl. done. }
  induction evs as [|ev evs IH]; [done |].
  destruct ev as [t|t|l cs made|l]; simpl.
  - destruct t as [|t].
    + assert (turn fuel (textureWorld lib opts Pending) (TextureLoaded 0)
              = textureWorld lib opts Ready) as ->.
      { unfold turn. simpl. by rewrite drain_nil. }
      by apply Hdone.
    + rewrite decide_False by done.
      assert (turn fuel (textureWorld lib opts Pending) (TextureLoaded (S t))
              = textureWorld lib opts Pending) as ->
        by (unfold turn; simpl; by rewrite drain_nil).
      exact IH.
  - destruct t as [|t].
    + assert (turn fuel (textureWorld lib opts Pending) (TextureFailed 0)
              = textureWorld lib opts Failed) as ->.
      { unfold turn. simpl. by rewrite drain_nil. }
      by apply Hdone.
    + rewrite decide_False by done.
      assert (turn fuel (textureWorld lib opts Pending) (TextureFailed (S t))
              = textureWorld lib opts Pending) as ->
        by (unfold turn; simpl; by rewrite drain_nil).
      exact IH.
  - assert (turn fuel (textureWorld lib opts Pending) (ModelLoaded l cs made)
            = textureWorld lib opts Pending) as ->
      by (unfold turn; simpl; by rewrite drain_nil).
    exact IH.
  - assert (turn fuel (textureWorld lib opts Pending) (ModelFailed l)
            = textureWorld lib opts Pending) as ->
      by (unfold turn; simpl; by rewrite drain_nil).
    exact IH.
Qed.

(** X7. [loadTexture] on a fresh application, over any later events: for
    a URL the first success or error event of the texture decides, once
    and for all: success fulfils the promise with that very texture,
    error rejects it with no reason, and until then it is pending.  For
    every source that is not a string no load is started: the promise is
    fulfilled with the texture from the start and no event changes it.
    Nothing is left to run in any case. *)
Theorem loadTexture_settled_by_first_event
    (lib : Value → gmap string Uniform) (src opts : Value)
    (evs : list Event) (fuel : nat) :
  let p := (loadTexture src opts (emptyWorld lib)).1 in
  let w := turns fuel evs (loadTexture src opts (emptyWorld lib)).2 in
  stateOf p w
  = Some (if typeofString src then texturePromise 0 (textureOutcome 0 evs)
          else PFulfilled (VTexture 0))
  ∧ statusOf 0 w = Some (if typeofString src then textureOutcome 0 evs else Ready)
  ∧ length (textureObjs w) = 1
  ∧ jobs w = [].
Proof.
  destruct (typeofString src) eqn:Hstr.
  - cbv zeta. rewrite (loadTexture_url lib src opts Hstr). simpl fst. simpl snd.
    rewrite textureWorld_turns. by destruct (textureOutcome 0 evs).
  - assert (turns fuel evs (loadTexture src opts (emptyWorld lib)).2
            = (loadTexture src opts (emptyWorld lib)).2) as Hw.
    { apply settled_turns; destruct src; try done;
        intros l ld Hl; done. }
    cbv zeta. rewrite Hw. by destruct src.
Qed.

(** ** Materials keep the uniforms of their shader *)

Lemma textureSettled_materials t w : materials (textureSettled t w).2 = materials w.
Proof. unfold textureSettled. by destruct (isRenderable t w). Qed.

Lemma mapTextures_materials ts w : materials (mapTextures ts w).2 = materials w.
Proof.
  revert w. induction ts as [|t ts IH]; intros w; [done |]. simpl.
  pose proof (textureSettled_materials t w) as H1.
  destruct (textureSettled t w) as [q w1]. simpl in H1.
  pose proof (IH w1) as H2. destruct (mapTextures ts w1) as [qs w2]. simpl in *.
  congruence.
Qed.

Lemma allElements_materials a i ps w : materials (allElements a i ps w) = materials w.
Proof.
  revert i w. induction ps as [|p ps IH]; intros i w; [done |]. simpl.
  by rewrite IH, then_materials.
Qed.

Lemma promiseAll_materials ps w : materials (promiseAll ps w).2 = materials w.
Proof.
  unfold promiseAll. simpl. destruct (decide (length ps = 0)); simpl;
    rewrite ?settle_materials, allElements_materials; done.
Qed.

Lemma afterLoad_materials opts p r w : materials (afterLoad opts p r w) = materials w.
Proof.
  unfold afterLoad. rewrite settle_materials. by destruct (autoPlayAnimation opts).
Qed.

Lemma onLoaderSuccess_materials opts p r w :
  materials (onLoaderSuccess opts p r w) = materials w.
Proof.
  unfold onLoaderSuccess. destruct (negb (waitTextureLoaded opts)).
  - apply afterLoad_materials.
  - pose proof (mapTextures_materials (textures r) w) as H1.
    destruct (mapTextures (textures r) w) as [qs w1]. simpl in H1.
    pose proof (promiseAll_materials qs w1) as H2.
    destruct (promiseAll qs w1) as [a w2]. simpl in H2.
    pose proof (then_materials a (Some (AfterLoad opts p r)) None w2) as H3.
    destruct (then_ a (Some (AfterLoad opts p r)) None w2) as [d1 w3]. simpl in H3.
    rewrite then_materials. congruence.
Qed.

Lemma allResolveElement_materials a i v w :
  materials (allResolveElement a i v w) = materials w.
Proof.
  unfold allResolveElement. destruct (alls w !! a); [| done]. simpl.
  destruct (decide _); by rewrite ?settle_materials.
Qed.

Lemma setUniform_shapes m key val w : shapes (setUniform m key val w) = shapes w.
Proof.
  unfold shapes, setUniform. simpl. apply fmap_alter_same. intros mat. simpl.
  apply map_eq. intros k. rewrite !lookup_fmap.
  destruct (decide (key = k)) as [->|Hne].
  - rewrite lookup_alter_eq. by destruct (uniforms mat !! k).
  - by rewrite lookup_alter_ne.
Qed.

Lemma shapes_materials w w' : materials w' = materials w → shapes w' = shapes w.
Proof. unfold shapes. by intros ->. Qed.

Lemma call_shapes cb arg w : shapes (call cb arg w) = shapes w.
Proof.
  destruct cb; simpl; try (apply shapes_materials, settle_materials).
  - apply setUniform_shapes.
  - destruct arg; try done. apply shapes_materials, onLoaderSuccess_materials.
  - apply shapes_materials, afterLoad_materials.
  - apply shapes_materials, allResolveElement_materials.
Qed.

Lemma callAll_shapes cbs arg w : shapes (callAll cbs arg w) = shapes w.
Proof.
  revert w. induction cbs as [|cb cbs IH]; intros w; [done |].
  simpl. change (foldl _ ?w0 cbs) with (callAll cbs arg w0).
  by rewrite IH, call_shapes.
Qed.

Lemma runJob_shapes j w : shapes (runJob j w) = shapes w.
Proof.
  unfold runJob. destruct (jobHandler j);
    rewrite (shapes_materials _ _ (settle_materials _ _ _ _)); [apply call_shapes | done].
Qed.

Lemma drain_shapes fuel w : shapes (drain fuel w) = shapes w.
Proof.
  revert w. induction fuel as [|fuel IH]; intros w; [done |].
  destruct (jobs w) as [|j rest] eqn:E.
  - by rewrite drain_nil.
  - rewrite (drain_cons _ _ _ _ E), IH, runJob_shapes. done.
Qed.

Lemma deliver_shapes ev w : shapes (deliver ev w) = shapes w.
Proof.
  destruct ev as [t|t|l cs made|l]; simpl.
  - destruct (textureObjs w !! t); [| done]. destruct (decide _); [| done].
    by rewrite callAll_shapes.
  - destruct (textureObjs w !! t); [| done]. destruct (decide _); [| done].
    by rewrite callAll_shapes.
  - destruct (loaders w !! l); [| done]. destruct (decide _); [| done].
    by rewrite callAll_shapes.
  - destruct (loaders w !! l); [| done]. destruct (decide _); [| done].
    by rewrite callAll_shapes.
Qed.

Lemma turns_shapes fuel evs w : shapes (turns fuel evs w) = shapes w.
Proof.
  revert w. induction evs as [|ev evs IH]; intros w; [done |].
  simpl. rewrite IH. unfold turn. by rewrite drain_shapes, deliver_shapes.
Qed.

Lemma configureUniform_shapes m w kv : shapes (configureUniform m w kv) = shapes w.
Proof.
  unfold configureUniform. destruct (_ ≫= _) as [u|]; [| done].
  destruct (_ || _).
  - apply shapes_materials. by rewrite then_materials, loadTexture_materials.
  - apply setUniform_shapes.
Qed.

Lemma configure_all_shapes m cfg w :
  shapes (foldl (configureUniform m) w cfg) = shapes w.
Proof.
  revert w. induction cfg as [|kv cfg IH]; intros w; [done |].
  simpl. by rewrite IH, configureUniform_shapes.
Qed.

(** ** [createMaterial], by its events *)

Lemma configure_statuses U done key val queued w :
  MatInv U done queued w → key ∉ done.*1 →
  statuses (configureUniform 0 w (key, val))
  = statuses w ++ (if isTextureEntry U (key, val) then [sourceStatus val] else []).
Proof.
  intros Hinv Hkey.
  rewrite configureUniform_cell, (mt_rest _ _ _ _ Hinv key Hkey).
  unfold isTextureEntry. simpl fst. simpl snd.
  destruct (U !! key) as [u|]; [| by rewrite app_nil_r].
  destruct (String.eqb (utype u) "t" || isImageLikeElement val).
  - destruct (loadTexture_fresh val VUndefined w) as (tex & cell & -> & Hspec).
    simpl fst. simpl snd. rewrite then_statuses. unfold statuses. simpl.
    rewrite fmap_app. simpl. unfold sourceStatus.
    destruct (typeofString val); by destruct Hspec as [-> _].
  - by rewrite app_nil_r.
Qed.

Lemma configure_all_statuses U cfg done queued w :
  NoDup (done ++ cfg).*1 →
  MatInv U done queued w → readyQueued queued w →
  statuses (foldl (configureUniform 0) w cfg)
  = statuses w ++ ((λ kv, sourceStatus kv.2) <$> textureEntries U cfg).
Proof.
  revert done queued w. induction cfg as [|[key val] cfg IH]; intros done queued w Hnd Hinv Hrq.
  - simpl. by rewrite app_nil_r.
  - replace (done ++ (key, val) :: cfg) with ((done ++ [(key, val)]) ++ cfg) in Hnd
      by (by rewrite <- app_assoc).
    assert (NoDup (done ++ [(key, val)]).*1) as Hnd1.
    { rewrite fmap_app in Hnd. by apply NoDup_app in Hnd as [? _]. }
    assert (key ∉ done.*1) as Hkey.
    { rewrite fmap_app in Hnd1. apply NoDup_app in Hnd1 as (_ & Hfresh & _).
      intros Hin. apply (Hfresh key Hin). simpl. by apply list_elem_of_singleton. }
    destruct (mat_configure U done key val queued w Hnd1 Hinv Hrq) as (q1 & Hinv1 & Hrq1 & _).
    simpl foldl. rewrite (IH _ q1 _ Hnd Hinv1 Hrq1).
    rewrite (configure_statuses U done key val queued w Hinv Hkey).
    rewrite <- app_assoc. f_equal. unfold textureEntries.
    destruct (isTextureEntry U (key, val)) eqn:Hte.
    + by rewrite filter_cons_True.
    + rewrite filter_cons_False; [done |]. by rewrite Hte.
Qed.

(** Key of a config after [cfgSet]. *)
Lemma cfgSet_has_key key v cfg : key ∈ (cfgSet key v cfg).*1.
Proof.
  induction cfg as [|[k x] cfg IH]; simpl.
  - by apply list_elem_of_singleton.
  - destruct (decide (k = key)) as [->|Hne]; rewrite fmap_cons; simpl fst.
    + by apply elem_of_cons; left.
    + by apply elem_of_cons; right.
Qed.

Lemma cfgSet_keeps_key key key' v cfg : key' ∈ cfg.*1 → key' ∈ (cfgSet key v cfg).*1.
Proof.
  induction cfg as [|[k x] cfg IH]; [by intros ?%elem_of_nil |].
  rewrite fmap_cons. simpl fst. intros Hin. simpl cfgSet.
  destruct (decide (k = key)) as [->|Hne]; rewrite fmap_cons; simpl fst; [done |].
  apply elem_of_cons in Hin as [->|Hin]; [by apply elem_of_cons; left |].
  apply elem_of_cons; right. by apply IH.
Qed.

(** Writing to a key the value it has changes nothing. *)
Lemma cfgSet_same key cfg : key ∈ cfg.*1 → cfgSet key (cfgGet key cfg) cfg = cfg.
Proof.
  induction cfg as [|[k x] cfg IH]; [by intros ?%elem_of_nil |].
  rewrite fmap_cons. simpl fst. intros Hin. simpl.
  destruct (decide (k = key)) as [->|Hne]; [done |].
  apply elem_of_cons in Hin as [->|Hin]; [done |]. by rewrite IH.
Qed.

(** X8. [createMaterial] writes to the config object it is given: when it
    returns, the config names the shader that was used (the one given, or
    'clay.standard' when none or a falsy one was given), and every entry
    other than [shader], [transparent] and [depthMask] has the value it
    had.  A config that has been through [createMaterial] once comes out
    of a second [createMaterial] unchanged, and a call without a config
    is a call with an empty one. *)
Theorem createMaterial_normalises_its_config
    (cfg : list (string * Value)) (w w' : World) :
  let cfg' := (createMaterial (Some cfg) w).1.2 in
  cfgGet "shader" cfg' = shaderOf cfg
  ∧ truthy (cfgGet "shader" cfg') = true
  ∧ (∀ key, key ≠ "shader"%string → key ≠ "transparent"%string →
            key ≠ "depthMask"%string → cfgGet key cfg' = cfgGet key cfg)
  ∧ (createMaterial (Some cfg') w').1.2 = cfg'
  ∧ createMaterial None w = createMaterial (Some []) w.
Proof.
  cut (let cfg' := (createMaterial (Some cfg) w).1.2 in
       cfgGet "shader" cfg' = shaderOf cfg
       ∧ truthy (cfgGet "shader" cfg') = true
       ∧ (∀ key, key ≠ "shader"%string → key ≠ "transparent"%string →
                 key ≠ "depthMask"%string → cfgGet key cfg' = cfgGet key cfg)
       ∧ (createMaterial (Some cfg') w').1.2 = cfg').
  { cbv zeta. intros (H1 & H2 & H3 & H4). by repeat split. }
  unfold createMaterial. simpl default. cbv zeta. simpl snd. simpl fst.
  fold (shaderOf cfg). set (cfg1 := cfgSet "shader" (shaderOf cfg) cfg).
  set (cfg' := if truthy (cfgGet "transparent" cfg1) then _ else cfg1).
  assert (cfgGet "shader" cfg' = shaderOf cfg) as Hsh.
  { subst cfg'. destruct (truthy (cfgGet "transparent" cfg1)).
    - rewrite !cfgGet_cfgSet_ne by done. apply cfgGet_cfgSet_eq.
    - apply cfgGet_cfgSet_eq. }
  assert (truthy (shaderOf cfg) = true) as Htr.
  { unfold shaderOf. by destruct (truthy (cfgGet "shader" cfg)) eqn:E. }
  assert ("shader"%string ∈ cfg'.*1) as Hkey.
  { subst cfg'. destruct (truthy (cfgGet "transparent" cfg1)).
    - do 2 apply cfgSet_keeps_key. apply cfgSet_has_key.
    - apply cfgSet_has_key. }
  split; [done |]. split; [by rewrite Hsh |]. split.
  - intros key H1 H2 H3. subst cfg'. destruct (truthy (cfgGet "transparent" cfg1)).
    + rewrite !cfgGet_cfgSet_ne by done. subst cfg1. by rewrite cfgGet_cfgSet_ne.
    + subst cfg1. by rewrite cfgGet_cfgSet_ne.
  - fold (shaderOf cfg').
    assert (shaderOf cfg' = cfgGet "shader" cfg') as ->
      by (unfold shaderOf; by rewrite Hsh, Htr).
    rewrite (cfgSet_same "shader" cfg' Hkey).
    destruct (truthy (cfgGet "transparent" cfg1)) eqn:Ht.
    + assert (cfgGet "transparent" cfg' = VBool true) as Ht'
        by (subst cfg'; apply cfgGet_cfgSet_eq).
      assert (cfgGet "depthMask" cfg' = VBool false) as Hd'
        by (subst cfg'; rewrite cfgGet_cfgSet_ne by done; apply cfgGet_cfgSet_eq).
      rewrite Ht'. simpl truthy. cbv iota.
      rewrite <- Hd' at 1. rewrite cfgSet_same.
      * rewrite <- Ht' at 1. apply cfgSet_same. subst cfg'. apply cfgSet_has_key.
      * subst cfg'. apply cfgSet_keeps_key, cfgSet_has_key.
    + subst cfg'. by rewrite Ht.
Qed.

(** X9. [createMaterial] and the texture setters it leaves behind never
    add, remove or retype a uniform of the material: on a fresh
    application, whatever the config and the later events, the mapping
    of the material has the names of its shader's uniforms, each with
    the type the shader gives it, and a uniform of the shader that the
    config does not name keeps the default of its shader for good. *)
Theorem createMaterial_keeps_uniforms_of_shader
    (lib : Value → gmap string Uniform) (cfg : list (string * Value))
    (evs : list Event) (fuel : nat) :
  NoDup cfg.*1 →
  length cfg + 1 ≤ fuel →
  let U := lib (shaderOf cfg) in
  let w := turns fuel evs (drain fuel (createMaterial (Some cfg) (emptyWorld lib)).2) in
  (∀ key u, U !! key = Some u → key ∉ (configKeys cfg).*1 →
     uniformOf 0 key w = Some (uvalue u))
  ∧ shapes w = [utype <$> U].
Proof.
  intros Hnd Hfuel U w.
  set (w0 := (createMaterial (Some cfg) (emptyWorld lib)).2) in *.
  assert (NoDup (configKeys cfg).*1) as Hnd' by (by apply cfgSet_nodup).
  destruct (mat_start lib U) as [Hs Hrs].
  destruct (mat_configure_all U (configKeys cfg) [] [] _ Hnd' Hs Hrs)
    as (queued & Hinv0 & Hrq0 & Hlen).
  change (foldl (configureUniform 0) (withMaterials [newMaterial U] (emptyWorld lib))
            (configKeys cfg)) with w0 in Hinv0, Hrq0.
  simpl app in Hinv0.
  assert (MatInv U (configKeys cfg) [] w) as Hinv.
  { apply mat_turns; [done | | lia]. apply (mat_drain _ _ Hnd' queued); [done |].
    pose proof (cfgSet_length "shader" (shaderOf cfg) cfg). unfold configKeys in Hlen.
    simpl in Hlen. lia. }
  assert (shapes w = [utype <$> U]) as Hsh.
  { subst w. rewrite turns_shapes, drain_shapes. subst w0.
    unfold createMaterial. simpl snd. fold (shaderOf cfg). fold U.
    by rewrite configure_all_shapes. }
  split; [| done].
  intros key u HU Hkey. rewrite uniformOf_cell.
  by rewrite (mt_rest _ _ _ _ Hinv key Hkey), HU.
Qed.

Lemma createMaterial_keeps_uniforms_of_shader_witness :
  let lib : Value → gmap string Uniform := λ _,
    <["diffuseMap" := {| utype := "t"; uvalue := VNull |}]>
      (<["color" := {| utype := "3f"; uvalue := VNumber 1 |}]> ∅) in
  let cfg := [("diffuseMap"%string, VString "diffuse.jpg"); ("name"%string, VString "wall")] in
  let w := turns 3 [TextureLoaded 0]
             (drain 3 (createMaterial (Some cfg) (emptyWorld lib)).2) in
  uniformOf 0 "color" w = Some (VNumber 1)
  ∧ shapes w = [utype <$> lib (shaderOf cfg)].
Proof.
  intros lib cfg w.
  assert (NoDup cfg.*1) as Hnd by (apply (bool_decide_unpack _); vm_compute; exact I).
  assert (length cfg + 1 ≤ 3) as Hfuel by (simpl; lia).
  destruct (createMaterial_keeps_uniforms_of_shader lib cfg [TextureLoaded 0] 3 Hnd Hfuel)
    as (Hrest & Hshapes).
  split; [| exact Hshapes].
  apply (Hrest "color"%string {| utype := "3f"; uvalue := VNumber 1 |}); [reflexivity |].
  vm_compute.
  intros Hin. repeat (apply elem_of_cons in Hin as [Hin | Hin]; [discriminate Hin |]).
  by apply elem_of_nil in Hin.
Defined.

(** X10. [createMaterial] on a fresh application, told by the events: the
    texture made for a config entry that holds a URL is in the state its
    first success or error event left it in, and the texture made for
    any other value (an image, canvas or video, or a value for which
    nothing is loaded) is ready from the start.  Once the microtasks have
    run, the uniform holds that texture exactly when the entry holds no
    URL or the texture's first event was a success, and the default of
    its shader otherwise. *)
Theorem createMaterial_textures_follow_events
    (lib : Value → gmap string Uniform) (cfg : list (string * Value))
    (evs : list Event) (fuel : nat) :
  NoDup cfg.*1 →
  length cfg + 1 ≤ fuel →
  let U := lib (shaderOf cfg) in
  let w := turns fuel evs (drain fuel (createMaterial (Some cfg) (emptyWorld lib)).2) in
  ∀ j key val u, textureEntries U (configKeys cfg) !! j = Some (key, val) →
    U !! key = Some u →
    statusOf j w = Some (if typeofString val then textureOutcome j evs else Ready)
    ∧ uniformOf 0 key w
      = Some (if negb (typeofString val) || bool_decide (textureOutcome j evs = Ready)
              then VTexture j else uvalue u).
Proof.
  intros Hnd Hfuel U w j key val u Hj HU.
  set (w0 := (createMaterial (Some cfg) (emptyWorld lib)).2) in *.
  assert (NoDup (configKeys cfg).*1) as Hnd' by (by apply cfgSet_nodup).
  destruct (mat_start lib U) as [Hs Hrs].
  destruct (mat_configure_all U (configKeys cfg) [] [] _ Hnd' Hs Hrs)
    as (queued & Hinv0 & Hrq0 & Hlen).
  pose proof (configure_all_statuses U (configKeys cfg) [] [] _ Hnd' Hs Hrs) as Hst0.
  change (foldl (configureUniform 0) (withMaterials [newMaterial U] (emptyWorld lib))
            (configKeys cfg)) with w0 in Hinv0, Hrq0, Hst0.
  simpl app in Hinv0. simpl in Hst0.
  assert (MatInv U (configKeys cfg) [] w) as Hinv.
  { apply mat_turns; [done | | lia]. apply (mat_drain _ _ Hnd' queued); [done |].
    pose proof (cfgSet_length "shader" (shaderOf cfg) cfg). unfold configKeys in Hlen.
    simpl in Hlen. lia. }
  assert (statusOf j w = Some (if typeofString val then textureOutcome j evs else Ready))
    as Hstat.
  { subst w. rewrite (turns_statusOf fuel j evs _ (sourceStatus val)).
    - unfold sourceStatus. by destruct (typeofString val).
    - rewrite statusOf_statuses, drain_statuses, Hst0, list_lookup_fmap, Hj. done. }
  split; [done |].
  rewrite uniformOf_cell.
  destruct (mt_texture _ _ _ _ Hinv j key val Hj) as (tex & u' & Htex & Hu' & Hc & _ & _).
  rewrite Hc. simpl. f_equal. rewrite HU in Hu'. injection Hu' as <-.
  unfold statusOf in Hstat. rewrite Htex in Hstat. simpl in Hstat. injection Hstat as Hstat.
  destruct (decide (status tex = Ready ∧ j ∉ [])) as [[Hr _]|Hn].
  - rewrite Hr in Hstat. destruct (typeofString val); [| done]. simpl.
    by rewrite <- Hstat, bool_decide_true.
  - assert (status tex ≠ Ready) as Hr.
    { intros Hr. apply Hn. split; [done | apply not_elem_of_nil]. }
    destruct (typeofString val); [| done]. simpl.
    rewrite bool_decide_false; [done |]. by rewrite <- Hstat.
Qed.

Lemma createMaterial_textures_follow_events_witness :
  let lib : Value → gmap string Uniform := λ _,
    <["diffuseMap" := {| utype := "t"; uvalue := VNull |}]>
      (<["normalMap" := {| utype := "t"; uvalue := VNull |}]>
         (<["roughnessMap" := {| utype := "t"; uvalue := VNull |}]> ∅)) in
  let cfg := [("diffuseMap"%string, VImage 3); ("normalMap"%string, VString "missing.jpg");
              ("roughnessMap"%string, VString "rough.jpg")] in
  let w := turns 4 [TextureFailed 1; TextureLoaded 2]
             (drain 4 (createMaterial (Some cfg) (emptyWorld lib)).2) in
  uniformOf 0 "diffuseMap" w = Some (VTexture 0)
  ∧ uniformOf 0 "normalMap" w = Some VNull
  ∧ uniformOf 0 "roughnessMap" w = Some (VTexture 2).
Proof.
  intros lib cfg w.
  assert (NoDup cfg.*1) as Hnd by (apply (bool_decide_unpack _); vm_compute; exact I).
  assert (length cfg + 1 ≤ 4) as Hfuel by (simpl; lia).
  pose proof (createMaterial_textures_follow_events lib cfg
                [TextureFailed 1; TextureLoaded 2] 4 Hnd Hfuel) as H.
  split; [| split].
  - apply (H 0 "diffuseMap"%string (VImage 3) {| utype := "t"; uvalue := VNull |});
      reflexivity.
  - apply (H 1 "normalMap"%string (VString "missing.jpg")
             {| utype := "t"; uvalue := VNull |}); reflexivity.
  - apply (H 2 "roughnessMap"%string (VString "rough.jpg")
             {| utype := "t"; uvalue := VNull |}); reflexivity.
Defined.

End TraceFacts.

(** * Properties of the container, the meshes and the cameras *)

Module ShellFacts.
Import Loader Shell LoaderFacts.

(** ** [createMaterial] makes no node *)

Lemma then_nodes p f r w :
  sceneNodes (then_ p f r w).2 = sceneNodes w ∧ nodeCount (then_ p f r w).2 = nodeCount w.
Proof. unfold then_. by destruct (promises w !! p) as [[[] ?]|]. Qed.

Lemma loadTexture_nodes src opts w :
  sceneNodes (loadTexture src opts w).2 = sceneNodes w
  ∧ nodeCount (loadTexture src opts w).2 = nodeCount w.
Proof. by destruct (loadTexture_fresh src opts w) as (tex & cell & -> & _). Qed.

Lemma configureUniform_nodes m w kv :
  sceneNodes (configureUniform m w kv) = sceneNodes w
  ∧ nodeCount (configureUniform m w kv) = nodeCount w.
Proof.
  unfold configureUniform. destruct (_ ≫= _) as [u|]; [| done].
  destruct (_ || _); [| done].
  destruct (then_nodes (loadTexture kv.2 VUndefined w).1 (Some (TextureSetter m kv.1)) None
              (loadTexture kv.2 VUndefined w).2) as [-> ->].
  apply loadTexture_nodes.
Qed.

Lemma configure_all_nodes m cfg w :
  sceneNodes (foldl (configureUniform m) w cfg) = sceneNodes w
  ∧ nodeCount (foldl (configureUniform m) w cfg) = nodeCount w.
Proof.
  revert w. induction cfg as [|kv cfg IH]; intros w; [done |].
  simpl. destruct (IH (configureUniform m w kv)) as [-> ->]. apply configureUniform_nodes.
Qed.

Lemma createMaterial_nodes matConfig w :
  sceneNodes (createMaterial matConfig w).2 = sceneNodes w
  ∧ nodeCount (createMaterial matConfig w).2 = nodeCount w.
Proof.
  unfold createMaterial. simpl.
  by destruct (configure_all_nodes (length (materials w))
    (cfgSet "shader"
       (if truthy (cfgGet "shader" (default [] matConfig))
        then cfgGet "shader" (default [] matConfig) else VString "clay.standard")
       (default [] matConfig))
    (withMaterials
       (materials w ++
        [newMaterial (shaderLibrary w
           (if truthy (cfgGet "shader" (default [] matConfig))
            then cfgGet "shader" (default [] matConfig) else VString "clay.standard"))]) w))
    as [-> ->].
Qed.

(** ** One creation call *)

Lemma mesh_creator_spec createGeo size mat st :
  let st' := (makeProceduralMeshCreator createGeo size mat st).2 in
  let mesh := (makeProceduralMeshCreator createGeo size mat st).1.1 in
  mesh = nodeCount (world st)
  ∧ sceneNodes (world st') = sceneNodes (world st) ++ [mesh]
  ∧ nodeCount (world st') = S (nodeCount (world st))
  ∧ (∃ m, meshes st' = <[mesh := {| meshGeometry := createGeo size; meshMaterial := m |}]>
                         (meshes st))
  ∧ cameras st' = cameras st.
Proof.
  unfold makeProceduralMeshCreator. destruct mat as [m|matConfig].
  - simpl. repeat split; try done. by exists m.
  - pose proof (createMaterial_nodes matConfig (world st)) as [Hs Hn].
    destruct (createMaterial matConfig (world st)) as [[m cfg] w]. simpl in *.
    rewrite Hs, Hn. repeat split; try done. by exists m.
Qed.

Lemma createCamera_spec position target type st :
  let st' := (createCamera position target type st).2 in
  let camera := (createCamera position target type st).1 in
  camera = nodeCount (world st)
  ∧ sceneNodes (world st') = sceneNodes (world st) ++ [camera]
  ∧ nodeCount (world st') = S (nodeCount (world st))
  ∧ meshes st' = meshes st
  ∧ ∃ calls, cameras st'
      = <[camera := {| kind := if isString "ortho" type || isString "orthographic" type
                               then Orthographic else Perspective;
                       cameraCalls := calls |}]> (cameras st).
Proof. unfold createCamera. simpl. repeat split; try done. by eexists. Qed.

(** The stage after the calls [cs] on a fresh application. *)
Lemma creates_spec lib cs :
  let st := creates cs (emptyStage lib) in
  nodeCount (world st) = length cs
  ∧ sceneNodes (world st) = seq 0 (length cs)
  ∧ (∀ k c, cs !! k = Some c → nodeKind k st = made c)
  ∧ (∀ k, length cs ≤ k → meshes st !! k = None ∧ cameras st !! k = None).
Proof.
  induction cs as [|c cs IH] using rev_ind; [done |].
  destruct IH as (Hn & Hs & Hk & Hfree).
  unfold creates in *. rewrite foldl_app. simpl foldl.
  set (st := foldl create1 (emptyStage lib) cs) in *.
  rewrite length_app. simpl length. replace (length cs + 1) with (S (length cs)) by lia.
  destruct (Hfree (length cs)) as [Hm Hc]; [lia |].
  assert (∃ st', create1 st c = st'
            ∧ nodeCount (world st') = S (length cs)
            ∧ sceneNodes (world st') = seq 0 (length cs) ++ [length cs]
            ∧ nodeKind (length cs) st' = made c
            ∧ (∀ k, k ≠ length cs →
                 meshes st' !! k = meshes st !! k ∧ cameras st' !! k = cameras st !! k))
    as (st' & -> & Hn' & Hs' & Hk' & Hold).
  { exists (create1 st c). split; [done |].
    assert (∀ createGeo size mat,
              let st' := (makeProceduralMeshCreator createGeo size mat st).2 in
              nodeCount (world st') = S (length cs)
              ∧ sceneNodes (world st') = seq 0 (length cs) ++ [length cs]
              ∧ nodeKind (length cs) st' = MeshNode (createGeo size)
              ∧ (∀ k, k ≠ length cs →
                   meshes st' !! k = meshes st !! k ∧ cameras st' !! k = cameras st !! k))
      as Hmesh.
    { intros createGeo size mat.
      destruct (mesh_creator_spec createGeo size mat st) as (He & Hs1 & Hn1 & [m Hm1] & Hc1).
      cbv zeta. rewrite He, Hn in Hs1, Hm1. rewrite Hn in Hn1. rewrite Hs in Hs1.
      split; [done |]. split; [done |]. split.
      - unfold nodeKind. by rewrite Hm1, Hc1, lookup_insert_eq, Hc.
      - intros k Hne. by rewrite Hm1, Hc1, lookup_insert_ne. }
    destruct c as [size mat|radius mat|size mat|position target type];
      cbv beta iota delta [create1 made].
    - apply (Hmesh cubeGeo).
    - apply (Hmesh sphereGeo).
    - apply (Hmesh planeGeo).
    - destruct (createCamera_spec position target type st)
        as (He & Hs1 & Hn1 & Hm1 & [calls Hc1]).
      cbv zeta in *. rewrite He, Hn in Hs1, Hc1. rewrite Hn in Hn1. rewrite Hs in Hs1.
      split; [done |]. split; [done |]. split.
      + unfold nodeKind. by rewrite Hm1, Hc1, lookup_insert_eq, Hm.
      + intros k Hne. by rewrite Hm1, Hc1, lookup_insert_ne. }
  split; [done |]. split; [by rewrite seq_S |]. split.
  - intros k c' Hkc. destruct (decide (k = length cs)) as [->|Hne].
    + rewrite lookup_snoc_fresh in Hkc. by injection Hkc as <-.
    + apply lookup_lt_Some in Hkc as Hlt. rewrite length_app in Hlt; simpl in Hlt.
      rewrite lookup_app_l in Hkc by lia.
      unfold nodeKind. destruct (Hold k Hne) as [-> ->]. by apply Hk.
  - intros k Hge. destruct (Hold k) as [-> ->]; [lia |]. apply Hfree. lia.
Qed.

(** ** The extras *)

(** X11. Any sequence of [createCube], [createSphere], [createPlane] and
    [createCamera] calls on a fresh application, with any sizes, materials
    and configs: every call adds exactly one new node to the scene, so the
    scene lists the nodes once each in call order, and the node of the
    [k]-th call is the mesh with the geometry that call asked for, or
    the camera of the kind it asked for, and nothing else. *)
Theorem creation_calls_add_one_node_each
    (lib : Value → gmap string Uniform) (cs : list Create) :
  let st := creates cs (emptyStage lib) in
  sceneNodes (world st) = seq 0 (length cs)
  ∧ NoDup (sceneNodes (world st))
  ∧ (∀ k c, cs !! k = Some c → nodeKind k st = made c)
  ∧ (∀ k, length cs ≤ k → nodeKind k st = NoNode).
Proof.
  destruct (creates_spec lib cs) as (Hn & Hs & Hk & Hfree). cbv zeta.
  split; [done |]. split; [rewrite Hs; apply NoDup_seq |]. split; [done |].
  intros k Hge. unfold nodeKind. by destruct (Hfree k Hge) as [-> ->].
Qed.

(** X12. The size of a procedural mesh: a number is the same as the array
    that repeats it (three times for a cube, twice for a plane), and
    leaving the size out, or passing [null], is the same as passing 1,
    for cubes, planes and spheres alike; the whole call has the same
    result and leaves the same state either way. *)
Theorem size_shorthands_agree (n : Z) (mat : MaterialArg) (st : Stage) :
  createCube (VNumber n) mat st
  = createCube (VArray [VNumber n; VNumber n; VNumber n]) mat st
  ∧ createPlane (VNumber n) mat st = createPlane (VArray [VNumber n; VNumber n]) mat st
  ∧ (∀ size, size = VUndefined ∨ size = VNull →
       createCube size mat st = createCube (VNumber 1) mat st
       ∧ createPlane size mat st = createPlane (VNumber 1) mat st
       ∧ createSphere size mat st = createSphere (VNumber 1) mat st).
Proof.
  split; [done |]. split; [done |]. by intros size [-> | ->].
Qed.

(** X14. After the constructor, [resize()] with no arguments on an
    unchanged container keeps the width the constructor chose, but takes
    the height from [dom.height] or [dom.clientHeight] and never from
    [appNS.height]: the height is kept when [appNS] gives none and the
    container has no [height] of its own, and an [appNS.height] on a
    container without one is replaced by [dom.clientHeight]. *)
Theorem resize_without_arguments
    (document : string → option Dom) (dom : DomArg) (ns : option AppNS)
    (loads : gmap nat LoadState) (tu gu : gmap nat nat) (app : Application) :
  construct document dom ns loads tu gu = Returned app →
  let app' := resize VUndefined VUndefined (container app) app in
  gWidth app' = gWidth app
  ∧ gHeight app' = orElse (domHeight (container app)) (clientHeight (container app))
  ∧ (truthy (nsHeight (appNS app)) = false → truthy (domHeight (container app)) = false →
       gHeight app' = gHeight app)
  ∧ (truthy (nsHeight (appNS app)) = true → truthy (domHeight (container app)) = false →
       gHeight app = nsHeight (appNS app) ∧ gHeight app' = clientHeight (container app))
  ∧ resizeCalls app' = [(gWidth app, gHeight app); (gWidth app', gHeight app')].
Proof.
  unfold construct. intros H.
  destruct (match dom with
            | BySelector s => document s
            | ByElement d => Some d
            | NoElement => None
            end) as [d|]; [| done].
  injection H as <-. simpl. unfold orElse. simpl.
  split; [done |]. split; [done |].
  split; [by intros -> -> |]. split; [by intros -> -> |]. done.
Qed.

Lemma resize_without_arguments_witness :
  let ns := {| nsWidth := VNumber 400; nsHeight := VNumber 300;
               nsDevicePixelRatio := VUndefined;
               nsInit := false; nsLoop := true; nsDispose := false |} in
  ∃ app, construct (λ _, None) (ByElement aDiv) (Some ns) ∅ ∅ ∅ = Returned app
    ∧ (gWidth app, gHeight app) = (VNumber 400, VNumber 300)
    ∧ (let app' := resize VUndefined VUndefined (container app) app in
       (gWidth app', gHeight app') = (VNumber 400, VNumber 600)).
Proof.
  intros ns. eexists. split; [reflexivity |]. split; [reflexivity |].
  destruct (resize_without_arguments (λ _, None) (ByElement aDiv) (Some ns) ∅ ∅ ∅ _ eq_refl)
    as (Hw & Hh & _). cbv zeta. rewrite Hw, Hh. reflexivity.
Defined.

End ShellFacts.
